(** * BitFer: the HWGW host batcher, target selection and assignment

    A shallow embedding of the scheduling core of the BitFer Bitburner
    scripts:

    - [Batcher]    : host-batcher-smart.js (thread sizing, RAM packing,
                     finish-time scheduling);
    - [Worker]     : the hack/grow/weaken decision of worker.js;
    - [Controller] : pickTargetsAndStrategy and assignTargetForServer of
                     controller-smart.js;
    - [BatcherLoop], [ControllerLoop] : the loops around them;
    - [TinyWorker], [WorkerSimple] : the decisions of the two small workers;
    - [ControllerRooted], [ControllerPurchased] : the selection, the
                     assignment and the launches of the other controllers;
    - [Hacknet]    : the options and the spending loop of
                     hacknet-manager-silent.js;
    - [ContractRunner] : the contract log of contract-runner.js.

    Number model.  JavaScript numbers are IEEE doubles; here they are exact
    rationals ([Q]), and the results of [Math.ceil], [Math.floor] and
    [Math.round] are integers ([Z]).  Rounding error of double arithmetic,
    NaN and the infinities are outside the model, except at the invocation
    surface ([Batcher.JsNumber]) where NaN decides the default, and at the
    division of line 61, whose rounding [BatcherRounding] bounds.  The one
    division whose divisor the code does not guard is [freeRam /
    ramPerBatch]; it is by a positive number as soon as the worker scripts
    cost RAM ([Batcher.scriptsCostRam]), which the statements that depend
    on it assume. *)

From Stdlib Require Import QArith Qround Qminmax Qabs ZArith List Bool String Ascii Lia Lqa.
From Stdlib Require Import Permutation Sorted.
Import ListNotations.

Open Scope Q_scope.

(** ** JavaScript [Math] helpers *)

Module JsMath.

(** [Math.ceil], [Math.floor] on a finite number. *)
Definition ceil (x : Q) : Z := Qceiling x.
Definition floor (x : Q) : Z := Qfloor x.

(** [Math.round]: the nearest integer, ties towards +infinity. *)
Definition round (x : Q) : Z := Qfloor (x + 0.5).

(** [a < b], [a <= b] as JavaScript evaluates them on finite numbers. *)
Definition ltb (a b : Q) : bool := negb (Qle_bool b a).
Definition leb (a b : Q) : bool := Qle_bool a b.

(** [Math.max(a, b, c)]. *)
Definition max3 (a b c : Q) : Q := Qmax (Qmax a b) c.

End JsMath.

(** ** host-batcher-smart.js *)

Module Batcher.

Import JsMath.

(** Constants of [main]. *)
Definition DELTA : Z := 250.
Definition BUFFER : Z := 1400.
Definition LOOP_DELAY : Z := 900.
Definition MIN_FREE_RAM_RATIO : Q := 0.01.
Definition SEC_INC_HACK : Q := 0.002.
Definition SEC_INC_GROW : Q := 0.004.
Definition SEC_DEC_WEAK : Q := 0.05.

(** *** Invocation surface: [Number(ns.args[i]) || dflt] *)

(** The value of [Number(arg)]: any double, NaN included ([Number(undefined)]
    and [Number] of a non-numeric string are NaN). *)
Inductive JsNumber : Type :=
| NaN
| NegInfinity
| Fin (q : Q)
| PosInfinity.

(** A number is falsy when it is NaN or (plus or minus) zero. *)
Definition falsy (n : JsNumber) : bool :=
  match n with
  | NaN => true
  | Fin q => Qeq_bool q 0
  | _ => false
  end.

(** [n || dflt] with a finite default. *)
Definition orDefault (n : JsNumber) (dflt : Q) : JsNumber :=
  if falsy n then Fin dflt else n.

(** [Math.min(cap, n)] with a finite cap. *)
Definition minCap (cap : Q) (n : JsNumber) : JsNumber :=
  match n with
  | NaN => NaN
  | NegInfinity => NegInfinity
  | Fin q => Fin (Qmin cap q)
  | PosInfinity => Fin cap
  end.

(** [Math.min(0.25, Number(ns.args[1]) || 0.02)] *)
Definition initBaseHackPct (arg1 : JsNumber) : JsNumber :=
  minCap 0.25 (orDefault arg1 0.02).

(** [Math.min(0.5, Number(ns.args[2]) || 0.20)] *)
Definition initMaxTotalHackPct (arg2 : JsNumber) : JsNumber :=
  minCap 0.5 (orDefault arg2 0.20).

(** A JavaScript number against a finite bound, and its sign. *)
Definition atMost (n : JsNumber) (bound : Q) : Prop :=
  match n with
  | NaN => False
  | NegInfinity => True
  | Fin q => q <= bound
  | PosInfinity => False
  end.

Definition positive (n : JsNumber) : Prop :=
  match n with
  | Fin q => 0 < q
  | PosInfinity => True
  | _ => False
  end.

Definition negative (n : JsNumber) : Prop :=
  match n with
  | Fin q => q < 0
  | NegInfinity => True
  | _ => False
  end.

(** *** What one pass of the loop reads from the game *)

Record Env : Type := mkEnv {
  serverExists : bool;                (* ns.serverExists(target) *)
  hackTime : Q;                       (* ns.getHackTime(target), ms *)
  growTime : Q;
  weakenTime : Q;
  hackAnalyze : Q;                    (* ns.hackAnalyze(target) *)
  growthAnalyze : Q -> option Q;      (* ns.growthAnalyze(target, f); None: it throws *)
  formulasHackPercent : option Q;     (* ns.formulas.hacking.hackPercent(..), when callable *)
  ramHack : Q;                        (* ns.getScriptRam("hack.js") *)
  ramGrow : Q;
  ramWeaken : Q;
  hostMaxRam : Q;
  hostUsedRam : Q
}.

(** The thread counts and packing numbers the loop body holds when it
    reaches the scheduling [for]; [basePct] is the value the variable
    BASE_HACK_PCT has at that point. *)
Record Plan : Type := mkPlan {
  basePct : Q;
  hackThreads : Z;
  growThreads : Z;
  weaken1Threads : Z;
  weaken2Threads : Z;
  ramPerBatch : Q;
  freeRam : Q;
  concurrency : Z
}.

Section Planner.

(** [Math.log(f) / Math.log(1 + 0.03)], the fallback growth estimate; the
    logarithm is not a rational function, so it is a parameter. *)
Variable logRatio : Q -> Q.

(** [Math.max(1, Math.ceil(BASE_HACK_PCT / Math.max(1e-12, perHack)))] *)
Definition hackThreadsFor (base perHack : Q) : Z :=
  Z.max 1 (ceil (base / Qmax 1e-12 perHack)).

(** The grow estimate: [growthAnalyze] when it answers, else the logarithm. *)
Definition growThreadsFor (e : Env) (hackT : Z) (perHack : Q) : Z :=
  let hackedFraction := Qmin 0.999 (inject_Z hackT * perHack) in
  let growthFactor := 1 / Qmax 1e-9 (1 - hackedFraction) in
  match growthAnalyze e growthFactor with
  | Some g => Z.max 1 (ceil g)
  | None => Z.max 1 (ceil (logRatio growthFactor))
  end.

(** [Math.max(1, Math.ceil(threads * secInc / SEC_DEC_WEAK))] *)
Definition weakenThreadsFor (threads : Z) (secInc : Q) : Z :=
  Z.max 1 (ceil ((inject_Z threads * secInc) / SEC_DEC_WEAK)).

Definition ramOf (e : Env) (h g w1 w2 : Z) : Q :=
  inject_Z h * ramHack e + inject_Z g * ramGrow e
  + (inject_Z w1 + inject_Z w2) * ramWeaken e.

(** The three worker scripts are on the host: each costs RAM
    ([ns.getScriptRam] gives 0 for a file that is missing). *)
Definition scriptsCostRam (e : Env) : Prop :=
  0 < ramHack e /\ 0 < ramGrow e /\ 0 < ramWeaken e.

(** [perHack] after the optional [ns.formulas] refinement. *)
Definition refinedPerHack (e : Env) : Q :=
  match formulasHackPercent e with
  | Some fp => if ltb 0 fp then fp else hackAnalyze e
  | None => hackAnalyze e
  end.

Definition freeRamOf (e : Env) : Q :=
  Qmax 0 (hostMaxRam e - hostUsedRam e - Qmax 0 (hostMaxRam e * MIN_FREE_RAM_RATIO)).

(** [Math.max(1, Math.floor(freeRam / ramPerBatch))] *)
Definition fit (free ram : Q) : Z := Z.max 1 (floor (free / ram)).

(** Lines 59-114: the unscaled plan for the current BASE_HACK_PCT. *)
Definition unscaled (base : Q) (e : Env) : Plan :=
  let perHack0 := hackAnalyze e in
  let hackT0 := hackThreadsFor base perHack0 in
  let growT := growThreadsFor e hackT0 perHack0 in
  let w1 := weakenThreadsFor hackT0 SEC_INC_HACK in
  let w2 := weakenThreadsFor growT SEC_INC_GROW in
  (* the refinement recomputes hackThreads only *)
  let hackT := hackThreadsFor base (refinedPerHack e) in
  let ram := ramOf e hackT growT w1 w2 in
  let free := freeRamOf e in
  let ram := if leb ram 0 then 1 else ram in
  mkPlan base hackT growT w1 w2 ram free (fit free ram).

(** Lines 116-139: if the batches together would steal more than the cap,
    lower BASE_HACK_PCT and plan again, once. *)
Definition capTotal (maxTotal : Q) (e : Env) (p : Plan) : Plan :=
  let totalHackPct := inject_Z (concurrency p) * basePct p in
  if ltb maxTotal totalHackPct then
    let perBatchAllowed := Qmax 0.001 (maxTotal / inject_Z (concurrency p)) in
    let perHack := refinedPerHack e in
    let hackT := hackThreadsFor perBatchAllowed perHack in
    let growT := growThreadsFor e hackT perHack in
    let w1 := weakenThreadsFor hackT SEC_INC_HACK in
    let w2 := weakenThreadsFor growT SEC_INC_GROW in
    let ram := ramOf e hackT growT w1 w2 in
    mkPlan perBatchAllowed hackT growT w1 w2 ram (freeRam p) (fit (freeRam p) ram)
  else p.

(** [v => Math.max(1, Math.floor(v * scale))] *)
Definition scaleRound (scale : Q) (v : Z) : Z :=
  Z.max 1 (floor (inject_Z v * scale)).

(** Lines 141-153: one batch does not fit, scale the threads down. *)
Definition scaleDown (e : Env) (p : Plan) : Plan :=
  if (concurrency p <=? 0)%Z || ltb (freeRam p) (ramPerBatch p) then
    let scale := Qmax 0.01 (freeRam p / ramPerBatch p) in
    let hackT := scaleRound scale (hackThreads p) in
    let growT := scaleRound scale (growThreads p) in
    let w1 := scaleRound scale (weaken1Threads p) in
    let w2 := scaleRound scale (weaken2Threads p) in
    let ram := ramOf e hackT growT w1 w2 in
    mkPlan (basePct p) hackT growT w1 w2 ram (freeRam p) (fit (freeRam p) ram)
  else p.

(** Line 156: the final clamp of the concurrency. *)
Definition finalSafety (p : Plan) : Plan :=
  let c := Z.max 1 (Z.min (concurrency p)
                      (floor (Qmax 1 (freeRam p / Qmax 1 (ramPerBatch p))))) in
  mkPlan (basePct p) (hackThreads p) (growThreads p) (weaken1Threads p)
         (weaken2Threads p) (ramPerBatch p) (freeRam p) c.

(** Two properties of a plan: every stage has a thread, and the
    concurrency is the one computed from the plan's own cost. *)
Definition wellSized (p : Plan) : Prop :=
  (1 <= hackThreads p)%Z /\ (1 <= growThreads p)%Z
  /\ (1 <= weaken1Threads p)%Z /\ (1 <= weaken2Threads p)%Z.

Definition fitted (p : Plan) : Prop :=
  concurrency p = fit (freeRam p) (ramPerBatch p).

(** The cost of a plan is the cost of its thread counts. *)
Definition priced (e : Env) (p : Plan) : Prop :=
  ramPerBatch p
  = ramOf e (hackThreads p) (growThreads p) (weaken1Threads p) (weaken2Threads p).

(** Lines 53-153: the plan as it stands before the final clamp. *)
Definition packed (base maxTotal : Q) (e : Env) : Plan :=
  scaleDown e (capTotal maxTotal e (unscaled base e)).

(** Lines 53-156 of one pass, for the BASE_HACK_PCT the pass starts with. *)
Definition plan (base maxTotal : Q) (e : Env) : Plan :=
  finalSafety (packed base maxTotal e).

(** *** Lines 158-177: start delays and the exec calls *)

Inductive Script : Type := HackJs | WeakenJs | GrowJs.

(** One [ns.exec(script, host, threads, target, delay)]. *)
Record Exec : Type := mkExec {
  script : Script;
  threads : Z;
  startDelay : Z
}.

(** The four [Date.now()] readings taken while one batch is scheduled. *)
Record BatchClock : Type := mkBatchClock {
  atHack : Z;
  atWeaken1 : Z;
  atGrow : Z;
  atWeaken2 : Z
}.

Definition longestOf (e : Env) : Q :=
  max3 (hackTime e) (growTime e) (weakenTime e).

(** [now + longest + BUFFER] *)
Definition baseT (e : Env) (now : Z) : Q :=
  inject_Z now + longestOf e + inject_Z BUFFER.

(** [Math.round((b / Math.max(1, concurrency)) * (DELTA * 4))] *)
Definition batchOffset (c b : Z) : Z :=
  round ((inject_Z b / inject_Z (Z.max 1 c)) * inject_Z (DELTA * 4)).

(** The finish time [T] aimed at by batch [b]. *)
Definition batchT (e : Env) (now c b : Z) : Q :=
  baseT e now + inject_Z (batchOffset c b).

Definition hackStartDelay (e : Env) (T : Q) (clk : BatchClock) : Z :=
  Z.max 0 (round ((T - hackTime e) - inject_Z (atHack clk))).
Definition weaken1StartDelay (e : Env) (T : Q) (clk : BatchClock) : Z :=
  Z.max 0 (round ((T + inject_Z DELTA - weakenTime e) - inject_Z (atWeaken1 clk))).
Definition growStartDelay (e : Env) (T : Q) (clk : BatchClock) : Z :=
  Z.max 0 (round ((T + 2 * inject_Z DELTA - growTime e) - inject_Z (atGrow clk))).
Definition weaken2StartDelay (e : Env) (T : Q) (clk : BatchClock) : Z :=
  Z.max 0 (round ((T + 3 * inject_Z DELTA - weakenTime e) - inject_Z (atWeaken2 clk))).

(** [if (threads > 0) ns.exec(...)] *)
Definition execIf (s : Script) (n d : Z) : list Exec :=
  if (0 <? n)%Z then [mkExec s n d] else [].

(** The body of the [for] for batch [b]. *)
Definition scheduleBatch (e : Env) (p : Plan) (now : Z) (clk : BatchClock) (b : Z)
  : list Exec :=
  let T := batchT e now (concurrency p) b in
  execIf HackJs (hackThreads p) (hackStartDelay e T clk)
  ++ execIf WeakenJs (weaken1Threads p) (weaken1StartDelay e T clk)
  ++ execIf GrowJs (growThreads p) (growStartDelay e T clk)
  ++ execIf WeakenJs (weaken2Threads p) (weaken2StartDelay e T clk).

(** [for (let b = 0; b < concurrency; b++)]; [clock b] are the readings of
    [Date.now()] while batch [b] is scheduled. *)
Definition schedule (e : Env) (p : Plan) (now : Z) (clock : nat -> BatchClock)
  : list Exec :=
  flat_map (fun b => scheduleBatch e p now (clock b) (Z.of_nat b))
           (seq 0 (Z.to_nat (concurrency p))).

(** *** One pass of [while (true)] *)

(** What survives from one pass to the next: the variable BASE_HACK_PCT,
    declared with [let] before the loop and assigned at line 122. *)
Record State : Type := mkState { BASE_HACK_PCT : Q }.

(** One pass: [None] when the target is missing (the script returns),
    otherwise the state left for the next pass and the calls made. *)
Definition cycle (maxTotal : Q) (st : State) (e : Env) (now : Z)
                 (clock : nat -> BatchClock) : option (State * list Exec) :=
  if serverExists e then
    let p := plan (BASE_HACK_PCT st) maxTotal e in
    Some (mkState (basePct p), schedule e p now clock)
  else None.

(** The completion instant of a call made at [now]: the worker script
    sleeps [startDelay] and then runs for the stage's duration. *)
Definition completion (now delay : Z) (duration : Q) : Q :=
  inject_Z now + inject_Z delay + duration.

End Planner.

End Batcher.

(** ** worker.js: what one pass of the worker loop does *)

Module Worker.

Import JsMath.

Inductive Action : Type := Weaken | Grow | Hack | Idle.

(** CFG *)
Definition SEC_MARGIN : Q := 2.0.
Definition GROW_PCT : Q := 0.85.
Definition HACK_SAFE_PCT : Q := 0.90.
Definition DESIRED_HACK_FRACTION : Q := 0.02.
Definition MIN_HACK_CHANCE : Q := 0.20.

Record Obs : Type := mkObs {
  minSec : Q;             (* ns.getServerMinSecurityLevel(target) *)
  sec : Q;                (* ns.getServerSecurityLevel(target) *)
  maxMoney : Q;
  money : Q;
  perThreadSteal : Q;     (* ns.hackAnalyze(target) *)
  hackChance : Q;         (* ns.hackAnalyzeChance(target) *)
  workerThreads : Z;      (* getWorkerThreads(HOST) *)
  roll : Q                (* Math.random() *)
}.

(** The branch taken when the thread is not selected to hack. *)
Definition maintenance (o : Obs) : Action :=
  if ltb (money o) (maxMoney o * 0.97) then Grow
  else if ltb (minSec o + 0.5) (sec o) then Weaken
  else Idle.

(** The probability with which this thread hacks. *)
Definition hackProb (o : Obs) : Q :=
  let threadsRunning := Z.max 1 (workerThreads o) in
  let desiredTotalHackThreads :=
    Z.max 1 (ceil (DESIRED_HACK_FRACTION / perThreadSteal o)) in
  let p := Qmin 1 (inject_Z desiredTotalHackThreads / inject_Z threadsRunning) in
  if (200 <? threadsRunning)%Z then p * 0.9 else p.

(** The action of one pass, in the order of the [if]s of the loop body. *)
Definition decide (o : Obs) : Action :=
  if ltb (minSec o + SEC_MARGIN) (sec o) then Weaken
  else if ltb (money o) (maxMoney o * GROW_PCT) then Grow
  else if leb (perThreadSteal o) 0 || leb (hackChance o) 0 then Weaken
  else if ltb (hackChance o) MIN_HACK_CHANCE then Weaken
  else if ltb (money o) (maxMoney o * HACK_SAFE_PCT) then Grow
  else if ltb (roll o) (hackProb o) then Hack
  else maintenance o.

End Worker.

(** ** controller-smart.js: target selection and assignment *)

Module Controller.

Import JsMath.

Definition PRIMARY_DOMINANCE_RATIO : Q := 1.4.
Definition MIN_HACK_CHANCE_PRIMARY : Q := 0.65.
Definition MIN_HACK_CHANCE_SECONDARY : Q := 0.45.
Definition POOL : nat := 12.

(** *** The game state the selection reads and writes *)

(** A server as the [ns] calls of the controller see it. *)
Record Server : Type := mkServer {
  hostname : string;
  neighbours : list string;        (* ns.scan(host) *)
  maxMoney : Q;                    (* ns.getServerMaxMoney *)
  requiredHackingLevel : Z;        (* ns.getServerRequiredHackingLevel *)
  hackChance : Q;                  (* ns.hackAnalyzeChance *)
  maxRam : Q;                      (* ns.getServerMaxRam *)
  hasRootAccess : bool;            (* ns.hasRootAccess *)
  numOpenPortsRequired : nat;
  sshPortOpen : bool;
  ftpPortOpen : bool;
  smtpPortOpen : bool;
  httpPortOpen : bool;
  sqlPortOpen : bool
}.

(** The port openers found on home by [ns.fileExists]. *)
Record Programs : Type := mkPrograms {
  bruteSSH : bool;
  ftpCrack : bool;
  relaySMTP : bool;
  httpWorm : bool;
  sqlInject : bool
}.

Record World : Type := mkWorld {
  servers : list Server;
  hackingLevel : Z;                (* ns.getHackingLevel() *)
  programs : Programs
}.

Definition home : string := "home".

Fixpoint findServer (l : list Server) (h : string) : option Server :=
  match l with
  | [] => None
  | s :: r => if String.eqb (hostname s) h then Some s else findServer r h
  end.

(** [ns.scan(h)]; the game returns only names of servers that exist, a
    name unknown to the world has no neighbours here. *)
Definition scan (w : World) (h : string) : list string :=
  match findServer (servers w) h with
  | Some s => neighbours s
  | None => []
  end.

Definition getServerMaxMoney (w : World) (h : string) : Q :=
  match findServer (servers w) h with Some s => maxMoney s | None => 0 end.
Definition getServerRequiredHackingLevel (w : World) (h : string) : Z :=
  match findServer (servers w) h with Some s => requiredHackingLevel s | None => 0%Z end.
Definition hackAnalyzeChance (w : World) (h : string) : Q :=
  match findServer (servers w) h with Some s => hackChance s | None => 0 end.
Definition rooted (w : World) (h : string) : bool :=
  match findServer (servers w) h with Some s => hasRootAccess s | None => false end.

(** *** scanAll: the walk over the network *)

Definition seenHas (seen : list string) (n : string) : bool :=
  existsb (String.eqb n) seen.

(** [if (!seen.has(n)) { seen.add(n); stack.push(n); }]; the top of the
    stack is the head of the list, [seen] keeps insertion order. *)
Definition visit (acc : list string * list string) (n : string)
  : list string * list string :=
  let '(seen, stack) := acc in
  if seenHas seen n then acc else (seen ++ [n], n :: stack).

(** [while (stack.length)], at most [fuel] iterations. *)
Fixpoint scanLoop (w : World) (fuel : nat) (seen stack : list string)
  : list string :=
  match fuel with
  | O => seen
  | S fuel' =>
      match stack with
      | [] => seen
      | h :: rest =>
          let '(seen', stack') := fold_left visit (scan w h) (seen, rest) in
          scanLoop w fuel' seen' stack'
      end
  end.

(** Every name the walk can meet. *)
Definition universe (w : World) : list string :=
  nodup string_dec (flat_map neighbours (servers w)).

(** The names still to be seen; with the height of the stack it bounds the
    iterations left. *)
Definition unseenCount (w : World) (seen : list string) : nat :=
  List.length (filter (fun u => negb (seenHas seen u)) (universe w)).

(** Each name is pushed at most once, so this many iterations suffice
    ([ControllerFacts.scanLoop_fuel_enough]). *)
Definition scanFuel (w : World) : nat := S (List.length (universe w)).

Definition scanAll (w : World) : list string :=
  scanLoop w (scanFuel w) [home] [home].

(** *** autoNuke *)

Definition openPortCount (s : Server) : nat :=
  (if sshPortOpen s then 1 else 0) + (if ftpPortOpen s then 1 else 0)
  + (if smtpPortOpen s then 1 else 0) + (if httpPortOpen s then 1 else 0)
  + (if sqlPortOpen s then 1 else 0).

(** The five openers, each run when its program exists. *)
Definition openPorts (pr : Programs) (s : Server) : Server :=
  mkServer (hostname s) (neighbours s) (maxMoney s) (requiredHackingLevel s)
           (hackChance s) (maxRam s) (hasRootAccess s) (numOpenPortsRequired s)
           (sshPortOpen s || bruteSSH pr) (ftpPortOpen s || ftpCrack pr)
           (smtpPortOpen s || relaySMTP pr) (httpPortOpen s || httpWorm pr)
           (sqlPortOpen s || sqlInject pr).

(** [ns.nuke]: root access when enough ports are open; otherwise it throws
    and the [catch] of autoNuke swallows it. *)
Definition nuke (s : Server) : Server :=
  if (numOpenPortsRequired s <=? openPortCount s)%nat then
    mkServer (hostname s) (neighbours s) (maxMoney s) (requiredHackingLevel s)
             (hackChance s) (maxRam s) true (numOpenPortsRequired s)
             (sshPortOpen s) (ftpPortOpen s) (smtpPortOpen s) (httpPortOpen s)
             (sqlPortOpen s)
  else s.

Definition autoNukeServer (pr : Programs) (s : Server) : Server :=
  if String.eqb (hostname s) home then s
  else if hasRootAccess s then s
  else nuke (openPorts pr s).

(** The calls act on the server [h] names, the first of that name. *)
Fixpoint updateServer (f : Server -> Server) (l : list Server) (h : string)
  : list Server :=
  match l with
  | [] => []
  | s :: r => if String.eqb (hostname s) h then f s :: r
              else s :: updateServer f r h
  end.

Definition autoNuke (w : World) (h : string) : World :=
  mkWorld (updateServer (autoNukeServer (programs w)) (servers w) h)
          (hackingLevel w) (programs w).

(** *** Scoring and selection *)

Record Candidate : Type := mkCandidate {
  s : string;
  score : Q;
  chance : Q
}.

Definition candidateScore (w : World) (h : string) : Q :=
  let maxMoney := getServerMaxMoney w h in
  let chance := hackAnalyzeChance w h in
  let req := getServerRequiredHackingLevel w h in
  if leb maxMoney 0 || leb chance 0 then 0
  else (maxMoney * chance) / (1 + inject_Z req / 10).

(** The body of [for (const s of all)]: the world after it, and the
    candidates pushed so far. *)
Definition consider (acc : World * list Candidate) (h : string)
  : World * list Candidate :=
  let '(w, cand) := acc in
  if (hackingLevel w <? getServerRequiredHackingLevel w h)%Z then acc
  else
    let w' := autoNuke w h in
    if negb (rooted w' h) then (w', cand)
    else
      let chance := hackAnalyzeChance w' h in
      if leb chance 0 then (w', cand)
      else (w', cand ++ [mkCandidate h (candidateScore w' h) chance]).

(** [consider] in two parts: the world it leaves behind, and what it
    pushes, read off that world ([ControllerFacts.consider_split]). *)
Definition blocked (w : World) (h : string) : bool :=
  (hackingLevel w <? getServerRequiredHackingLevel w h)%Z.

Definition considerWorld (w : World) (h : string) : World :=
  if blocked w h then w else autoNuke w h.

Definition pushed (w' : World) (h : string) : list Candidate :=
  if blocked w' h then []
  else if negb (rooted w' h) then []
  else if leb (hackAnalyzeChance w' h) 0 then []
  else [mkCandidate h (candidateScore w' h) (hackAnalyzeChance w' h)].

(** [cand.sort((a,b) => b.score - a.score)]: descending by score, stable. *)
Fixpoint insertByScore (c : Candidate) (l : list Candidate) : list Candidate :=
  match l with
  | [] => [c]
  | d :: r => if ltb (score c) (score d) then d :: insertByScore c r
              else c :: d :: r
  end.

Definition sortByScore (l : list Candidate) : list Candidate :=
  fold_right insertByScore [] l.

(** [{ primary, secondaries }]; [None] is [null]. *)
Record Strategy : Type := mkStrategy {
  primary : option string;
  secondaries : list string
}.

(** The decision on the sorted pool [top]. *)
Definition decide (top : list Candidate) : Strategy :=
  match top with
  | [] => mkStrategy None []
  | top1 :: rest =>
      let top2score := match rest with t2 :: _ => score t2 | [] => 0 end in
      if leb MIN_HACK_CHANCE_PRIMARY (chance top1)
         && ltb (top2score * PRIMARY_DOMINANCE_RATIO) (score top1)
      then mkStrategy (Some (s top1)) (map s (skipn 1 (firstn (Nat.min (List.length top) 8) top)))
      else
        let secs := map s (filter (fun t => leb MIN_HACK_CHANCE_SECONDARY (chance t)) top) in
        match secs with
        | [] => mkStrategy (Some (s top1)) []
        | _ => mkStrategy None secs
        end
  end.

(** pickTargetsAndStrategy: the strategy, and the world its autoNuke
    calls leave behind. *)
Definition moneyHosts (w : World) : list string :=
  filter (fun h => negb (String.eqb h home) && ltb 0 (getServerMaxMoney w h))
         (scanAll w).

Definition pickTargetsAndStrategy (w : World) : Strategy * World :=
  let all := moneyHosts w in
  let '(w', cand) := fold_left consider all (w, []) in
  (decide (firstn POOL (sortByScore cand)), w').

(** *** Assignment *)

(** A computation that calls [Math.random()]: it reads the draws
    [rand 0], [rand 1], ... in order, and returns how many it has read. *)
Definition Rand (A : Type) : Type := (nat -> Q) -> nat -> A * nat.

Definition ret {A : Type} (a : A) : Rand A := fun _ k => (a, k).
Definition bind {A B : Type} (m : Rand A) (f : A -> Rand B) : Rand B :=
  fun rand k => let '(a, k') := m rand k in f a rand k'.
Definition random : Rand Q := fun rand k => (rand k, S k).
Definition run {A : Type} (m : Rand A) (rand : nat -> Q) : A := fst (m rand O).

Notation "x <- m ;; f" := (bind m (fun x => f))
  (at level 61, m at next level, right associativity).

(** Truthiness of [string | null]. *)
Definition truthy (o : option string) : bool :=
  match o with
  | Some EmptyString => false
  | Some _ => true
  | None => false
  end.

Definition isDigit (c : ascii) : bool :=
  let n := nat_of_ascii c in (48 <=? n)%nat && (n <=? 57)%nat.

(** The longest run of digits at the start of the string. *)
Fixpoint takeDigits (str : string) : string :=
  match str with
  | String c r => if isDigit c then String c (takeDigits r) else EmptyString
  | EmptyString => EmptyString
  end.

(** What is left of [str] after the prefix [pre], if it starts with it. *)
Fixpoint dropPrefix (pre str : string) : option string :=
  match pre, str with
  | EmptyString, _ => Some str
  | String a p', String b s' => if Ascii.eqb a b then dropPrefix p' s' else None
  | String _ _, EmptyString => None
  end.

(** [serverName.match(/pserv-(\d+)/)]: the group of the leftmost match. *)
Fixpoint matchPserv (str : string) : option string :=
  let here :=
    match dropPrefix "pserv-"%string str with
    | Some r => match takeDigits r with
                | EmptyString => None
                | d => Some d
                end
    | None => None
    end in
  match here, str with
  | Some d, _ => Some d
  | None, String _ r => matchPserv r
  | None, EmptyString => None
  end.

(** [parseInt(digits, 10)] of a string of digits. *)
Definition parseInt (digits : string) : N :=
  fold_left (fun acc c => (10 * acc + N.of_nat (nat_of_ascii c - 48))%N)
            (list_ascii_of_string digits) 0%N.

Definition getServerMaxRam (w : World) (h : string) : Q :=
  match findServer (servers w) h with Some sv => maxRam sv | None => 0 end.

(** Whether one of the three [return targets.primary] of the first [if]
    is taken; [&&] draws only when the size test passes. *)
Definition primaryChosen (ram : Q) (targets : Strategy) : Rand bool :=
  if truthy (primary targets) then
    if leb 1024 ram then ret true
    else
      medium <- (if leb 256 ram then r <- random ;; ret (ltb r 0.7) else ret false) ;;
      if medium then ret true
      else if leb 64 ram then r <- random ;; ret (ltb r 0.35) else ret false
  else ret false.

(** assignTargetForServer; [None] is [undefined]. *)
Definition assignTargetForServer (w : World) (serverName : string)
                                 (targets : Strategy) : Rand (option string) :=
  let ram := getServerMaxRam w serverName in
  let secs := secondaries targets in
  viaPrimary <- primaryChosen ram targets ;;
  if viaPrimary then ret (primary targets)
  else
    match secs with
    | [] => ret (if truthy (primary targets) then primary targets else Some "n00dles"%string)
    | _ =>
        let len := List.length secs in
        match matchPserv serverName with
        | Some d => ret (nth_error secs (N.to_nat (parseInt d mod N.of_nat len)))
        | None =>
            r <- random ;;
            ret (nth_error secs (Z.to_nat (floor (r * inject_Z (Z.of_nat len)))))
        end
    end.

End Controller.

(** ** host-batcher-smart.js: the passes of [while (true)] *)

Module BatcherLoop.

Import Batcher.

(** What one pass reads: the game, the clock at line 159 and the clock
    while each batch is scheduled. *)
Record Tick : Type := mkTick {
  env : Env;
  now : Z;
  clock : nat -> BatchClock
}.

Section Loop.

Variable logRatio : Q -> Q.
Variable maxTotal : Q.

(** The loop over the passes given: it stops at the first pass that finds
    the target missing (the [return] of line 50); the value of
    BASE_HACK_PCT goes from one pass to the next. *)
Fixpoint passes (st : State) (ticks : list Tick) : State * list (list Exec) :=
  match ticks with
  | [] => (st, [])
  | t :: rest =>
      match cycle logRatio maxTotal st (env t) (now t) (clock t) with
      | None => (st, [])
      | Some (st', out) =>
          let '(final, outs) := passes st' rest in (final, out :: outs)
      end
  end.

End Loop.

End BatcherLoop.

(** ** host-batcher-smart.js: line 61 in double arithmetic *)

Module BatcherRounding.

Import JsMath.

(** The unit roundoff of a double, 2^-53. *)
Definition UNIT_ROUNDOFF : Q := 1 # 9007199254740992.

(** [returned] is a double that a correctly rounded operation can return
    for the exact result [exact], away from overflow and underflow: the
    two differ by at most the unit roundoff, relative to [exact]. *)
Definition roundedTo (exact returned : Q) : Prop :=
  Qabs (returned - exact) <= UNIT_ROUNDOFF * Qabs exact.

(** Line 61 from the double its division returned: [Math.ceil] and
    [Math.max(1, ...)] are exact. *)
Definition hackThreadsFrom (quotient : Q) : Z := Z.max 1 (ceil quotient).

End BatcherRounding.

(** ** tiny-worker.js *)

Module TinyWorker.

Import JsMath.

(** CFG *)
Definition SEC_MARGIN : Q := 2.
Definition GROW_PCT : Q := 0.85.

(** The action of one pass; the worker reads the security, the money and,
    before hacking, the chance. *)
Definition decide (o : Worker.Obs) : Worker.Action :=
  if ltb (Worker.minSec o + SEC_MARGIN) (Worker.sec o) then Worker.Weaken
  else if ltb (Worker.money o) (Worker.maxMoney o * GROW_PCT) then Worker.Grow
  else if leb (Worker.hackChance o) 0.10 then Worker.Weaken
  else Worker.Hack.

End TinyWorker.

(** ** worker-simple.js *)

Module WorkerSimple.

Import JsMath.

(** CFG *)
Definition SEC_MARGIN : Q := 3.
Definition GROW_PCT : Q := 0.80.

Definition decide (o : Worker.Obs) : Worker.Action :=
  if ltb (Worker.minSec o + SEC_MARGIN) (Worker.sec o) then Worker.Weaken
  else if ltb (Worker.money o) (Worker.maxMoney o * GROW_PCT) then Worker.Grow
  else Worker.Hack.

End WorkerSimple.

(** ** controller-smart.js: the main loop around the selection *)

Module ControllerLoop.

Import JsMath Controller.

Definition INITIAL_RAM : Z := 8.
Definition MAX_RAM_CAP : Z := 2048.

(** The hosts [scanAll] can meet: home, and the neighbours of a host it
    can meet. *)
Inductive reachable (w : World) : string -> Prop :=
| reachable_home : reachable w home
| reachable_step (h n : string) :
    reachable w h -> In n (scan w h) -> reachable w n.

(** The state of the walk between two iterations: nothing is listed
    twice, the stack holds listed hosts, every listed host is reachable,
    and a listed host that is off the stack has all its neighbours
    listed. *)
Record walking (w : World) (seen stack : list string) : Prop := mkWalking {
  walk_nodup : NoDup seen;
  walk_home : In home seen;
  walk_stack : forall x, In x stack -> In x seen;
  walk_sound : forall x, In x seen -> reachable w x;
  walk_done : forall x, In x seen -> ~ In x stack ->
              forall n, In n (scan w x) -> In n seen
}.

(** Lines 59-60 of [main]: [for (const s of all) autoNuke(ns, s)]. *)
Definition nukeAll (w : World) : World :=
  fold_left autoNuke (scanAll w) w.

(** HACK_PCT_TIER by the RAM of the server, as deployHostBatcher picks it. *)
Definition hackPctForRam (ram : Q) : Q :=
  if leb 1024 ram then 0.025
  else if leb 256 ram then 0.02
  else if leb 64 ram then 0.015
  else 0.01.

(** The arguments of the [ns.exec("host-batcher-smart.js", server, 1,
    assigned, hackPct)] that deployHostBatcher makes. *)
Record Deploy : Type := mkDeploy {
  assigned : string;
  hackPct : Q
}.

(** deployHostBatcher up to its [ns.exec]: [None] when it returns false
    before (no target assigned, or not enough free RAM for the batcher);
    [usedRam] is [ns.getServerUsedRam(server)] after the [killall],
    [batcherRam] is [ns.getScriptRam("host-batcher-smart.js")]. *)
Definition deployHostBatcher (w : World) (usedRam batcherRam : Q)
                             (server : string) (targets : Strategy)
  : Rand (option Deploy) :=
  a <- assignTargetForServer w server targets ;;
  ret (if truthy a then
         let ram := getServerMaxRam w server in
         let pct := hackPctForRam ram in
         let freeRam := getServerMaxRam w server - usedRam in
         if ltb freeRam batcherRam then None
         else match a with
              | Some t => Some (mkDeploy t pct)
              | None => None
              end
       else None).

(** purchasedServersHave, on [ps = ns.getPurchasedServers()]. *)
Definition purchasedServersHave (w : World) (ps : list string) (ram : Z) : bool :=
  match ps with
  | [] => false
  | _ => forallb (fun h => leb (inject_Z ram) (getServerMaxRam w h)) ps
  end.

(** Lines 144-147: the RAM aimed at doubles, up to the cap, once every
    purchased server has it. *)
Definition autoScale (allHave : bool) (baseRam : Z) : Z :=
  if allHave && (baseRam <? MAX_RAM_CAP)%Z
  then Z.min (baseRam * 2) MAX_RAM_CAP
  else baseRam.

(** The same step in controller-purchased.js: [baseRam *= 2], with no
    [Math.min]. *)
Definition autoScalePurchased (allHave : bool) (baseRam : Z) : Z :=
  if allHave && (baseRam <? MAX_RAM_CAP)%Z
  then (baseRam * 2)%Z
  else baseRam.

(** [baseRam] over the passes of the main loop, given what
    purchasedServersHave answered in each. *)
Definition baseRamAfter (step : bool -> Z -> Z) (answers : list bool) : Z :=
  fold_left (fun ram a => step a ram) answers INITIAL_RAM.

End ControllerLoop.

(** ** Concrete inputs used by the examples below *)

Module Samples.

Import Batcher.

(** A growth model: the threads needed grow with the factor asked for. *)
Definition sampleGrowth (f : Q) : option Q := Some (100 * (f - 1)).

(** [ns.growthAnalyze] answers in every sample, so the logarithm of the
    fallback is never consulted. *)
Definition unusedLog (f : Q) : Q := 0.

(** A 2048 GB host, idle; each hack thread takes 0.1 percent. *)
Definition bigHost : Env :=
  mkEnv true 1000.5 3201.5 4002 0.001 sampleGrowth None 1.7 1.75 1.75 2048 0.

(** An 8 GB host with 4 GB in use. *)
Definition smallHost : Env :=
  mkEnv true 1000.5 3201.5 4002 0.01 sampleGrowth None 1.7 1.75 1.75 8 4.

(** The small host, while a hack thread takes nothing. *)
Definition zeroYield : Env :=
  mkEnv true 1000.5 3201.5 4002 0 sampleGrowth None 1.7 1.75 1.75 8 4.

(** Whole-millisecond durations. *)
Definition wholeTimes : Env :=
  mkEnv true 1000 3200 4000 0.01 sampleGrowth None 1.7 1.75 1.75 8 4.

(** 2000 GB free, 50 GB for the unscaled batch (2 hack, 1 grow, 1 + 1
    weaken threads at 10 GB each). *)
Definition fortyBatches : Env :=
  mkEnv true 1000 3200 4000 0.01 (fun _ => Some 1) None 10 10 10 4096 2055.04.

(** Every [Date.now()] of the pass reads the same millisecond. *)
Definition frozenClock (now : Z) (b : nat) : BatchClock :=
  mkBatchClock now now now now.

(** A small network: home, three targets and a purchased server.  n00dles
    needs no open port and is not rooted yet; joesguns needs one port and
    no port opener is owned. *)
Definition target (name : string) (money : Q) (level : Z) (chance : Q)
                  (root : bool) (ports : nat) : Controller.Server :=
  Controller.mkServer name ["home"%string] money level chance 16 root ports
                      false false false false false.

Definition network : Controller.World :=
  Controller.mkWorld
    [ Controller.mkServer "home"
        ["n00dles"; "foodnstuff"; "joesguns"; "pserv-7"]%string
        0 1 0 64 true 5 false false false false false;
      target "n00dles" 1750000 1 0.9 false 0;
      target "foodnstuff" 50000000 1 0.6 true 0;
      target "joesguns" 62500000 10 0.5 false 1;
      Controller.mkServer "pserv-7" ["home"%string]
        0 1 0 32 true 5 false false false false false ]
    20
    (Controller.mkPrograms false false false false false).

(** A strategy with a primary and three secondaries. *)
Definition spread : Controller.Strategy :=
  Controller.mkStrategy (Some "joesguns"%string)
    ["n00dles"; "foodnstuff"; "sigma-cosmetics"]%string.

End Samples.

(** ** controller-rooted.js *)

Module ControllerRooted.

Import JsMath Controller.

Definition POOL : nat := 10.

(** HACK_PCT_TIER, by the [maxRam >= 256 ? big : maxRam >= 64 ? med :
    small] of the main loop. *)
Definition hackPctForRam (maxRam : Q) : Q :=
  if leb 256 maxRam then 0.02
  else if leb 64 maxRam then 0.015
  else 0.01.

(** score: candidateScore without its guard. *)
Definition score (w : World) (h : string) : Q :=
  let max := getServerMaxMoney w h in
  let chance := hackAnalyzeChance w h in
  let req := getServerRequiredHackingLevel w h in
  (max * chance) / (1 + inject_Z req / 10).

(** The body of [for (const s of all)]; no test of the chance here. *)
Definition consider (acc : World * list Candidate) (h : string)
  : World * list Candidate :=
  let '(w, arr) := acc in
  if (hackingLevel w <? getServerRequiredHackingLevel w h)%Z then acc
  else
    let w' := autoNuke w h in
    if negb (rooted w' h) then (w', arr)
    else (w', arr ++ [mkCandidate h (score w' h) (hackAnalyzeChance w' h)]).

(** What [consider] pushes, read off the world it leaves behind. *)
Definition pushed (w' : World) (h : string) : list Candidate :=
  if blocked w' h then []
  else if negb (rooted w' h) then []
  else [mkCandidate h (score w' h) (hackAnalyzeChance w' h)].

(** The decision on the sorted pool [top]: every pooled server is named. *)
Definition decide (top : list Candidate) : Strategy :=
  match top with
  | [] => mkStrategy None []
  | a :: rest =>
      let bsc := match rest with b :: _ => Controller.score b | [] => 0 end in
      if leb 0.65 (chance a) && ltb (bsc * 1.4) (Controller.score a)
      then mkStrategy (Some (s a)) (map s rest)
      else mkStrategy None (map s top)
  end.

Definition pickTargetsAndStrategy (w : World) : Strategy * World :=
  let all := moneyHosts w in
  let '(w', arr) := fold_left consider all (w, []) in
  (decide (firstn POOL (sortByScore arr)), w').

(** [server.match(/\d+/)]: the first run of digits of the name. *)
Fixpoint matchDigits (str : string) : option string :=
  match str with
  | EmptyString => None
  | String c r => if isDigit c then Some (takeDigits str) else matchDigits r
  end.

(** Whether the [return targets.primary] of the first [if] is taken;
    [||] draws only when the size test fails. *)
Definition primaryChosen (ram : Q) (targets : Strategy) : Rand bool :=
  if truthy (primary targets) then
    if leb 256 ram then ret true
    else r <- random ;; ret (ltb r 0.45)
  else ret false.

(** assignTarget; [None] is [undefined]. *)
Definition assignTarget (w : World) (server : string) (targets : Strategy)
  : Rand (option string) :=
  let ram := getServerMaxRam w server in
  let secs := secondaries targets in
  viaPrimary <- primaryChosen ram targets ;;
  if viaPrimary then ret (primary targets)
  else
    match secs with
    | [] => ret (if truthy (primary targets) then primary targets
                 else Some "n00dles"%string)
    | _ =>
        let len := List.length secs in
        match matchDigits server with
        | Some d => ret (nth_error secs (N.to_nat (parseInt d mod N.of_nat len)))
        | None =>
            r <- random ;;
            ret (nth_error secs (Z.to_nat (floor (r * inject_Z (Z.of_nat len)))))
        end
    end.



End ControllerRooted.

(** ** controller-purchased.js *)

Module ControllerPurchased.

Import JsMath Controller.

(** score and pickTargetsAndStrategy read as in controller-rooted.js. *)
Definition pickTargetsAndStrategy (w : World) : Strategy * World :=
  ControllerRooted.pickTargetsAndStrategy w.

Definition primaryChosen (ram : Q) (targets : Strategy) : Rand bool :=
  if truthy (primary targets) then
    if leb 256 ram then ret true
    else r <- random ;; ret (ltb r 0.5)
  else ret false.

(** assignTargetForServer, with the regular expression of
    controller-smart.js. *)
Definition assignTargetForServer (w : World) (server : string)
                                 (targets : Strategy) : Rand (option string) :=
  let ram := getServerMaxRam w server in
  let secs := secondaries targets in
  viaPrimary <- primaryChosen ram targets ;;
  if viaPrimary then ret (primary targets)
  else
    match secs with
    | [] => ret (if truthy (primary targets) then primary targets
                 else Some "n00dles"%string)
    | _ =>
        let len := List.length secs in
        match matchPserv server with
        | Some d => ret (nth_error secs (N.to_nat (parseInt d mod N.of_nat len)))
        | None =>
            r <- random ;;
            ret (nth_error secs (Z.to_nat (floor (r * inject_Z (Z.of_nat len)))))
        end
    end.

(** deployBatch up to its [ns.exec]: the target and the hack percent it
    passes; there is no test of the target nor of the free RAM. *)
Definition deployBatch (w : World) (server : string) (targets : Strategy)
  : Rand (option string * Q) :=
  assigned <- assignTargetForServer w server targets ;;
  ret (assigned, ControllerLoop.hackPctForRam (getServerMaxRam w server)).

End ControllerPurchased.

(** ** hacknet-manager-silent.js *)

Module Hacknet.

Import JsMath.

(** CFG *)
Definition RESERVED_CASH_PCT : Q := 0.20.
Definition BUDGET_RATIO : Q := 0.70.
Definition MAX_ACTIONS_PER_CYCLE : nat := 6.
Definition TARGET_NODE_COUNT : nat := 24.
Definition MAX_NODE_LEVEL_UP_AT_ONCE : nat := 10.
Definition MAX_NODE_RAM_UP_AT_ONCE : nat := 4.
Definition MAX_NODE_CORE_UP_AT_ONCE : nat := 4.

(** CFG.MAX_PAYBACK_SECONDS, after the [if (AGGRESSIVE)]. *)
Definition MAX_PAYBACK_SECONDS (aggressive : bool) : Q :=
  if aggressive then 365 * 24 * 3600 else 30 * 24 * 3600.

(** [Math.max(0, (homeMoney - reserved) * CFG.BUDGET_RATIO)] *)
Definition budgetOf (homeMoney : Q) : Q :=
  Qmax 0 ((homeMoney - homeMoney * RESERVED_CASH_PCT) * BUDGET_RATIO).

(** A price or a payback time: the game answers [Infinity] for an upgrade
    that is not on sale. *)
Inductive Cost : Type :=
| Finite (q : Q)
| Infinite.

(** [a > b], [a <= b], [a < b] and [a / d], [a * 2] on such numbers. *)
Definition gtQ (a : Cost) (b : Q) : bool :=
  match a with Finite q => ltb b q | Infinite => true end.

Definition leCost (a b : Cost) : bool :=
  match a, b with
  | Finite x, Finite y => leb x y
  | Finite _, Infinite => true
  | Infinite, Finite _ => false
  | Infinite, Infinite => true
  end.

Definition ltCost (a b : Cost) : bool := negb (leCost b a).

Definition divCost (a : Cost) (d : Q) : Cost :=
  match a with Finite q => Finite (q / d) | Infinite => Infinite end.

Definition twice (a : Cost) : Cost :=
  match a with Finite q => Finite (q * 2) | Infinite => Infinite end.

(** [ns.hacknet.getNodeStats(i)]; [production] is [None] when the game
    does not report it. *)
Record NodeStats : Type := mkNodeStats {
  level : Q;
  ram : Q;
  cores : Q;
  production : option Q
}.

Definition estimateProdFallback (stats : NodeStats) : Q :=
  level stats * ram stats * (1 + cores stats / 10) * 0.01.

(** [productionPerSec] of the collected node. *)
Definition productionPerSec (stats : NodeStats) : Q :=
  match production stats with
  | Some p => p
  | None => estimateProdFallback stats
  end.

Definition estimateProdUpgrade (oldStats newStats : NodeStats) : Q :=
  let cur := productionPerSec oldStats in
  let fCur := estimateProdFallback oldStats in
  let fNew := estimateProdFallback newStats in
  if ltb 0 fCur then fNew * (cur / fCur) else fNew.

Definition sumQ (l : list Q) : Q := fold_left Qplus l 0.

Definition estimateNewNodeProductionFromSample (nodes : list NodeStats) : Q :=
  match nodes with
  | [] => 0.25
  | _ =>
      let sum := sumQ (map productionPerSec nodes) in
      let cnt := inject_Z (Z.of_nat (List.length nodes)) in
      sum / Qmax 1 cnt * 0.85
  end.

Inductive OptType : Type := Purchase | LevelUp | RamUp | CoreUp.

Definition isPurchase (t : OptType) : bool :=
  match t with Purchase => true | _ => false end.

(** An entry of [options]; [node] is unused for a purchase. *)
Record Opt : Type := mkOpt {
  type : OptType;
  node : nat;
  cost : Cost;
  deltaProdPerSec : Q;
  paybackSec : Cost
}.

(** One of the three [if (cost > 0) { ... }] of a node. *)
Definition upgradeOption (t : OptType) (i : nat) (stats newStats : NodeStats)
                         (c : Cost) : list Opt :=
  if gtQ c 0 then
    let newProd := estimateProdUpgrade stats newStats in
    let delta := Qmax 0 (newProd - productionPerSec stats) in
    if ltb 0 delta then [mkOpt t i c delta (divCost c delta)] else []
  else [].

(** The upgrades of node [i], given the three prices of the game. *)
Definition nodeOptions (i : nat) (stats : NodeStats)
                       (lvlCost ramCost coreCost : Cost) : list Opt :=
  upgradeOption LevelUp i stats
    (mkNodeStats (level stats + 1) (ram stats) (cores stats) None) lvlCost
  ++ upgradeOption RamUp i stats
       (mkNodeStats (level stats) (ram stats * 2) (cores stats) None) ramCost
  ++ upgradeOption CoreUp i stats
       (mkNodeStats (level stats) (ram stats) (cores stats + 1) None) coreCost.

(** The purchase candidate. *)
Definition purchaseOption (nodes : list NodeStats) (purchaseCost : Cost)
  : list Opt :=
  let estNewProd := estimateNewNodeProductionFromSample nodes in
  if (List.length nodes <? 1000)%nat && ltb 0 estNewProd
  then [mkOpt Purchase O purchaseCost estNewProd (divCost purchaseCost estNewProd)]
  else [].

(** [.sort((a, b) => a.paybackSec - b.paybackSec)]: ascending, stable; two
    infinite paybacks compare as equal. *)
Fixpoint insertByPayback (o : Opt) (l : list Opt) : list Opt :=
  match l with
  | [] => [o]
  | d :: r => if ltCost (paybackSec d) (paybackSec o)
              then d :: insertByPayback o r
              else o :: d :: r
  end.

Definition sortByPayback (l : list Opt) : list Opt :=
  fold_right insertByPayback [] l.

(** [viable], before the nudge. *)
Definition viableOf (aggressive : bool) (options : list Opt) : list Opt :=
  sortByPayback
    (filter (fun o => if aggressive then true
                      else leCost (paybackSec o)
                                  (Finite (MAX_PAYBACK_SECONDS aggressive)))
       (filter (fun o => gtQ (cost o) 0 && ltb 0 (deltaProdPerSec o)) options)).

(** [viable.findIndex(x => x.type === "purchase")], [None] for -1. *)
Fixpoint findPurchase (l : list Opt) : option nat :=
  match l with
  | [] => None
  | o :: r => if isPurchase (type o) then Some O
              else option_map S (findPurchase r)
  end.

(** [viable.splice(pIdx, 1)] *)
Fixpoint removeAt {A : Type} (i : nat) (l : list A) : list A :=
  match l, i with
  | [], _ => []
  | _ :: r, O => r
  | x :: r, S i' => x :: removeAt i' r
  end.

(** The nudge of the purchase to the front. *)
Definition nudge (nodeCount : nat) (viable : list Opt) : list Opt :=
  if (nodeCount <? TARGET_NODE_COUNT)%nat then
    match findPurchase viable with
    | Some (S p) =>
        match viable, nth_error viable (S p) with
        | best :: _, Some pur =>
            if leCost (paybackSec pur) (twice (paybackSec best))
            then pur :: removeAt (S p) viable
            else viable
        | _, _ => viable
        end
    | _ => viable
    end
  else viable.

(** *** The spending loop *)

Section Spend.

(** The hacknet of the game: its state, the price of one more level, RAM
    doubling or core of a node, and what an upgrade or a purchase makes
    of it ([None]: the call returned [false], or -1). *)
Variable Game : Type.
Variable getLevelUpgradeCost getRamUpgradeCost getCoreUpgradeCost
  : Game -> nat -> Cost.
Variable upgradeLevel upgradeRam upgradeCore : Game -> nat -> option Game.
Variable purchaseNode : Game -> option Game.

(** The game, [budget] and [actions]. *)
Record Spending : Type := mkSpending {
  game : Game;
  budget : Q;
  actions : nat
}.

(** [for (let k = 0; k < most; k++) { ... }] of one upgrade kind. *)
Fixpoint upgradeLoop (getCost : Game -> nat -> Cost)
                     (upgrade : Game -> nat -> option Game)
                     (most : nat) (i : nat) (st : Spending) : Spending :=
  match most with
  | O => st
  | S most' =>
      match getCost (game st) i with
      | Infinite => st
      | Finite c =>
          if leb c 0 || ltb (budget st) c then st
          else
            match upgrade (game st) i with
            | None => st
            | Some g' =>
                let st' := mkSpending g' (budget st - c) (S (actions st)) in
                if (MAX_ACTIONS_PER_CYCLE <=? actions st')%nat then st'
                else upgradeLoop getCost upgrade most' i st'
            end
      end
  end.

(** What the loop keeps from [st] to [st']: the budget is not overdrawn
    and does not rise, the actions are counted up to the limit, and
    nothing changes without an action. *)
Definition within (st st' : Spending) : Prop :=
  0 <= budget st' /\ budget st' <= budget st
  /\ (actions st <= actions st')%nat
  /\ (actions st' <= MAX_ACTIONS_PER_CYCLE)%nat
  /\ (actions st' = actions st -> st' = st).

(** The body of [for (const opt of viable)].  The [break] on the number
    of actions is the first test: once it holds it holds for every later
    option, so passing them over is the same as leaving the loop. *)
Definition spend (aggressive : bool) (st : Spending) (opt : Opt) : Spending :=
  if (MAX_ACTIONS_PER_CYCLE <=? actions st)%nat then st
  else if gtQ (cost opt) (budget st) then st
  else if negb aggressive
          && negb (leCost (paybackSec opt) (Finite (MAX_PAYBACK_SECONDS aggressive)))
       then st
  else
    match type opt with
    | Purchase =>
        match purchaseNode (game st), cost opt with
        | Some g', Finite c => mkSpending g' (budget st - c) (S (actions st))
        | _, _ => st
        end
    | LevelUp =>
        upgradeLoop getLevelUpgradeCost upgradeLevel
                    MAX_NODE_LEVEL_UP_AT_ONCE (node opt) st
    | RamUp =>
        upgradeLoop getRamUpgradeCost upgradeRam
                    MAX_NODE_RAM_UP_AT_ONCE (node opt) st
    | CoreUp =>
        upgradeLoop getCoreUpgradeCost upgradeCore
                    MAX_NODE_CORE_UP_AT_ONCE (node opt) st
    end.

Definition execute (aggressive : bool) (viable : list Opt) (st : Spending)
  : Spending :=
  fold_left (spend aggressive) viable st.

(** One pass of [while (true)] from the options on: [None] when the
    budget is below a million and the pass sleeps at once. *)
Definition cycle (aggressive : bool) (homeMoney : Q) (nodeCount : nat)
                 (options : list Opt) (g : Game) : option Spending :=
  let budget := budgetOf homeMoney in
  if ltb budget 1000000 then None
  else Some (execute aggressive
               (nudge nodeCount (viableOf aggressive options))
               (mkSpending g budget O)).

End Spend.

End Hacknet.

(** ** contract-runner.js *)

Module ContractRunner.

(** An entry of /tmp/contracts.json. *)
Record Entry : Type := mkEntry {
  server : string;
  file : string;
  time : Z;
  type : string
}.

(** What [ns.read(OUTPUT)] finds: nothing (no file, or an empty one),
    text that [JSON.parse] refuses, JSON that is no array, or an array of
    entries. *)
Inductive Stored : Type :=
| Absent
| Unparseable
| NotAnArray
| Listed (l : list Entry).

(** The entries the script takes the file to hold. *)
Definition entries (stored : Stored) : list Entry :=
  match stored with Listed l => l | _ => [] end.

(** What the dedupe compares. *)
Definition key (e : Entry) : string * string := (server e, file e).

Definition sameContract (data x : Entry) : bool :=
  String.eqb (server x) (server data) && String.eqb (file x) (file data).

(** The [else] branch for one contract, from [let existing = []] on:
    the file afterwards.  On JSON that is no array [existing.some] throws
    and the [catch] of the item leaves the file as it is. *)
Definition logContract (stored : Stored) (data : Entry) : Stored :=
  match stored with
  | NotAnArray => NotAnArray
  | _ =>
      let existing := entries stored in
      if existsb (sameContract data) existing then stored
      else Listed (existing ++ [data])
  end.

(** [f.endsWith(".cct")] *)
Fixpoint endsWith (str suffix : string) : bool :=
  String.eqb str suffix
  || match str with
     | EmptyString => false
     | String _ r => endsWith r suffix
     end.

(** What a pass of [while (true)] does: the arguments of the
    [ns.exec("contract-solver.js", "home", 1, host, c)] it makes, and the
    file it leaves. *)
Record Outcome : Type := mkOutcome {
  launched : list (string * string);
  stored : Stored
}.

(** One pass over the files of [host]; [now i] is the [Date.now()] of the
    [i]-th contract and [typeOf c] is what [data.type] ends as. *)
Definition pass (host : string) (files : list string) (solverExists : bool)
                (now : nat -> Z) (typeOf : string -> string)
                (before : Stored) : Outcome :=
  let allContracts := filter (fun f => endsWith f ".cct") files in
  if solverExists
  then mkOutcome (map (fun c => (host, c)) allContracts) before
  else mkOutcome []
         (snd (fold_left
                 (fun acc c =>
                    let '(i, st) := acc in
                    (S i, logContract st (mkEntry host c (now i) (typeOf c))))
                 allContracts (O, before))).

End ContractRunner.

(** ** More concrete inputs *)

Module MoreSamples.

(** A network with a dominant target, a small one and one that cannot
    be hacked at all. *)
Definition market : Controller.World :=
  Controller.mkWorld
    [ Controller.mkServer "home"
        ["phantasy"; "n00dles"; "zer0"]%string
        0 1 0 64 true 5 false false false false false;
      Samples.target "phantasy" 24000000 1 0.7 false 0;
      Samples.target "n00dles" 1750000 1 0.9 false 0;
      Samples.target "zer0" 1000000000 1 0 true 0 ]
    20
    (Controller.mkPrograms false false false false false).

(** Every draw of [Math.random()] is one half. *)
Definition half (k : nat) : Q := 0.5.

End MoreSamples.

(** * Properties *)

(** ** Comparisons and rounding *)

Module JsMathFacts.

Import JsMath.

Lemma ltb_true (a b : Q) : ltb a b = true <-> a < b.
Proof.
  unfold ltb. rewrite negb_true_iff, <- not_true_iff_false, Qle_bool_iff.
  split; [apply Qnot_le_lt | apply Qlt_not_le].
Qed.

Lemma ltb_false (a b : Q) : ltb a b = false <-> b <= a.
Proof.
  unfold ltb. rewrite negb_false_iff. apply Qle_bool_iff.
Qed.

Lemma leb_true (a b : Q) : leb a b = true <-> a <= b.
Proof. apply Qle_bool_iff. Qed.

Lemma leb_false (a b : Q) : leb a b = false <-> b < a.
Proof.
  unfold leb. rewrite <- not_true_iff_false, Qle_bool_iff.
  split; [apply Qnot_le_lt | apply Qlt_not_le].
Qed.

(** [floor x <= x < floor x + 1] *)
Lemma floor_bounds (x : Q) : inject_Z (floor x) <= x /\ x < inject_Z (floor x) + 1.
Proof.
  split; [apply Qfloor_le |].
  pose proof (Qlt_floor x) as H. rewrite inject_Z_plus in H. exact H.
Qed.

(** [Math.round] is within half a unit of its argument. *)
Lemma round_bounds (x : Q) :
  x - 0.5 < inject_Z (round x) /\ inject_Z (round x) <= x + 0.5.
Proof.
  unfold round. destruct (floor_bounds (x + 0.5)) as [Hlo Hhi].
  unfold floor in *. split; lra.
Qed.

(** [Math.round] leaves a whole number as it is. *)
Lemma round_whole (z : Z) (x : Q) : x == inject_Z z -> round x = z.
Proof.
  intros Hx. unfold round.
  assert (Hlo : inject_Z z <= x + 0.5) by lra.
  assert (Hhi : x + 0.5 < inject_Z (z + 1)) by (rewrite inject_Z_plus; change (inject_Z 1) with 1; lra).
  apply Qfloor_resp_le in Hlo. rewrite Qfloor_Z in Hlo.
  assert (Hlt : (Qfloor (x + 0.5) < z + 1)%Z).
  { rewrite Zlt_Qlt. eapply Qle_lt_trans; [apply Qfloor_le | exact Hhi]. }
  lia.
Qed.

(** [floor] of a number at least 1 is at least 1, and of one below 2 is
    below 2. *)
Lemma floor_ge_1 (x : Q) : 1 <= x -> (1 <= floor x)%Z.
Proof.
  intros H. change 1%Z with (Qfloor (inject_Z 1)).
  apply Qfloor_resp_le. exact H.
Qed.

Lemma floor_lt (x : Q) (z : Z) : x < inject_Z z -> (floor x < z)%Z.
Proof.
  intros H. rewrite Zlt_Qlt. eapply Qle_lt_trans; [apply Qfloor_le | exact H].
Qed.

End JsMathFacts.

(** ** The planner and the packer *)

Module BatcherFacts.

Import JsMath JsMathFacts Batcher.

Section Planner.

Variable logRatio : Q -> Q.

Implicit Types (base maxTotal : Q) (e : Env) (p q : Plan).

(** *** Facts about [fit] and the cost of a batch *)

Lemma fit_ge_1 free ram : (1 <= fit free ram)%Z.
Proof. unfold fit. lia. Qed.

(** [fit] when one batch fits, and when none does. *)
Lemma fit_fits free ram :
  0 < ram -> ram <= free -> inject_Z (fit free ram) * ram <= free.
Proof.
  intros Hr Hle. unfold fit.
  assert (H1 : 1 <= free / ram).
  { apply Qle_shift_div_l; lra. }
  apply floor_ge_1 in H1. rewrite Z.max_r by exact H1.
  destruct (floor_bounds (free / ram)) as [Hlo _].
  apply Qle_trans with ((free / ram) * ram).
  - apply Qmult_le_compat_r; lra.
  - assert (E : free / ram * ram == free) by (field; lra). lra.
Qed.

Lemma fit_too_big free ram :
  0 < ram -> free < ram -> fit free ram = 1%Z.
Proof.
  intros Hr Hlt. unfold fit.
  assert (H1 : free / ram < inject_Z 1).
  { apply Qlt_shift_div_r; [exact Hr | change (inject_Z 1) with 1; lra]. }
  apply floor_lt in H1. lia.
Qed.

Lemma ramOf_pos e h g w1 w2 :
  scriptsCostRam e ->
  (1 <= h)%Z -> (1 <= g)%Z -> (1 <= w1)%Z -> (1 <= w2)%Z ->
  0 < ramOf e h g w1 w2.
Proof.
  intros (Hh & Hg & Hw) H1 H2 H3 H4. unfold ramOf.
  rewrite Zle_Qle in H1, H2, H3, H4.
  change (inject_Z 1) with 1 in *.
  assert (ramHack e <= inject_Z h * ramHack e) by nra.
  assert (ramGrow e <= inject_Z g * ramGrow e) by nra.
  assert (2 * ramWeaken e <= (inject_Z w1 + inject_Z w2) * ramWeaken e) by nra.
  lra.
Qed.

Lemma freeRamOf_nonneg e : 0 <= freeRamOf e.
Proof. unfold freeRamOf. apply Q.le_max_l. Qed.

Lemma hackThreadsFor_pos y ph : (1 <= hackThreadsFor y ph)%Z.
Proof. unfold hackThreadsFor. lia. Qed.

Lemma growThreadsFor_pos e h ph : (1 <= growThreadsFor logRatio e h ph)%Z.
Proof. unfold growThreadsFor. destruct (growthAnalyze e _); lia. Qed.

Lemma weakenThreadsFor_pos n inc : (1 <= weakenThreadsFor n inc)%Z.
Proof. unfold weakenThreadsFor. lia. Qed.

Lemma scaleRound_pos sc v : (1 <= scaleRound sc v)%Z.
Proof. unfold scaleRound. lia. Qed.

(** *** What each step of the pass establishes or keeps *)

(** Every thread count is at least 1. *)
Lemma unscaled_wellSized base e : wellSized (unscaled logRatio base e).
Proof.
  unfold wellSized, unscaled. cbn [hackThreads growThreads weaken1Threads weaken2Threads].
  auto using hackThreadsFor_pos, growThreadsFor_pos, weakenThreadsFor_pos.
Qed.

Lemma capTotal_wellSized maxTotal e p :
  wellSized p -> wellSized (capTotal logRatio maxTotal e p).
Proof.
  intros Hp. unfold capTotal. destruct (ltb _ _); [| exact Hp].
  unfold wellSized. cbn [hackThreads growThreads weaken1Threads weaken2Threads].
  auto using hackThreadsFor_pos, growThreadsFor_pos, weakenThreadsFor_pos.
Qed.

Lemma scaleDown_wellSized e p : wellSized p -> wellSized (scaleDown e p).
Proof.
  intros Hp. unfold scaleDown. destruct (_ || _); [| exact Hp].
  unfold wellSized. cbn [hackThreads growThreads weaken1Threads weaken2Threads].
  auto using scaleRound_pos.
Qed.

Lemma finalSafety_wellSized p : wellSized p -> wellSized (finalSafety p).
Proof. intros Hp. exact Hp. Qed.

Lemma plan_wellSized base maxTotal e : wellSized (plan logRatio base maxTotal e).
Proof.
  unfold plan, packed.
  apply finalSafety_wellSized, scaleDown_wellSized, capTotal_wellSized,
    unscaled_wellSized.
Qed.

(** The concurrency is the fit of the plan's own cost. *)
Lemma unscaled_fitted base e : fitted (unscaled logRatio base e).
Proof. reflexivity. Qed.

Lemma capTotal_fitted maxTotal e p :
  fitted p -> fitted (capTotal logRatio maxTotal e p).
Proof.
  intros Hp. unfold capTotal. destruct (ltb _ _); [reflexivity | exact Hp].
Qed.

Lemma scaleDown_fitted e p : fitted p -> fitted (scaleDown e p).
Proof.
  intros Hp. unfold scaleDown. destruct (_ || _); [reflexivity | exact Hp].
Qed.

Lemma packed_fitted base maxTotal e : fitted (packed logRatio base maxTotal e).
Proof.
  unfold packed. apply scaleDown_fitted, capTotal_fitted, unscaled_fitted.
Qed.

(** The free RAM is read once. *)
Lemma unscaled_freeRam base e : freeRam (unscaled logRatio base e) = freeRamOf e.
Proof. reflexivity. Qed.

Lemma capTotal_freeRam maxTotal e p :
  freeRam (capTotal logRatio maxTotal e p) = freeRam p.
Proof. unfold capTotal. destruct (ltb _ _); reflexivity. Qed.

Lemma scaleDown_freeRam e p : freeRam (scaleDown e p) = freeRam p.
Proof. unfold scaleDown. destruct (_ || _); reflexivity. Qed.

Lemma packed_freeRam base maxTotal e :
  freeRam (packed logRatio base maxTotal e) = freeRamOf e.
Proof.
  unfold packed. rewrite scaleDown_freeRam, capTotal_freeRam.
  apply unscaled_freeRam.
Qed.

(** With scripts that cost RAM the batch costs RAM, and its cost is that
    of its thread counts. *)
Section Costly.

Variable e : Env.
Hypothesis costs : scriptsCostRam e.

Lemma unscaled_priced base : priced e (unscaled logRatio base e).
Proof.
  unfold priced, unscaled.
  cbn [ramPerBatch hackThreads growThreads weaken1Threads weaken2Threads].
  destruct (leb _ 0) eqn:E; [| reflexivity].
  exfalso. apply leb_true in E.
  pose proof (ramOf_pos e _ _ _ _ costs
                (hackThreadsFor_pos base (refinedPerHack e))
                (growThreadsFor_pos e (hackThreadsFor base (hackAnalyze e))
                                    (hackAnalyze e))
                (weakenThreadsFor_pos (hackThreadsFor base (hackAnalyze e))
                                      SEC_INC_HACK)
                (weakenThreadsFor_pos
                   (growThreadsFor logRatio e (hackThreadsFor base (hackAnalyze e))
                                   (hackAnalyze e)) SEC_INC_GROW)) as P.
  lra.
Qed.

Lemma capTotal_priced maxTotal p :
  priced e p -> priced e (capTotal logRatio maxTotal e p).
Proof.
  intros Hp. unfold capTotal. destruct (ltb _ _); [reflexivity | exact Hp].
Qed.

Lemma scaleDown_priced p : priced e p -> priced e (scaleDown e p).
Proof.
  intros Hp. unfold scaleDown. destruct (_ || _); [reflexivity | exact Hp].
Qed.

Lemma priced_ram_pos p : wellSized p -> priced e p -> 0 < ramPerBatch p.
Proof.
  intros (H1 & H2 & H3 & H4) Hp. rewrite Hp. apply ramOf_pos; assumption.
Qed.

Lemma packed_priced base maxTotal : priced e (packed logRatio base maxTotal e).
Proof.
  unfold packed. apply scaleDown_priced, capTotal_priced, unscaled_priced.
Qed.

Lemma packed_ram_pos base maxTotal :
  0 < ramPerBatch (packed logRatio base maxTotal e).
Proof.
  apply priced_ram_pos; [| apply packed_priced].
  unfold packed. apply scaleDown_wellSized, capTotal_wellSized, unscaled_wellSized.
Qed.

(** A count scaled by [scale >= s] keeps more than half of its share [v * s]. *)
Lemma scaleRound_half (v : Z) (s scale : Q) :
  (1 <= v)%Z -> 0 <= s -> s <= scale -> s < 1 ->
  inject_Z v * s < 2 * inject_Z (scaleRound scale v).
Proof.
  intros Hv Hs Hle Hlt. unfold scaleRound.
  rewrite Zle_Qle in Hv. change (inject_Z 1) with 1 in Hv.
  assert (Hx : inject_Z v * s <= inject_Z v * scale)
    by (apply Qmult_le_l; lra).
  destruct (floor_bounds (inject_Z v * scale)) as [_ Hhi].
  destruct (Z.max_spec 1 (floor (inject_Z v * scale))) as [[Hc ->] | [Hc ->]].
  - rewrite Zlt_Qlt in Hc. change (inject_Z 1) with 1 in Hc. lra.
  - assert (Hf : inject_Z (floor (inject_Z v * scale)) <= 1)
      by (rewrite Zle_Qle in Hc; exact Hc).
    change (inject_Z 1) with 1. lra.
Qed.

Lemma fit_below_two free ram : 0 < ram -> free < 2 * ram -> fit free ram = 1%Z.
Proof.
  intros Hr Hlt. unfold fit.
  assert (H1 : free / ram < inject_Z 2).
  { apply Qlt_shift_div_r; [exact Hr | change (inject_Z 2) with 2; lra]. }
  apply floor_lt in H1. lia.
Qed.

(** Lines 141-153 end with a single batch: the scaled counts keep more
    than half of the RAM the scale aimed at. *)
Lemma scaleDown_one_batch p :
  wellSized p -> priced e p -> 0 <= freeRam p ->
  freeRam p < ramPerBatch p ->
  concurrency (scaleDown e p) = 1%Z.
Proof.
  intros Hw Hp Hfree Hlt.
  pose proof (priced_ram_pos p Hw Hp) as Hram.
  unfold scaleDown.
  assert (Hc : ltb (freeRam p) (ramPerBatch p) = true) by (apply ltb_true; exact Hlt).
  rewrite Hc, orb_true_r. cbn [concurrency].
  set (s := freeRam p / ramPerBatch p).
  set (scale := Qmax 0.01 s).
  assert (Hs0 : 0 <= s) by (apply Qle_shift_div_l; lra).
  assert (Hs1 : s < 1) by (apply Qlt_shift_div_r; lra).
  assert (Hss : s <= scale) by apply Q.le_max_r.
  assert (Es : freeRam p == s * ramPerBatch p) by (unfold s; field; lra).
  destruct Hw as (H1 & H2 & H3 & H4).
  pose proof (scaleRound_half _ s scale H1 Hs0 Hss Hs1) as A1.
  pose proof (scaleRound_half _ s scale H2 Hs0 Hss Hs1) as A2.
  pose proof (scaleRound_half _ s scale H3 Hs0 Hss Hs1) as A3.
  pose proof (scaleRound_half _ s scale H4 Hs0 Hss Hs1) as A4.
  destruct costs as (Rh & Rg & Rw).
  apply fit_below_two.
  - apply ramOf_pos; auto using scaleRound_pos.
  - rewrite Es, Hp. unfold ramOf.
    set (h' := inject_Z (scaleRound scale (hackThreads p))) in *.
    set (g' := inject_Z (scaleRound scale (growThreads p))) in *.
    set (w1' := inject_Z (scaleRound scale (weaken1Threads p))) in *.
    set (w2' := inject_Z (scaleRound scale (weaken2Threads p))) in *.
    assert (B1 : inject_Z (hackThreads p) * s * ramHack e < 2 * h' * ramHack e)
      by (apply Qmult_lt_compat_r; assumption).
    assert (B2 : inject_Z (growThreads p) * s * ramGrow e < 2 * g' * ramGrow e)
      by (apply Qmult_lt_compat_r; assumption).
    assert (B3 : inject_Z (weaken1Threads p) * s * ramWeaken e < 2 * w1' * ramWeaken e)
      by (apply Qmult_lt_compat_r; assumption).
    assert (B4 : inject_Z (weaken2Threads p) * s * ramWeaken e < 2 * w2' * ramWeaken e)
      by (apply Qmult_lt_compat_r; assumption).
    lra.
Qed.

End Costly.

(** The final clamp touches the concurrency only: it never raises it and
    keeps it at least 1. *)
Lemma finalSafety_freeRam p : freeRam (finalSafety p) = freeRam p.
Proof. reflexivity. Qed.

Lemma finalSafety_ramPerBatch p : ramPerBatch (finalSafety p) = ramPerBatch p.
Proof. reflexivity. Qed.

Lemma finalSafety_basePct p : basePct (finalSafety p) = basePct p.
Proof. reflexivity. Qed.

Lemma finalSafety_hackThreads p : hackThreads (finalSafety p) = hackThreads p.
Proof. reflexivity. Qed.

Lemma finalSafety_concurrency p :
  (1 <= concurrency p)%Z ->
  (1 <= concurrency (finalSafety p) <= concurrency p)%Z.
Proof. intros H. unfold finalSafety. cbn [concurrency]. lia. Qed.

Lemma plan_concurrency_pos base maxTotal e :
  (1 <= concurrency (plan logRatio base maxTotal e))%Z.
Proof. unfold plan, finalSafety. cbn [concurrency]. lia. Qed.

(** *** Thread counts *)

Lemma execIf_pos sc n d : (1 <= n)%Z -> execIf sc n d = [mkExec sc n d].
Proof.
  intros H. unfold execIf.
  destruct (0 <? n)%Z eqn:E; [reflexivity | apply Z.ltb_ge in E; lia].
Qed.

(** With positive thread counts a batch makes its four calls. *)
Lemma scheduleBatch_four e p now clk b :
  wellSized p ->
  scheduleBatch e p now clk b =
    [ mkExec HackJs (hackThreads p)
        (hackStartDelay e (batchT e now (concurrency p) b) clk);
      mkExec WeakenJs (weaken1Threads p)
        (weaken1StartDelay e (batchT e now (concurrency p) b) clk);
      mkExec GrowJs (growThreads p)
        (growStartDelay e (batchT e now (concurrency p) b) clk);
      mkExec WeakenJs (weaken2Threads p)
        (weaken2StartDelay e (batchT e now (concurrency p) b) clk) ].
Proof.
  intros (Hh & Hg & Hw1 & Hw2). unfold scheduleBatch.
  rewrite !execIf_pos by assumption. reflexivity.
Qed.

Lemma flat_map_length_const {A B : Type} (f : A -> list B) (k : nat) (l : list A) :
  (forall a, In a l -> List.length (f a) = k) ->
  List.length (flat_map f l) = (List.length l * k)%nat.
Proof.
  induction l as [|a l IH]; intros H; [reflexivity |].
  cbn [flat_map]. rewrite length_app, (H a (or_introl eq_refl)), IH.
  - cbn [List.length]. lia.
  - intros x Hx. apply H. right. exact Hx.
Qed.

Lemma schedule_length e p now clock :
  wellSized p ->
  List.length (schedule e p now clock) = (4 * Z.to_nat (concurrency p))%nat.
Proof.
  intros Hp. unfold schedule. rewrite (flat_map_length_const _ 4).
  - rewrite length_seq. lia.
  - intros b _. rewrite scheduleBatch_four by exact Hp. reflexivity.
Qed.

(** C6: the four thread counts of every plan, rescaled or not, are
    integers at least 1; with worker scripts that cost RAM the concurrency
    is at least 1 and the pass makes all four calls of each of its
    batches: a stage is never dropped and the pass never declines to
    schedule. *)
Theorem every_stage_has_a_thread base maxTotal e :
  ((1 <= hackThreads (plan logRatio base maxTotal e))%Z
   /\ (1 <= weaken1Threads (plan logRatio base maxTotal e))%Z
   /\ (1 <= growThreads (plan logRatio base maxTotal e))%Z
   /\ (1 <= weaken2Threads (plan logRatio base maxTotal e))%Z)
  /\ (scriptsCostRam e ->
      (1 <= concurrency (plan logRatio base maxTotal e))%Z
      /\ forall now clock,
           List.length (schedule e (plan logRatio base maxTotal e) now clock)
           = (4 * Z.to_nat (concurrency (plan logRatio base maxTotal e)))%nat
           /\ (4 <= List.length
                      (schedule e (plan logRatio base maxTotal e) now clock))%nat).
Proof.
  pose proof (plan_wellSized base maxTotal e) as Hp.
  pose proof (plan_concurrency_pos base maxTotal e) as Hc.
  generalize dependent (plan logRatio base maxTotal e). intros p Hp Hc.
  split.
  - destruct Hp as (Hh & Hg & Hw1 & Hw2). repeat split; assumption.
  - intros _. split; [exact Hc |]. intros now clock.
    rewrite (schedule_length e p now clock) by exact Hp.
    split; [reflexivity | lia].
Qed.

(** *** Free RAM *)

(** The clamp of a fitted plan. *)
Lemma finalSafety_fits q :
  fitted q -> 0 < ramPerBatch q ->
  (ramPerBatch q <= freeRam q ->
   inject_Z (concurrency (finalSafety q)) * ramPerBatch q <= freeRam q)
  /\ (freeRam q < ramPerBatch q -> concurrency (finalSafety q) = 1%Z).
Proof.
  intros Hfit Hpos.
  pose proof (finalSafety_concurrency q) as Hfin.
  rewrite Hfit in Hfin. specialize (Hfin (fit_ge_1 _ _)).
  split.
  - intros Hle.
    apply Qle_trans with (inject_Z (fit (freeRam q) (ramPerBatch q)) * ramPerBatch q).
    + apply Qmult_le_compat_r; [| lra]. rewrite <- Zle_Qle. lia.
    + apply fit_fits; assumption.
  - intros Hlt. rewrite (fit_too_big _ _ Hpos Hlt) in Hfin. lia.
Qed.

(** C1, as the code has it: when the final batch fits the free RAM, the
    batches together fit it; when it does not (also after the threads were
    scaled down, each count staying at least 1), exactly one batch is
    scheduled.  The scripts are taken to cost RAM. *)
Theorem packing_respects_free_ram base maxTotal e :
  scriptsCostRam e ->
  freeRam (plan logRatio base maxTotal e) = freeRamOf e
  /\ (ramPerBatch (plan logRatio base maxTotal e)
      <= freeRam (plan logRatio base maxTotal e) ->
      inject_Z (concurrency (plan logRatio base maxTotal e))
      * ramPerBatch (plan logRatio base maxTotal e)
      <= freeRam (plan logRatio base maxTotal e))
  /\ (freeRam (plan logRatio base maxTotal e)
      < ramPerBatch (plan logRatio base maxTotal e) ->
      concurrency (plan logRatio base maxTotal e) = 1%Z).
Proof.
  intros Hcosts.
  pose proof (packed_ram_pos e Hcosts base maxTotal) as Hpos.
  pose proof (packed_fitted base maxTotal e) as Hfit.
  pose proof (packed_freeRam base maxTotal e) as Hfree.
  unfold plan. rewrite finalSafety_freeRam, finalSafety_ramPerBatch.
  generalize dependent (packed logRatio base maxTotal e). intros q Hpos Hfit Hfree.
  split; [exact Hfree |]. apply finalSafety_fits; assumption.
Qed.

(** *** The cap on the total hack percent *)

Lemma scaleDown_basePct e p : basePct (scaleDown e p) = basePct p.
Proof. unfold scaleDown. destruct (_ || _); reflexivity. Qed.

Lemma plan_basePct base maxTotal e :
  basePct (plan logRatio base maxTotal e)
  = basePct (capTotal logRatio maxTotal e (unscaled logRatio base e)).
Proof.
  unfold plan, packed. rewrite finalSafety_basePct. apply scaleDown_basePct.
Qed.

Lemma unscaled_basePct base e : basePct (unscaled logRatio base e) = base.
Proof. reflexivity. Qed.

Lemma unscaled_concurrency_pos base e :
  (1 <= concurrency (unscaled logRatio base e))%Z.
Proof. rewrite (unscaled_fitted base e). apply fit_ge_1. Qed.

(** Line 120 keeps the cap for the concurrency it divides by, unless the
    floor of 0.001 is what it returns. *)
Lemma perBatchAllowed_bound (maxTotal : Q) (c : Z) :
  (1 <= c)%Z ->
  inject_Z c * Qmax 0.001 (maxTotal / inject_Z c)
  <= Qmax maxTotal (0.001 * inject_Z c).
Proof.
  intros Hc. rewrite Zle_Qle in Hc. change (inject_Z 1) with 1 in Hc.
  assert (E : inject_Z c * (maxTotal / inject_Z c) == maxTotal) by (field; lra).
  apply Q.max_case_strong with (n := 0.001) (m := maxTotal / inject_Z c).
  - intros x y Hxy H. rewrite <- Hxy. exact H.
  - intros _. eapply Qle_trans; [| apply Q.le_max_r]. lra.
  - intros _. eapply Qle_trans; [| apply Q.le_max_l]. lra.
Qed.

(** The percent [capTotal] leaves, against the concurrency it read. *)
Lemma capTotal_bound maxTotal e p :
  (1 <= concurrency p)%Z ->
  inject_Z (concurrency p) * basePct (capTotal logRatio maxTotal e p)
  <= Qmax maxTotal (0.001 * inject_Z (concurrency p)).
Proof.
  intros Hc. unfold capTotal.
  destruct (ltb maxTotal (inject_Z (concurrency p) * basePct p)) eqn:E.
  - cbn [basePct]. apply perBatchAllowed_bound. exact Hc.
  - apply ltb_false in E. eapply Qle_trans; [exact E | apply Q.le_max_l].
Qed.

Lemma capTotal_basePct_nonneg maxTotal e p :
  0 <= basePct p -> 0 <= basePct (capTotal logRatio maxTotal e p).
Proof.
  intros Hb. unfold capTotal. destruct (ltb _ _); cbn [basePct].
  - eapply Qle_trans; [| apply Q.le_max_l]. lra.
  - exact Hb.
Qed.

(** The percent a pass ends with is at most the cap plus 0.001 when the
    pass starts within it. *)
Lemma capTotal_basePct_le maxTotal e p :
  (1 <= concurrency p)%Z -> 0 <= basePct p -> 0 <= maxTotal ->
  basePct (capTotal logRatio maxTotal e p) <= maxTotal + 0.001.
Proof.
  intros Hc Hb Hm. unfold capTotal.
  rewrite Zle_Qle in Hc. change (inject_Z 1) with 1 in Hc.
  destruct (ltb maxTotal (inject_Z (concurrency p) * basePct p)) eqn:E.
  - cbn [basePct]. apply Q.max_lub; [lra |].
    apply Qle_shift_div_r; [lra |]. nra.
  - apply ltb_false in E. nra.
Qed.

(** Where the cap does hold, for a percent and a cap that are not
    negative: the percent is lowered once, to max(0.001, cap / c0) for
    the concurrency [c0] of the unscaled plan, so the total stays within
    the cap plus 0.001 when the concurrency the pass ends with is not
    above [c0] and [c0] is at most 1000 * cap + 1.  When the scale-down
    of lines 141-153 runs, the pass ends with one batch and the total
    is within the cap plus 0.001. *)
Theorem total_hack_pct_capped base maxTotal e :
  scriptsCostRam e -> 0 <= base -> 0 <= maxTotal ->
  ((concurrency (plan logRatio base maxTotal e)
    <= concurrency (unscaled logRatio base e))%Z ->
   0.001 * inject_Z (concurrency (unscaled logRatio base e)) <= maxTotal + 0.001 ->
   inject_Z (concurrency (plan logRatio base maxTotal e))
   * basePct (plan logRatio base maxTotal e) <= maxTotal + 0.001)
  /\ (freeRam (capTotal logRatio maxTotal e (unscaled logRatio base e))
      < ramPerBatch (capTotal logRatio maxTotal e (unscaled logRatio base e)) ->
      concurrency (plan logRatio base maxTotal e) = 1%Z
      /\ inject_Z (concurrency (plan logRatio base maxTotal e))
         * basePct (plan logRatio base maxTotal e) <= maxTotal + 0.001).
Proof.
  intros Hcosts Hb Hm. split.
  - intros Hle Hfloor. rewrite plan_basePct.
    pose proof (capTotal_bound maxTotal e _ (unscaled_concurrency_pos base e)) as Hcap.
    pose proof (capTotal_basePct_nonneg maxTotal e (unscaled logRatio base e)) as Hy.
    rewrite unscaled_basePct in Hy. specialize (Hy Hb).
    generalize dependent (basePct (capTotal logRatio maxTotal e (unscaled logRatio base e))).
    generalize dependent (concurrency (plan logRatio base maxTotal e)).
    generalize dependent (concurrency (unscaled logRatio base e)).
    intros c0 Hfloor c Hle y Hcap Hy.
    rewrite Zle_Qle in Hle.
    apply Qle_trans with (inject_Z c0 * y).
    + apply Qmult_le_compat_r; assumption.
    + eapply Qle_trans; [exact Hcap |]. apply Q.max_lub; lra.
  - intros Hlt.
    pose proof (capTotal_basePct_le maxTotal e (unscaled logRatio base e)
                  (unscaled_concurrency_pos base e)) as Hy.
    rewrite unscaled_basePct in Hy. specialize (Hy Hb Hm).
    assert (Hone : concurrency (packed logRatio base maxTotal e) = 1%Z).
    { unfold packed. apply scaleDown_one_batch.
      - exact Hcosts.
      - apply capTotal_wellSized, unscaled_wellSized.
      - apply capTotal_priced, unscaled_priced. exact Hcosts.
      - rewrite capTotal_freeRam, unscaled_freeRam. apply freeRamOf_nonneg.
      - exact Hlt. }
    assert (Hfin : concurrency (plan logRatio base maxTotal e) = 1%Z).
    { pose proof (finalSafety_concurrency (packed logRatio base maxTotal e)) as F.
      rewrite Hone in F. unfold plan. lia. }
    split; [exact Hfin |].
    rewrite Hfin, plan_basePct. change (inject_Z 1) with 1. lra.
Qed.

(** *** The worked example of the cap *)

Lemma hackThreadsFor_Qeq (y y' ph ph' : Q) :
  y == y' -> ph == ph' -> hackThreadsFor y ph = hackThreadsFor y' ph'.
Proof.
  intros Hy Hp. unfold hackThreadsFor, ceil. rewrite Hy, Hp. reflexivity.
Qed.

Lemma weakenThreadsFor_mono (a b : Z) (inc : Q) :
  0 <= inc -> (a <= b)%Z -> (weakenThreadsFor a inc <= weakenThreadsFor b inc)%Z.
Proof.
  intros Hinc Hab. unfold weakenThreadsFor, ceil.
  apply Z.max_le_compat_l. apply Qceiling_resp_le.
  rewrite Zle_Qle in Hab.
  assert (inject_Z a * inc <= inject_Z b * inc)
    by (apply Qmult_le_compat_r; assumption).
  unfold Qdiv. apply Qmult_le_compat_r; [assumption |].
  vm_compute. discriminate.
Qed.

(** What [capTotal] returns when the total is above the cap. *)
Lemma capTotal_shrinks maxTotal e p :
  maxTotal < inject_Z (concurrency p) * basePct p ->
  let y := Qmax 0.001 (maxTotal / inject_Z (concurrency p)) in
  let hackT := hackThreadsFor y (refinedPerHack e) in
  let growT := growThreadsFor logRatio e hackT (refinedPerHack e) in
  let w1 := weakenThreadsFor hackT SEC_INC_HACK in
  let w2 := weakenThreadsFor growT SEC_INC_GROW in
  capTotal logRatio maxTotal e p
  = mkPlan y hackT growT w1 w2 (ramOf e hackT growT w1 w2) (freeRam p)
           (fit (freeRam p) (ramOf e hackT growT w1 w2)).
Proof.
  intros Hgt. cbv zeta. unfold capTotal. apply ltb_true in Hgt. rewrite Hgt.
  reflexivity.
Qed.

(** A single hack thread stays single when the threads are scaled down. *)
Lemma scaleDown_single_hack e p :
  (1 <= concurrency p)%Z -> 0 <= freeRam p -> hackThreads p = 1%Z ->
  hackThreads (scaleDown e p) = 1%Z.
Proof.
  intros Hc Hfree Hh. unfold scaleDown.
  destruct (_ || _) eqn:Eb; [| exact Hh].
  cbn [hackThreads]. apply orb_true_iff in Eb. destruct Eb as [Eb | Eb].
  - apply Z.leb_le in Eb. lia.
  - apply ltb_true in Eb. rewrite Hh. unfold scaleRound.
    assert (Hram : 0 < ramPerBatch p) by lra.
    assert (Hs : Qmax 0.01 (freeRam p / ramPerBatch p) < 1).
    { apply Q.max_lub_lt; [reflexivity |].
      apply Qlt_shift_div_r; [exact Hram | lra]. }
    assert (Hf : (floor (inject_Z 1 * Qmax 0.01 (freeRam p / ramPerBatch p)) < 1)%Z).
    { apply floor_lt. change (inject_Z 1) with 1. lra. }
    lia.
Qed.

(** C4: a target whose hack thread takes 1 percent, the default 0.02 per
    batch and 0.20 in total, 2000 GB free and an unscaled plan that fits
    40 times.  The unscaled plan has 2 hack threads; 40 * 0.02 = 0.8 is
    above 0.20, the percent becomes 0.20 / 40 = 0.005, the plan made
    again has 1 hack thread, and its concurrency is computed anew from
    its own cost, which is smaller as soon as the grow estimate did not
    rise.  The pass ends with 1 hack thread and 0.005. *)
Theorem cap_example (base maxTotal : Q) (e : Env) :
  scriptsCostRam e ->
  base == 0.02 -> maxTotal == 0.20 ->
  hackAnalyze e == 0.01 -> refinedPerHack e == 0.01 ->
  freeRamOf e == 2000 ->
  concurrency (unscaled logRatio base e) = 40%Z ->
  let p0 := unscaled logRatio base e in
  let p1 := capTotal logRatio maxTotal e p0 in
  let p := plan logRatio base maxTotal e in
  hackThreads p0 = 2%Z
  /\ inject_Z (concurrency p0) * basePct p0 == 0.8
  /\ maxTotal < inject_Z (concurrency p0) * basePct p0
  /\ basePct p1 == 0.005
  /\ hackThreads p1 = 1%Z
  /\ concurrency p1 = Z.max 1 (floor (freeRam p0 / ramPerBatch p1))
  /\ ((growThreads p1 <= growThreads p0)%Z ->
      ramPerBatch p1 < ramPerBatch p0)
  /\ basePct p == 0.005
  /\ hackThreads p = 1%Z.
Proof.
  intros Hcosts Hbase Hmax Hper Hper' Hfree Hc0 p0 p1 p.
  assert (Hh0 : hackThreads p0 = 2%Z).
  { unfold p0, unscaled. cbn [hackThreads].
    rewrite (hackThreadsFor_Qeq _ 0.02 _ 0.01 Hbase Hper'). reflexivity. }
  assert (Htot : inject_Z (concurrency p0) * basePct p0 == 0.8).
  { unfold p0. rewrite Hc0, unscaled_basePct, Hbase. reflexivity. }
  assert (Hgt : maxTotal < inject_Z (concurrency p0) * basePct p0).
  { rewrite Htot, Hmax. reflexivity. }
  pose proof (capTotal_shrinks maxTotal e p0 Hgt) as P1. cbv zeta in P1.
  fold p1 in P1.
  assert (Hy : Qmax 0.001 (maxTotal / inject_Z (concurrency p0)) == 0.005).
  { unfold p0. rewrite Hc0, Hmax. reflexivity. }
  assert (Hh1 : hackThreadsFor (Qmax 0.001 (maxTotal / inject_Z (concurrency p0)))
                               (refinedPerHack e) = 1%Z).
  { rewrite (hackThreadsFor_Qeq _ 0.005 _ 0.01 Hy Hper'). reflexivity. }
  rewrite Hh1 in P1.
  set (growT := growThreadsFor logRatio e 1 (refinedPerHack e)) in P1.
  assert (B1 : basePct p1 == 0.005) by (rewrite P1; exact Hy).
  assert (T1 : hackThreads p1 = 1%Z) by (rewrite P1; reflexivity).
  assert (C1 : concurrency p1 = Z.max 1 (floor (freeRam p0 / ramPerBatch p1)))
    by (rewrite P1; reflexivity).
  assert (Hcost : (growThreads p1 <= growThreads p0)%Z ->
                  ramPerBatch p1 < ramPerBatch p0).
  { intros Hg. destruct Hcosts as (Rh & Rg & Rw).
    unfold p0 in Hg |- *. rewrite (unscaled_priced e (conj Rh (conj Rg Rw)) base).
    rewrite P1 in Hg |- *. cbn [ramPerBatch growThreads] in Hg |- *.
    unfold unscaled in Hg |- *.
    cbn [hackThreads growThreads weaken1Threads weaken2Threads] in Hg |- *.
    rewrite (hackThreadsFor_Qeq base 0.02 (hackAnalyze e) 0.01 Hbase Hper) in Hg |- *.
    rewrite (hackThreadsFor_Qeq base 0.02 (refinedPerHack e) 0.01 Hbase Hper').
    change (hackThreadsFor 0.02 0.01) with 2%Z in Hg |- *.
    set (growT0 := growThreadsFor logRatio e 2 (hackAnalyze e)) in Hg |- *.
    pose proof (growThreadsFor_pos e 2 (hackAnalyze e)) as G0.
    fold growT0 in G0.
    pose proof (growThreadsFor_pos e 1 (refinedPerHack e)) as G1.
    fold growT in G1.
    pose proof (weakenThreadsFor_mono growT growT0 SEC_INC_GROW
                  ltac:(vm_compute; discriminate) Hg) as W.
    pose proof (weakenThreadsFor_pos growT SEC_INC_GROW) as W1.
    change (weakenThreadsFor 1 SEC_INC_HACK) with 1%Z.
    change (weakenThreadsFor 2 SEC_INC_HACK) with 1%Z.
    set (v := weakenThreadsFor growT SEC_INC_GROW) in W, W1 |- *.
    set (v0 := weakenThreadsFor growT0 SEC_INC_GROW) in W |- *.
    rewrite Zle_Qle in Hg, W, G0, G1, W1.
    change (inject_Z 1) with 1 in G0, G1, W1.
    assert (A : inject_Z growT * ramGrow e <= inject_Z growT0 * ramGrow e)
      by (apply Qmult_le_compat_r; lra).
    assert (B : (1 + inject_Z v) * ramWeaken e <= (1 + inject_Z v0) * ramWeaken e)
      by (apply Qmult_le_compat_r; lra).
    unfold ramOf. change (inject_Z 2) with 2. change (inject_Z 1) with 1. lra. }
  assert (Bp : basePct p == 0.005).
  { unfold p. rewrite plan_basePct. fold p0. fold p1. exact B1. }
  assert (Tp : hackThreads p = 1%Z).
  { unfold p, plan, packed. rewrite finalSafety_hackThreads. fold p0. fold p1.
    apply scaleDown_single_hack.
    - rewrite C1. lia.
    - unfold p1. rewrite capTotal_freeRam. unfold p0. rewrite unscaled_freeRam.
      apply freeRamOf_nonneg.
    - exact T1. }
  repeat split; assumption.
Qed.

End Planner.

(** *** Finish times *)

Section Timing.

Variables (e : Env) (now c b : Z).

Hypothesis b_nonneg : (0 <= b)%Z.

Lemma batchOffset_nonneg : (0 <= batchOffset c b)%Z.
Proof.
  unfold batchOffset, round.
  change 0%Z with (Qfloor (inject_Z 0)). apply Qfloor_resp_le.
  assert (Hb : 0 <= inject_Z b) by (rewrite Zle_Qle in b_nonneg; exact b_nonneg).
  assert (Hc : 0 < inject_Z (Z.max 1 c)).
  { change 0 with (inject_Z 0). rewrite <- Zlt_Qlt. lia. }
  assert (Hq : 0 <= inject_Z b / inject_Z (Z.max 1 c)).
  { apply Qle_shift_div_l; [exact Hc | lra]. }
  assert (Hd : 0 <= inject_Z (DELTA * 4)) by (vm_compute; discriminate).
  assert (0 <= inject_Z b / inject_Z (Z.max 1 c) * inject_Z (DELTA * 4))
    by (apply Qmult_le_0_compat; assumption).
  change (inject_Z 0) with 0. lra.
Qed.

Lemma longest_bounds :
  hackTime e <= longestOf e /\ growTime e <= longestOf e
  /\ weakenTime e <= longestOf e.
Proof.
  unfold longestOf, max3.
  pose proof (Q.le_max_l (hackTime e) (growTime e)).
  pose proof (Q.le_max_r (hackTime e) (growTime e)).
  pose proof (Q.le_max_l (Qmax (hackTime e) (growTime e)) (weakenTime e)).
  pose proof (Q.le_max_r (Qmax (hackTime e) (growTime e)) (weakenTime e)).
  repeat split; lra.
Qed.

(** A stage no longer than the longest one, aimed at [T' >= T], is
    started [BUFFER] or more after [now]: the [Math.max(0, ..)] of the
    delay does nothing, and the stage ends within half a millisecond of
    [T'], exactly on it when the lead is a whole number. *)
Lemma stage_lands (T' dur : Q) :
  dur <= longestOf e ->
  batchT e now c b <= T' ->
  let d := Z.max 0 (round ((T' - dur) - inject_Z now)) in
  (T' - 0.5 < completion now d dur /\ completion now d dur <= T' + 0.5)
  /\ forall z : Z, (T' - dur) - inject_Z now == inject_Z z ->
       completion now d dur == T'.
Proof.
  intros Hdur HT d.
  pose proof batchOffset_nonneg as Hoff. rewrite Zle_Qle in Hoff.
  change (inject_Z 0) with 0 in Hoff.
  assert (Hlead : inject_Z BUFFER <= (T' - dur) - inject_Z now).
  { unfold batchT, baseT in HT. lra. }
  destruct (round_bounds ((T' - dur) - inject_Z now)) as [Hlo Hhi].
  assert (Hpos : (0 <= round ((T' - dur) - inject_Z now))%Z).
  { rewrite Zle_Qle. change (inject_Z 0) with 0.
    change (inject_Z BUFFER) with 1400 in Hlead. lra. }
  assert (Ed : d = round ((T' - dur) - inject_Z now)) by (unfold d; lia).
  unfold completion. rewrite Ed. split; [split; lra |].
  intros z Hz. rewrite (round_whole z _ Hz). lra.
Qed.

End Timing.

Lemma Qmax_inject_Z (a b : Z) :
  Qmax (inject_Z a) (inject_Z b) == inject_Z (Z.max a b).
Proof.
  destruct (Z.le_ge_cases a b) as [H | H].
  - rewrite Z.max_r by exact H. apply Q.max_r. rewrite <- Zle_Qle. exact H.
  - rewrite Z.max_l by exact H. apply Q.max_l. rewrite <- Zle_Qle. exact H.
Qed.

(** C3, as the code has it: with every [Date.now()] of the pass reading
    the same millisecond, the four stages of a batch end in the order
    hack, weaken, grow, weaken; consecutive ends are less than one
    millisecond away from DELTA apart, and exactly DELTA apart when the
    three durations are whole milliseconds. *)
Theorem stages_finish_in_order (e : Env) (now c b : Z) (clk : BatchClock) :
  (0 <= b)%Z ->
  atHack clk = now -> atWeaken1 clk = now ->
  atGrow clk = now -> atWeaken2 clk = now ->
  let T := batchT e now c b in
  let endHack := completion now (hackStartDelay e T clk) (hackTime e) in
  let endWeaken1 := completion now (weaken1StartDelay e T clk) (weakenTime e) in
  let endGrow := completion now (growStartDelay e T clk) (growTime e) in
  let endWeaken2 := completion now (weaken2StartDelay e T clk) (weakenTime e) in
  (endHack < endWeaken1 /\ endWeaken1 < endGrow /\ endGrow < endWeaken2)
  /\ (inject_Z DELTA - 1 < endWeaken1 - endHack < inject_Z DELTA + 1
      /\ inject_Z DELTA - 1 < endGrow - endWeaken1 < inject_Z DELTA + 1
      /\ inject_Z DELTA - 1 < endWeaken2 - endGrow < inject_Z DELTA + 1)
  /\ ((exists h g w : Z, hackTime e == inject_Z h /\ growTime e == inject_Z g
                         /\ weakenTime e == inject_Z w) ->
      endWeaken1 - endHack == inject_Z DELTA
      /\ endGrow - endWeaken1 == inject_Z DELTA
      /\ endWeaken2 - endGrow == inject_Z DELTA).
Proof.
  intros Hb E1 E2 E3 E4 T endHack endWeaken1 endGrow endWeaken2.
  destruct (longest_bounds e) as (Lh & Lg & Lw).
  assert (D : inject_Z DELTA == 250) by reflexivity.
  assert (T0 : T <= T) by lra.
  assert (T1 : T <= T + inject_Z DELTA) by lra.
  assert (T2 : T <= T + 2 * inject_Z DELTA) by lra.
  assert (T3 : T <= T + 3 * inject_Z DELTA) by lra.
  destruct (stage_lands e now c b Hb T (hackTime e) Lh T0) as [[H0 H0'] W0].
  destruct (stage_lands e now c b Hb _ (weakenTime e) Lw T1) as [[H1 H1'] W1].
  destruct (stage_lands e now c b Hb _ (growTime e) Lg T2) as [[H2 H2'] W2].
  destruct (stage_lands e now c b Hb _ (weakenTime e) Lw T3) as [[H3 H3'] W3].
  fold T in H0, H0', W0, H1, H1', W1, H2, H2', W2, H3, H3', W3.
  assert (EH : endHack = completion now
            (Z.max 0 (round (T - hackTime e - inject_Z now))) (hackTime e))
    by (unfold endHack, hackStartDelay; rewrite E1; reflexivity).
  assert (EW1 : endWeaken1 = completion now
            (Z.max 0 (round (T + inject_Z DELTA - weakenTime e - inject_Z now)))
            (weakenTime e))
    by (unfold endWeaken1, weaken1StartDelay; rewrite E2; reflexivity).
  assert (EG : endGrow = completion now
            (Z.max 0 (round (T + 2 * inject_Z DELTA - growTime e - inject_Z now)))
            (growTime e))
    by (unfold endGrow, growStartDelay; rewrite E3; reflexivity).
  assert (EW2 : endWeaken2 = completion now
            (Z.max 0 (round (T + 3 * inject_Z DELTA - weakenTime e - inject_Z now)))
            (weakenTime e))
    by (unfold endWeaken2, weaken2StartDelay; rewrite E4; reflexivity).
  rewrite <- EH in *. rewrite <- EW1 in *. rewrite <- EG in *. rewrite <- EW2 in *.
  split; [repeat split; lra | split; [repeat split; lra |]].
  intros (h & g & w & Eh & Eg & Ew).
  assert (EL : longestOf e == inject_Z (Z.max (Z.max h g) w)).
  { unfold longestOf, max3. rewrite Eh, Eg, Ew, !Qmax_inject_Z. reflexivity. }
  set (L := Z.max (Z.max h g) w) in EL.
  set (off := batchOffset c b).
  assert (ET : T == inject_Z (now + L + BUFFER + off)).
  { unfold T, batchT, baseT. fold off. rewrite EL, !inject_Z_plus. reflexivity. }
  assert (X0 : endHack == T).
  { apply (W0 (now + L + BUFFER + off - h - now)%Z).
    rewrite ET, Eh. unfold Zminus. rewrite !inject_Z_plus, !inject_Z_opp. lra. }
  assert (X1 : endWeaken1 == T + inject_Z DELTA).
  { apply (W1 (now + L + BUFFER + off + DELTA - w - now)%Z).
    rewrite ET, Ew. unfold Zminus. rewrite !inject_Z_plus, !inject_Z_opp. lra. }
  assert (X2 : endGrow == T + 2 * inject_Z DELTA).
  { apply (W2 (now + L + BUFFER + off + 2 * DELTA - g - now)%Z).
    rewrite ET, Eg. unfold Zminus.
    rewrite !inject_Z_plus, !inject_Z_opp, inject_Z_mult.
    change (inject_Z 2) with 2. lra. }
  assert (X3 : endWeaken2 == T + 3 * inject_Z DELTA).
  { apply (W3 (now + L + BUFFER + off + 3 * DELTA - w - now)%Z).
    rewrite ET, Ew. unfold Zminus.
    rewrite !inject_Z_plus, !inject_Z_opp, inject_Z_mult.
    change (inject_Z 3) with 3. lra. }
  repeat split; lra.
Qed.

(** C3 as stated fails: a hack of 1000.5 ms and a weaken of 4002 ms end
    249.5 ms apart, the hack delay being rounded up to 4402 ms. *)
Lemma finish_gap_not_delta :
  let e := Samples.smallHost in
  let clk := Samples.frozenClock 0 0 in
  let T := batchT e 0 1 0 in
  0 < hackTime e /\ 0 < growTime e /\ 0 < weakenTime e
  /\ hackStartDelay e T clk = 4402%Z
  /\ weaken1StartDelay e T clk = 1650%Z
  /\ completion 0 (weaken1StartDelay e T clk) (weakenTime e)
     - completion 0 (hackStartDelay e T clk) (hackTime e) == 249.5
  /\ ~ (completion 0 (weaken1StartDelay e T clk) (weakenTime e)
        - completion 0 (hackStartDelay e T clk) (hackTime e) == inject_Z DELTA).
Proof.
  cbv zeta. split; [| split; [| split; [| split; [| split; [| split]]]]].
  - reflexivity.
  - reflexivity.
  - reflexivity.
  - vm_compute. reflexivity.
  - vm_compute. reflexivity.
  - vm_compute. reflexivity.
  - intros H. vm_compute in H. discriminate H.
Qed.

Lemma stages_finish_in_order_witness :
  let e := Samples.wholeTimes in
  let clk := Samples.frozenClock 1000 1 in
  let T := batchT e 1000 2 1 in
  completion 1000 (weaken1StartDelay e T clk) (weakenTime e)
  - completion 1000 (hackStartDelay e T clk) (hackTime e) == inject_Z DELTA.
Proof.
  cbv zeta.
  assert (Hb : (0 <= 1)%Z) by lia.
  destruct (stages_finish_in_order Samples.wholeTimes 1000 2 1
              (Samples.frozenClock 1000 1) Hb eq_refl eq_refl eq_refl eq_refl)
    as (_ & _ & Hwhole).
  apply Hwhole.
  exists 1000%Z, 3200%Z, 4000%Z. repeat split; reflexivity.
Defined.

(** C2: the cap is overshot within one pass.  On an idle 2048 GB host
    with the default arguments the first plan runs 47 times, so the
    percent is lowered to 0.2/47; the batch made again is smaller and
    runs 147 times (line 137), and the total of 147 * 0.2/47, about
    0.6255, recomputed at line 138, is not held against the cap of 0.2
    again.  The same on the worked example of the specification: 2000 GB
    free and a 50 GB batch give 40 batches, the percent is lowered to
    0.005, the batch made again costs 40 GB and runs 50 times, and
    50 * 0.005 = 0.25 is above 0.2 + 0.001. *)
Lemma total_hack_pct_above_cap :
  (let p := plan Samples.unusedLog 0.02 0.2 Samples.bigHost in
   concurrency (unscaled Samples.unusedLog 0.02 Samples.bigHost) = 47%Z
   /\ basePct p == 0.2 / 47
   /\ concurrency p = 147%Z
   /\ inject_Z (concurrency p) * basePct p == 29.4 / 47
   /\ ~ (inject_Z (concurrency p) * basePct p <= 0.2 + 0.001))
  /\ (let p := plan Samples.unusedLog 0.02 0.2 Samples.fortyBatches in
      concurrency (unscaled Samples.unusedLog 0.02 Samples.fortyBatches) = 40%Z
      /\ basePct p == 0.005
      /\ concurrency p = 50%Z
      /\ inject_Z (concurrency p) * basePct p == 0.25
      /\ ~ (inject_Z (concurrency p) * basePct p <= 0.2 + 0.001)).
Proof.
  cbv zeta. split; (split; [| split; [| split; [| split]]]).
  - vm_compute. reflexivity.
  - vm_compute. reflexivity.
  - vm_compute. reflexivity.
  - vm_compute. reflexivity.
  - apply Qlt_not_le. vm_compute. reflexivity.
  - vm_compute. reflexivity.
  - vm_compute. reflexivity.
  - vm_compute. reflexivity.
  - vm_compute. reflexivity.
  - apply Qlt_not_le. vm_compute. reflexivity.
Qed.

Lemma total_hack_pct_capped_witness :
  scriptsCostRam Samples.smallHost
  /\ concurrency (unscaled Samples.unusedLog 0.25 Samples.smallHost) = 1%Z
  /\ basePct (plan Samples.unusedLog 0.25 0.2 Samples.smallHost) == 0.2
  /\ concurrency (plan Samples.unusedLog 0.25 0.2 Samples.smallHost) = 1%Z
  /\ inject_Z (concurrency (plan Samples.unusedLog 0.25 0.2 Samples.smallHost))
     * basePct (plan Samples.unusedLog 0.25 0.2 Samples.smallHost) <= 0.2 + 0.001.
Proof.
  assert (H0 : scriptsCostRam Samples.smallHost) by (repeat split; reflexivity).
  assert (H1 : 0 <= 0.25) by (vm_compute; discriminate).
  assert (H2 : 0 <= 0.2) by (vm_compute; discriminate).
  destruct (total_hack_pct_capped Samples.unusedLog 0.25 0.2 Samples.smallHost
              H0 H1 H2) as [Hkept Hscaled].
  split; [exact H0 |]. split; [vm_compute; reflexivity |].
  split; [vm_compute; reflexivity |].
  split.
  - apply Hscaled. vm_compute. reflexivity.
  - apply Hkept; vm_compute; discriminate.
Defined.

(** *** The invocation surface *)

Lemma minCap_not_falsy (cap : Q) (n : JsNumber) :
  ~ cap == 0 -> falsy n = false -> falsy (minCap cap n) = false.
Proof.
  intros Hcap Hn. destruct n as [| | q |]; cbn in *; try discriminate; try reflexivity.
  - destruct (Q.min_dec cap q) as [E | E];
      apply not_true_iff_false; rewrite Qeq_bool_iff, E.
    + exact Hcap.
    + apply not_true_iff_false in Hn. rewrite Qeq_bool_iff in Hn. exact Hn.
  - apply not_true_iff_false. rewrite Qeq_bool_iff. exact Hcap.
Qed.

Lemma orDefault_not_falsy (n : JsNumber) (dflt : Q) :
  ~ dflt == 0 -> falsy (orDefault n dflt) = false.
Proof.
  intros Hd. unfold orDefault. destruct (falsy n) eqn:E; [| exact E].
  cbn. apply not_true_iff_false. rewrite Qeq_bool_iff. exact Hd.
Qed.

Lemma minCap_atMost (cap : Q) (n : JsNumber) :
  falsy n = false -> atMost (minCap cap n) cap.
Proof.
  intros Hn. destruct n as [| | q |]; cbn in *; try discriminate; try exact I.
  - apply Q.le_min_l.
  - apply Qle_refl.
Qed.

Lemma minCap_positive (cap : Q) (n : JsNumber) :
  0 < cap -> positive n -> positive (minCap cap n).
Proof.
  intros Hcap Hn. destruct n as [| | q |]; cbn in *; try contradiction.
  - apply Q.min_glb_lt; assumption.
  - exact Hcap.
Qed.

Lemma orDefault_positive (n : JsNumber) (dflt : Q) :
  0 < dflt -> ~ negative n -> positive (orDefault n dflt).
Proof.
  intros Hd Hn. unfold orDefault. destruct (falsy n) eqn:E; [exact Hd |].
  destruct n as [| | q |]; cbn in *; try discriminate; try exact I.
  - exfalso. apply Hn. exact I.
  - apply not_true_iff_false in E. rewrite Qeq_bool_iff in E.
    destruct (Qlt_le_dec 0 q) as [H | H]; [exact H |].
    exfalso. apply Hn. apply Qle_lt_or_eq in H. destruct H as [H | H]; [exact H |].
    exfalso. apply E. exact H.
Qed.

(** C10, as the code has it: a falsy argument (0, -0, NaN from a missing
    or non-numeric argument) gives the default, the effective values are
    never zero and never NaN and are at most 0.25 and 0.5; they are
    positive unless the argument is a negative number, which passes
    through the upper clamp unchanged in sign. *)
Theorem invocation_surface (arg1 arg2 : JsNumber) :
  ((falsy arg1 = true -> initBaseHackPct arg1 = Fin 0.02)
   /\ falsy (initBaseHackPct arg1) = false
   /\ atMost (initBaseHackPct arg1) 0.25
   /\ (~ negative arg1 -> positive (initBaseHackPct arg1))
   /\ (negative arg1 -> negative (initBaseHackPct arg1)))
  /\ ((falsy arg2 = true -> initMaxTotalHackPct arg2 = Fin 0.20)
      /\ falsy (initMaxTotalHackPct arg2) = false
      /\ atMost (initMaxTotalHackPct arg2) 0.5
      /\ (~ negative arg2 -> positive (initMaxTotalHackPct arg2))
      /\ (negative arg2 -> negative (initMaxTotalHackPct arg2))).
Proof.
  assert (N : forall cap dflt n, 0 < cap -> negative n ->
            negative (minCap cap (orDefault n dflt))).
  { intros cap dflt n Hcap Hn. destruct n as [| | q |]; cbn in Hn; try contradiction.
    - exact I.
    - unfold orDefault. cbn [falsy].
      destruct (Qeq_bool q 0) eqn:E.
      + apply Qeq_bool_iff in E. lra.
      + cbn. eapply Qle_lt_trans; [apply Q.le_min_r | exact Hn]. }
  unfold initBaseHackPct, initMaxTotalHackPct. split.
  - split; [| split; [| split; [| split]]].
    + intros F. unfold orDefault. rewrite F. reflexivity.
    + apply minCap_not_falsy; [intros H; discriminate H |].
      apply orDefault_not_falsy. intros H; discriminate H.
    + apply minCap_atMost. apply orDefault_not_falsy. intros H; discriminate H.
    + intros Hn. apply minCap_positive; [reflexivity |].
      apply orDefault_positive; [reflexivity | exact Hn].
    + apply N. reflexivity.
  - split; [| split; [| split; [| split]]].
    + intros F. unfold orDefault. rewrite F. reflexivity.
    + apply minCap_not_falsy; [intros H; discriminate H |].
      apply orDefault_not_falsy. intros H; discriminate H.
    + apply minCap_atMost. apply orDefault_not_falsy. intros H; discriminate H.
    + intros Hn. apply minCap_positive; [reflexivity |].
      apply orDefault_positive; [reflexivity | exact Hn].
    + apply N. reflexivity.
Qed.

(** C10 as stated fails: an argument of -1 is truthy and below the
    clamp, so the per-batch percent the script runs with is -1. *)
Lemma negative_argument_kept :
  falsy (Fin (-1)) = false
  /\ initBaseHackPct (Fin (-1)) = Fin (-1)
  /\ ~ positive (initBaseHackPct (Fin (-1))).
Proof.
  split; [reflexivity | split; [reflexivity |]].
  intros H. vm_compute in H. discriminate H.
Qed.

Lemma invocation_surface_witness :
  initBaseHackPct NaN = Fin 0.02
  /\ initBaseHackPct (Fin 0) = Fin 0.02
  /\ positive (initBaseHackPct (Fin 0.3))
  /\ initMaxTotalHackPct NaN = Fin 0.20.
Proof.
  destruct (invocation_surface NaN NaN) as ((D1 & _) & (D2 & _)).
  destruct (invocation_surface (Fin 0) (Fin 0.3)) as ((D3 & _) & _).
  destruct (invocation_surface (Fin 0.3) NaN) as ((_ & _ & _ & P & _) & _).
  split; [exact (D1 eq_refl) | split; [exact (D3 eq_refl) | split]].
  - apply P. intros H. vm_compute in H. discriminate H.
  - exact (D2 eq_refl).
Defined.

(** *** Passes of the loop *)

(** A pass that finds its target schedules the hack of its first batch. *)
Lemma cycle_hacks (logRatio : Q -> Q) (maxTotal : Q) (st : State) (e : Env)
                  (now : Z) (clock : nat -> BatchClock) :
  serverExists e = true -> scriptsCostRam e ->
  exists st' n d rest,
    cycle logRatio maxTotal st e now clock
      = Some (st', mkExec HackJs n d :: rest) /\ (1 <= n)%Z.
Proof.
  intros Hex _. unfold cycle. rewrite Hex.
  pose proof (plan_wellSized logRatio (BASE_HACK_PCT st) maxTotal e) as Hp.
  pose proof (plan_concurrency_pos logRatio (BASE_HACK_PCT st) maxTotal e) as Hc.
  generalize dependent (plan logRatio (BASE_HACK_PCT st) maxTotal e).
  intros p Hp Hc. unfold schedule.
  destruct (Z.to_nat (concurrency p)) as [| k] eqn:Ek; [lia |].
  cbn [seq flat_map]. rewrite scheduleBatch_four by exact Hp.
  cbn [app]. eexists _, _, _, _. split; [reflexivity | apply Hp].
Qed.

(** C5 fails on the code: two passes that read the same game state, at
    the same clock, make different calls.  The first pass starts from the
    configured 0.02, leaves BASE_HACK_PCT at 0.2/47 and schedules 147
    batches of 5 hack threads; the second starts from 0.2/47 and schedules
    234 batches of 2 hack threads. *)
Lemma second_pass_differs :
  let e := Samples.bigHost in
  let clock := Samples.frozenClock 0 in
  exists st1 out1 st2 out2,
    cycle Samples.unusedLog 0.2 (mkState 0.02) e 0 clock = Some (st1, out1)
    /\ cycle Samples.unusedLog 0.2 st1 e 0 clock = Some (st2, out2)
    /\ BASE_HACK_PCT st1 == 0.2 / 47
    /\ hd_error out1 = Some (mkExec HackJs 5 4402)
    /\ List.length out1 = (4 * 147)%nat
    /\ hd_error out2 = Some (mkExec HackJs 2 4402)
    /\ List.length out2 = (4 * 234)%nat
    /\ out1 <> out2.
Proof.
  cbv zeta.
  let r1 := eval vm_compute in
      (cycle Samples.unusedLog 0.2 (mkState 0.02) Samples.bigHost 0
             (Samples.frozenClock 0)) in
  match r1 with
  | Some (?st1, ?out1) =>
      let r2 := eval vm_compute in
          (cycle Samples.unusedLog 0.2 st1 Samples.bigHost 0
                 (Samples.frozenClock 0)) in
      match r2 with
      | Some (?st2, ?out2) => exists st1, out1, st2, out2
      end
  end.
  split; [vm_compute; reflexivity |].
  split; [vm_compute; reflexivity |].
  split; [vm_compute; reflexivity |].
  split; [reflexivity |].
  split; [vm_compute; reflexivity |].
  split; [reflexivity |].
  split; [vm_compute; reflexivity |].
  intros H. discriminate H.
Qed.

(** C7, as the code has it.  The batcher never reads the hack chance and
    guards the division by the per-thread yield with 1e-12: a pass that
    finds its target (and whose worker scripts cost RAM) always schedules
    hack.js with at least one thread, whatever the yield.  It is the worker that replaces the hack: with a
    yield or a chance of zero or less it never hacks, and it weakens
    unless the grow threshold sends it to grow first. *)
Theorem degenerate_inputs (logRatio : Q -> Q) (maxTotal : Q) (st : State)
                          (e : Env) (now : Z) (clock : nat -> BatchClock)
                          (o : Worker.Obs) :
  (serverExists e = true -> scriptsCostRam e ->
   exists st' n d rest,
     cycle logRatio maxTotal st e now clock
       = Some (st', mkExec HackJs n d :: rest) /\ (1 <= n)%Z)
  /\ (Worker.perThreadSteal o <= 0 \/ Worker.hackChance o <= 0 ->
      Worker.decide o <> Worker.Hack
      /\ (Worker.maxMoney o * Worker.GROW_PCT <= Worker.money o ->
          Worker.decide o = Worker.Weaken)).
Proof.
  split; [apply cycle_hacks |].
  intros Hdeg.
  assert (G : leb (Worker.perThreadSteal o) 0 || leb (Worker.hackChance o) 0 = true).
  { apply orb_true_iff. destruct Hdeg as [H | H]; [left | right];
      apply leb_true; exact H. }
  unfold Worker.decide. rewrite G.
  destruct (ltb (Worker.minSec o + Worker.SEC_MARGIN) (Worker.sec o)).
  - split; [discriminate | reflexivity].
  - destruct (ltb (Worker.money o) (Worker.maxMoney o * Worker.GROW_PCT)) eqn:E.
    + split; [discriminate |]. intros Hm. apply ltb_true in E. lra.
    + split; [discriminate | reflexivity].
Qed.

(** C7 as stated fails for the batcher: with a per-thread yield of 0 the
    pass still schedules the hack, 200000000 threads of it after the
    scale-down, followed by the usual weaken, grow and weaken. *)
Lemma zero_yield_still_hacks :
  hackAnalyze Samples.zeroYield == 0
  /\ cycle Samples.unusedLog 0.2 (mkState 0.02) Samples.zeroYield 0
           (Samples.frozenClock 0)
     = Some (mkState 0.02,
             [ mkExec HackJs 200000000 4402; mkExec WeakenJs 8000000 1650;
               mkExec GrowJs 1 2701; mkExec WeakenJs 1 2150 ]).
Proof. split; [reflexivity | vm_compute; reflexivity]. Qed.

Lemma degenerate_inputs_witness :
  (exists st' n d rest,
     cycle Samples.unusedLog 0.2 (mkState 0.02) Samples.zeroYield 0
           (Samples.frozenClock 0)
       = Some (st', mkExec HackJs n d :: rest) /\ (1 <= n)%Z)
  /\ Worker.decide (Worker.mkObs 1 1 1000 950 0 0.8 4 0.1) = Worker.Weaken.
Proof.
  destruct (degenerate_inputs Samples.unusedLog 0.2 (mkState 0.02)
              Samples.zeroYield 0 (Samples.frozenClock 0)
              (Worker.mkObs 1 1 1000 950 0 0.8 4 0.1)) as [HB HW].
  split; [apply (HB eq_refl); repeat split; reflexivity |].
  destruct HW as [_ HW].
  - left. cbn. apply Qle_refl.
  - apply HW. vm_compute. discriminate.
Defined.

Lemma cap_example_witness :
  let e := Samples.fortyBatches in
  ramPerBatch (unscaled Samples.unusedLog 0.02 e) == 50
  /\ concurrency (unscaled Samples.unusedLog 0.02 e) = 40%Z
  /\ hackThreads (plan Samples.unusedLog 0.02 0.20 e) = 1%Z
  /\ basePct (plan Samples.unusedLog 0.02 0.20 e) == 0.005
  /\ ramPerBatch (plan Samples.unusedLog 0.02 0.20 e) == 40
  /\ concurrency (plan Samples.unusedLog 0.02 0.20 e) = 50%Z.
Proof.
  cbv zeta.
  destruct (cap_example Samples.unusedLog 0.02 0.20 Samples.fortyBatches)
    as (_ & _ & _ & _ & _ & _ & _ & Hb & Hh);
    try reflexivity; [repeat split; reflexivity |].
  split; [reflexivity |]. split; [reflexivity |].
  split; [exact Hh |]. split; [exact Hb |].
  split; vm_compute; reflexivity.
Defined.

Lemma every_stage_has_a_thread_witness :
  scriptsCostRam Samples.smallHost
  /\ (1 <= concurrency (plan Samples.unusedLog 0.02 0.2 Samples.smallHost))%Z
  /\ List.length (schedule Samples.smallHost
                    (plan Samples.unusedLog 0.02 0.2 Samples.smallHost) 0
                    (Samples.frozenClock 0)) = 4%nat.
Proof.
  assert (H0 : scriptsCostRam Samples.smallHost) by (repeat split; reflexivity).
  destruct (every_stage_has_a_thread Samples.unusedLog 0.02 0.2 Samples.smallHost)
    as [_ Hrun].
  destruct (Hrun H0) as [Hc Hlen].
  split; [exact H0 | split; [exact Hc |]].
  destruct (Hlen 0%Z (Samples.frozenClock 0)) as [E _]. rewrite E. reflexivity.
Defined.

(** C1 as stated fails: on an 8 GB host with 4 GB in use the smallest
    batch (one thread per stage, 6.95 GB) is scheduled although only
    3.92 GB are free. *)
Lemma packer_oversubscribes_small_host :
  let p := plan Samples.unusedLog 0.02 0.2 Samples.smallHost in
  0 <= freeRam p /\ 0 < ramPerBatch p
  /\ concurrency p = 1%Z /\ ramPerBatch p == 6.95 /\ freeRam p == 3.92
  /\ ~ (inject_Z (concurrency p) * ramPerBatch p <= freeRam p).
Proof.
  cbv zeta. split; [| split; [| split; [| split; [| split]]]].
  - vm_compute. discriminate.
  - vm_compute. reflexivity.
  - vm_compute. reflexivity.
  - vm_compute. reflexivity.
  - vm_compute. reflexivity.
  - apply Qlt_not_le. vm_compute. reflexivity.
Qed.

Lemma packing_respects_free_ram_witness :
  scriptsCostRam Samples.bigHost
  /\ inject_Z (concurrency (plan Samples.unusedLog 0.02 0.2 Samples.bigHost))
     * ramPerBatch (plan Samples.unusedLog 0.02 0.2 Samples.bigHost)
     <= freeRam (plan Samples.unusedLog 0.02 0.2 Samples.bigHost).
Proof.
  assert (H0 : scriptsCostRam Samples.bigHost) by (repeat split; reflexivity).
  split; [exact H0 |].
  destruct (packing_respects_free_ram Samples.unusedLog 0.02 0.2 Samples.bigHost H0)
    as (_ & Hfits & _).
  apply Hfits. vm_compute. discriminate.
Defined.

End BatcherFacts.

(** ** Selection and assignment *)

Module ControllerFacts.

Import JsMath JsMathFacts Controller.

(** *** scanAll ends within its fuel *)

Lemma findServer_In l h sv : findServer l h = Some sv -> In sv l.
Proof.
  induction l as [| x r IH]; cbn [findServer]; [discriminate |].
  destruct (String.eqb (hostname x) h).
  - intros [= ->]. left. reflexivity.
  - intros H. right. apply IH. exact H.
Qed.

Lemma scan_in_universe w h n : In n (scan w h) -> In n (universe w).
Proof.
  unfold scan, universe. destruct (findServer (servers w) h) as [sv |] eqn:E;
    [| contradiction].
  intros Hn. apply nodup_In. apply in_flat_map.
  exists sv. split; [exact (findServer_In _ _ _ E) | exact Hn].
Qed.

Lemma seenHas_app seen n u :
  seenHas (seen ++ [n]) u = seenHas seen u || String.eqb u n.
Proof.
  unfold seenHas. rewrite existsb_app. cbn [existsb]. rewrite orb_false_r.
  reflexivity.
Qed.

(** Marking an unseen name of the universe leaves one name less to see. *)
Lemma unseen_after_add (U seen : list string) (n : string) :
  NoDup U -> In n U -> seenHas seen n = false ->
  S (List.length (filter (fun u => negb (seenHas (seen ++ [n]) u)) U))
  = List.length (filter (fun u => negb (seenHas seen u)) U).
Proof.
  intros Hnd Hin Hn. induction U as [| u U IH]; [contradiction |].
  inversion Hnd as [| ? ? Hu HU]; subst.
  cbn [filter]. rewrite seenHas_app.
  destruct (String.eqb u n) eqn:E.
  - apply String.eqb_eq in E. subst u. rewrite Hn, orb_true_r. cbn [negb List.length].
    f_equal. f_equal. apply filter_ext_in. intros k Hk. rewrite seenHas_app.
    destruct (String.eqb k n) eqn:Ek; [| rewrite orb_false_r; reflexivity].
    apply String.eqb_eq in Ek. subst k. contradiction.
  - rewrite orb_false_r. destruct Hin as [-> | Hin];
      [rewrite String.eqb_refl in E; discriminate E |].
    destruct (seenHas seen u); cbn [negb List.length]; rewrite <- (IH HU Hin);
      reflexivity.
Qed.

(** One [visit], then the whole [for], keep the sum of the stack height
    and the number of names still unseen. *)
Lemma visit_measure w seen stack n :
  In n (universe w) ->
  (List.length (snd (visit (seen, stack) n))
   + unseenCount w (fst (visit (seen, stack) n))
   = List.length stack + unseenCount w seen)%nat.
Proof.
  intros Hin. unfold visit. destruct (seenHas seen n) eqn:E; [reflexivity |].
  cbn [fst snd List.length]. unfold unseenCount.
  rewrite <- (unseen_after_add (universe w) seen n); [lia | | exact Hin | exact E].
  apply NoDup_nodup.
Qed.

Lemma fold_visit_measure w ns : forall seen stack,
  (forall n, In n ns -> In n (universe w)) ->
  (List.length (snd (fold_left visit ns (seen, stack)))
   + unseenCount w (fst (fold_left visit ns (seen, stack)))
   = List.length stack + unseenCount w seen)%nat.
Proof.
  induction ns as [| n ns IH]; intros seen stack Hin; [reflexivity |].
  cbn [fold_left].
  destruct (visit (seen, stack) n) as [seen1 stack1] eqn:E.
  rewrite IH by (intros k Hk; apply Hin; right; exact Hk).
  pose proof (visit_measure w seen stack n (Hin n (or_introl eq_refl))) as M.
  rewrite E in M. exact M.
Qed.

(** With fuel for the stack and for the names still unseen, the loop ends
    by itself: more fuel gives the same list. *)
Lemma scanLoop_ends w : forall fuel seen stack extra,
  (List.length stack + unseenCount w seen <= fuel)%nat ->
  scanLoop w (fuel + extra) seen stack = scanLoop w fuel seen stack.
Proof.
  induction fuel as [| fuel IH]; intros seen stack extra Hm.
  - destruct stack; [| cbn [List.length] in Hm; lia].
    destruct extra; reflexivity.
  - cbn [Nat.add scanLoop]. destruct stack as [| h rest]; [reflexivity |].
    pose proof (fold_visit_measure w (scan w h) seen rest
                  (fun n Hn => scan_in_universe w h n Hn)) as M.
    destruct (fold_left visit (scan w h) (seen, rest)) as [seen1 stack1].
    cbn [fst snd] in M. apply IH. cbn [List.length] in Hm. lia.
Qed.

(** scanAll has run the [while] to its end. *)
Lemma scanLoop_fuel_enough w extra :
  scanLoop w (scanFuel w + extra) [home] [home] = scanAll w.
Proof.
  unfold scanAll. apply scanLoop_ends.
  unfold scanFuel, unseenCount. cbn [List.length].
  pose proof (filter_length_le (fun u => negb (seenHas [home] u)) (universe w)).
  lia.
Qed.

(** *** autoNuke on one server *)

Lemma hostname_autoNukeServer pr sv :
  hostname (autoNukeServer pr sv) = hostname sv.
Proof.
  unfold autoNukeServer, nuke.
  destruct (String.eqb (hostname sv) home); [reflexivity |].
  destruct (hasRootAccess sv); [reflexivity |].
  destruct (_ <=? _)%nat; reflexivity.
Qed.

Lemma openPorts_idem pr sv : openPorts pr (openPorts pr sv) = openPorts pr sv.
Proof.
  unfold openPorts. cbn. f_equal; rewrite <- orb_assoc, orb_diag; reflexivity.
Qed.

Lemma autoNukeServer_home pr sv :
  String.eqb (hostname sv) home = true -> autoNukeServer pr sv = sv.
Proof. intros E. unfold autoNukeServer. rewrite E. reflexivity. Qed.

Lemma autoNukeServer_rooted pr sv :
  hasRootAccess sv = true -> autoNukeServer pr sv = sv.
Proof.
  intros E. unfold autoNukeServer. rewrite E.
  destruct (String.eqb (hostname sv) home); reflexivity.
Qed.

Lemma autoNukeServer_attempt pr sv :
  String.eqb (hostname sv) home = false -> hasRootAccess sv = false ->
  autoNukeServer pr sv = nuke (openPorts pr sv).
Proof. intros E1 E2. unfold autoNukeServer. rewrite E1, E2. reflexivity. Qed.

(** A second autoNuke of a server changes nothing: either it is rooted by
    then, or the same ports are open and [ns.nuke] fails again. *)
Lemma autoNukeServer_idem pr sv :
  autoNukeServer pr (autoNukeServer pr sv) = autoNukeServer pr sv.
Proof.
  destruct (String.eqb (hostname sv) home) eqn:Eh.
  { rewrite !(autoNukeServer_home pr sv Eh). reflexivity. }
  destruct (hasRootAccess sv) eqn:Er.
  { rewrite !(autoNukeServer_rooted pr sv Er). reflexivity. }
  rewrite (autoNukeServer_attempt pr sv Eh Er). unfold nuke.
  destruct (numOpenPortsRequired (openPorts pr sv) <=? openPortCount (openPorts pr sv))%nat
    eqn:En.
  - apply autoNukeServer_rooted. reflexivity.
  - rewrite (autoNukeServer_attempt pr (openPorts pr sv) Eh Er), openPorts_idem.
    unfold nuke. rewrite En. reflexivity.
Qed.

(** What autoNuke leaves alone. *)
Lemma autoNukeServer_keeps pr sv :
  neighbours (autoNukeServer pr sv) = neighbours sv
  /\ maxMoney (autoNukeServer pr sv) = maxMoney sv
  /\ requiredHackingLevel (autoNukeServer pr sv) = requiredHackingLevel sv
  /\ hackChance (autoNukeServer pr sv) = hackChance sv
  /\ maxRam (autoNukeServer pr sv) = maxRam sv
  /\ (hasRootAccess sv = true -> hasRootAccess (autoNukeServer pr sv) = true).
Proof.
  unfold autoNukeServer, nuke.
  destruct (String.eqb (hostname sv) home); [repeat split; auto |].
  destruct (hasRootAccess sv) eqn:Er; [repeat split; auto |].
  destruct (_ <=? _)%nat; repeat split; auto; discriminate.
Qed.

(** *** updateServer *)

Section Update.

Variable f : Server -> Server.
Hypothesis f_hostname : forall sv, hostname (f sv) = hostname sv.

Lemma findServer_updateServer l h k :
  findServer (updateServer f l h) k
  = if String.eqb k h then option_map f (findServer l k) else findServer l k.
Proof.
  induction l as [| sv r IH]; cbn [updateServer findServer].
  - destruct (String.eqb k h); reflexivity.
  - destruct (String.eqb (hostname sv) h) eqn:Eh.
    + apply String.eqb_eq in Eh. cbn [findServer]. rewrite f_hostname.
      destruct (String.eqb k h) eqn:Ek.
      * apply String.eqb_eq in Ek. subst k. rewrite Eh, String.eqb_refl. reflexivity.
      * destruct (String.eqb (hostname sv) k) eqn:E; [| reflexivity].
        apply String.eqb_eq in E. rewrite <- E, Eh, String.eqb_refl in Ek.
        discriminate Ek.
    + cbn [findServer].
      destruct (String.eqb (hostname sv) k) eqn:E.
      * apply String.eqb_eq in E. subst k. rewrite Eh. reflexivity.
      * exact IH.
Qed.

Lemma updateServer_comm l h k :
  updateServer f (updateServer f l h) k = updateServer f (updateServer f l k) h.
Proof.
  destruct (String.eqb h k) eqn:Ehk; [apply String.eqb_eq in Ehk; subst k; reflexivity |].
  induction l as [| sv r IH]; [reflexivity |]. cbn [updateServer].
  destruct (String.eqb (hostname sv) h) eqn:Eh;
    destruct (String.eqb (hostname sv) k) eqn:Ek; cbn [updateServer].
  - apply String.eqb_eq in Eh, Ek. rewrite <- Eh, <- Ek, String.eqb_refl in Ehk.
    discriminate Ehk.
  - rewrite f_hostname, Ek, Eh. reflexivity.
  - rewrite f_hostname, Ek, Eh. reflexivity.
  - rewrite Eh, Ek, IH. reflexivity.
Qed.

Hypothesis f_idem : forall sv, f (f sv) = f sv.

Lemma updateServer_idem l h :
  updateServer f (updateServer f l h) h = updateServer f l h.
Proof.
  induction l as [| sv r IH]; [reflexivity |]. cbn [updateServer].
  destruct (String.eqb (hostname sv) h) eqn:Eh; cbn [updateServer].
  - rewrite f_hostname, Eh, f_idem. reflexivity.
  - rewrite Eh, IH. reflexivity.
Qed.

End Update.

(** *** autoNuke and [consider] on the world *)

Lemma findServer_autoNuke w h k :
  findServer (servers (autoNuke w h)) k
  = if String.eqb k h
    then option_map (autoNukeServer (programs w)) (findServer (servers w) k)
    else findServer (servers w) k.
Proof.
  unfold autoNuke. cbn [servers].
  apply findServer_updateServer. apply hostname_autoNukeServer.
Qed.

Lemma autoNuke_idem w h : autoNuke (autoNuke w h) h = autoNuke w h.
Proof.
  unfold autoNuke. cbn [servers hackingLevel programs]. f_equal.
  apply updateServer_idem;
    [apply hostname_autoNukeServer | apply autoNukeServer_idem].
Qed.

Lemma autoNuke_comm w h k :
  autoNuke (autoNuke w h) k = autoNuke (autoNuke w k) h.
Proof.
  unfold autoNuke. cbn [servers hackingLevel programs]. f_equal.
  apply updateServer_comm. apply hostname_autoNukeServer.
Qed.

(** The reads that autoNuke does not change, for every server. *)
Lemma autoNuke_reads w h k :
  scan (autoNuke w h) k = scan w k
  /\ getServerMaxMoney (autoNuke w h) k = getServerMaxMoney w k
  /\ getServerRequiredHackingLevel (autoNuke w h) k
     = getServerRequiredHackingLevel w k
  /\ hackAnalyzeChance (autoNuke w h) k = hackAnalyzeChance w k
  /\ getServerMaxRam (autoNuke w h) k = getServerMaxRam w k
  /\ (rooted w k = true -> rooted (autoNuke w h) k = true).
Proof.
  unfold scan, getServerMaxMoney, getServerRequiredHackingLevel,
    hackAnalyzeChance, getServerMaxRam, rooted.
  rewrite findServer_autoNuke.
  destruct (String.eqb k h); [| repeat split; auto].
  destruct (findServer (servers w) k) as [sv |]; cbn [option_map];
    [| repeat split; auto].
  apply autoNukeServer_keeps.
Qed.

Lemma blocked_autoNuke w h k : blocked (autoNuke w h) k = blocked w k.
Proof.
  unfold blocked. destruct (autoNuke_reads w h k) as (_ & _ & -> & _).
  reflexivity.
Qed.

Lemma consider_split w cand h :
  consider (w, cand) h
  = (considerWorld w h, cand ++ pushed (considerWorld w h) h).
Proof.
  unfold consider, considerWorld, pushed.
  fold (blocked w h). destruct (blocked w h) eqn:Eb.
  - rewrite Eb, app_nil_r. reflexivity.
  - rewrite blocked_autoNuke, Eb.
    destruct (negb (rooted (autoNuke w h) h)); [rewrite app_nil_r; reflexivity |].
    destruct (leb (hackAnalyzeChance (autoNuke w h) h) 0);
      [rewrite app_nil_r; reflexivity | reflexivity].
Qed.

Lemma blocked_considerWorld w h k : blocked (considerWorld w h) k = blocked w k.
Proof.
  unfold considerWorld. destruct (blocked w h); [reflexivity |].
  apply blocked_autoNuke.
Qed.

Lemma considerWorld_idem w h :
  considerWorld (considerWorld w h) h = considerWorld w h.
Proof.
  unfold considerWorld at 1. rewrite blocked_considerWorld.
  unfold considerWorld. destruct (blocked w h); [reflexivity |].
  apply autoNuke_idem.
Qed.

Lemma considerWorld_comm w h k :
  considerWorld (considerWorld w h) k = considerWorld (considerWorld w k) h.
Proof.
  unfold considerWorld at 1 3. rewrite !blocked_considerWorld.
  unfold considerWorld.
  destruct (blocked w h), (blocked w k); try reflexivity.
  apply autoNuke_comm.
Qed.

(** The reads that a whole run of [consider] leaves unchanged. *)
Lemma considerWorld_reads w h k :
  scan (considerWorld w h) k = scan w k
  /\ getServerMaxMoney (considerWorld w h) k = getServerMaxMoney w k
  /\ getServerRequiredHackingLevel (considerWorld w h) k
     = getServerRequiredHackingLevel w k
  /\ hackAnalyzeChance (considerWorld w h) k = hackAnalyzeChance w k
  /\ getServerMaxRam (considerWorld w h) k = getServerMaxRam w k
  /\ (rooted w k = true -> rooted (considerWorld w h) k = true).
Proof.
  unfold considerWorld. destruct (blocked w h); [repeat split; auto |].
  apply autoNuke_reads.
Qed.

Lemma considerWorld_static w h :
  hackingLevel (considerWorld w h) = hackingLevel w
  /\ programs (considerWorld w h) = programs w
  /\ universe (considerWorld w h) = universe w.
Proof.
  unfold considerWorld. destruct (blocked w h); [repeat split; reflexivity |].
  split; [reflexivity | split; [reflexivity |]].
  unfold universe, autoNuke. cbn [servers]. f_equal.
  induction (servers w) as [| sv r IH]; [reflexivity |]. cbn [updateServer].
  destruct (String.eqb (hostname sv) h); cbn [flat_map].
  - destruct (autoNukeServer_keeps (programs w) sv) as (-> & _). reflexivity.
  - rewrite IH. reflexivity.
Qed.

(** The run of the loop, by worlds and by pushes. *)
Lemma fold_consider l : forall w cand,
  fold_left consider l (w, cand)
  = (fold_left considerWorld l w,
     cand ++ snd (fold_left consider l (w, []))).
Proof.
  induction l as [| h l IH]; intros w cand; cbn [fold_left].
  - cbn [snd]. rewrite app_nil_r. reflexivity.
  - rewrite !consider_split. rewrite IH.
    rewrite (IH (considerWorld w h) ([] ++ pushed (considerWorld w h) h)).
    cbn [snd app]. rewrite app_assoc. reflexivity.
Qed.

Lemma fold_considerWorld_comm l : forall w h,
  considerWorld (fold_left considerWorld l w) h
  = fold_left considerWorld l (considerWorld w h).
Proof.
  induction l as [| k l IH]; intros w h; cbn [fold_left]; [reflexivity |].
  rewrite IH, considerWorld_comm. reflexivity.
Qed.

(** Once considered, a host is left as it is by the rest of the run. *)
Lemma fold_considerWorld_settled l : forall w h,
  In h l ->
  considerWorld (fold_left considerWorld l w) h = fold_left considerWorld l w.
Proof.
  induction l as [| k l IH]; intros w h Hin; [contradiction |].
  cbn [fold_left]. destruct Hin as [<- | Hin].
  - rewrite fold_considerWorld_comm, considerWorld_idem. reflexivity.
  - apply IH. exact Hin.
Qed.

(** What [consider] pushes for [h] reads the server [h] only, and the
    player's level. *)
Lemma pushed_ext w1 w2 h :
  findServer (servers w1) h = findServer (servers w2) h ->
  hackingLevel w1 = hackingLevel w2 ->
  pushed w1 h = pushed w2 h.
Proof.
  intros Hs Hl.
  unfold pushed, blocked, candidateScore, rooted, hackAnalyzeChance,
    getServerRequiredHackingLevel, getServerMaxMoney.
  rewrite Hs, Hl. reflexivity.
Qed.

(** A settled host reads the same after any other host is considered. *)
Lemma findServer_considerWorld_settled w h k :
  considerWorld w h = w ->
  findServer (servers (considerWorld w k)) h = findServer (servers w) h.
Proof.
  intros Hset. destruct (String.eqb h k) eqn:E.
  - apply String.eqb_eq in E. subst k. rewrite Hset. reflexivity.
  - unfold considerWorld. destruct (blocked w k); [reflexivity |].
    rewrite findServer_autoNuke, E. reflexivity.
Qed.

Lemma findServer_fold_settled l : forall w h,
  considerWorld w h = w ->
  findServer (servers (fold_left considerWorld l w)) h = findServer (servers w) h.
Proof.
  induction l as [| k l IH]; intros w h Hset; cbn [fold_left]; [reflexivity |].
  rewrite IH.
  - apply findServer_considerWorld_settled. exact Hset.
  - rewrite considerWorld_comm, Hset. reflexivity.
Qed.

Lemma fold_considerWorld_level l : forall w,
  hackingLevel (fold_left considerWorld l w) = hackingLevel w.
Proof.
  induction l as [| k l IH]; intros w; cbn [fold_left]; [reflexivity |].
  rewrite IH. apply considerWorld_static.
Qed.

(** The candidates of a run can be read off the world the run ends in. *)
Lemma fold_consider_pushes l : forall w,
  snd (fold_left consider l (w, []))
  = flat_map (pushed (fold_left considerWorld l w)) l.
Proof.
  induction l as [| h l IH]; intros w; [reflexivity |].
  cbn [fold_left flat_map]. rewrite consider_split, fold_consider.
  cbn [snd app]. rewrite IH. f_equal.
  apply pushed_ext.
  - symmetry. apply findServer_fold_settled. apply considerWorld_idem.
  - symmetry. apply fold_considerWorld_level.
Qed.

(** A second run over the same hosts changes nothing and pushes the same. *)
Lemma fold_considerWorld_again l w :
  let w' := fold_left considerWorld l w in
  fold_left considerWorld l w' = w'.
Proof.
  intros w'.
  assert (G : forall l', (forall h, In h l' -> In h l) ->
              fold_left considerWorld l' w' = w').
  { induction l' as [| h l' IH]; intros Hsub; [reflexivity |].
    cbn [fold_left]. unfold w' at 1.
    rewrite fold_considerWorld_settled by (apply Hsub; left; reflexivity).
    apply IH. intros k Hk. apply Hsub. right. exact Hk. }
  apply G. auto.
Qed.

(** The reads a run leaves unchanged, and the root access it only adds. *)
Lemma fold_considerWorld_reads l : forall w k,
  let w' := fold_left considerWorld l w in
  scan w' k = scan w k
  /\ getServerMaxMoney w' k = getServerMaxMoney w k
  /\ getServerRequiredHackingLevel w' k = getServerRequiredHackingLevel w k
  /\ hackAnalyzeChance w' k = hackAnalyzeChance w k
  /\ getServerMaxRam w' k = getServerMaxRam w k
  /\ (rooted w k = true -> rooted w' k = true).
Proof.
  induction l as [| h l IH]; intros w k; cbn [fold_left]; [repeat split; auto |].
  cbv zeta.
  destruct (IH (considerWorld w h) k) as (A1 & A2 & A3 & A4 & A5 & A6).
  destruct (considerWorld_reads w h k) as (B1 & B2 & B3 & B4 & B5 & B6).
  rewrite A1, A2, A3, A4, A5. repeat split; auto.
Qed.

Lemma fold_considerWorld_static l : forall w,
  hackingLevel (fold_left considerWorld l w) = hackingLevel w
  /\ programs (fold_left considerWorld l w) = programs w
  /\ universe (fold_left considerWorld l w) = universe w.
Proof.
  induction l as [| h l IH]; intros w; cbn [fold_left]; [repeat split; reflexivity |].
  destruct (IH (considerWorld w h)) as (A1 & A2 & A3).
  destruct (considerWorld_static w h) as (B1 & B2 & B3).
  rewrite A1, A2, A3. repeat split; assumption.
Qed.

(** The walk reads the world through [scan] only. *)
Lemma scanLoop_ext w1 w2 :
  (forall h, scan w1 h = scan w2 h) ->
  forall fuel seen stack,
    scanLoop w1 fuel seen stack = scanLoop w2 fuel seen stack.
Proof.
  intros Hscan. induction fuel as [| fuel IH]; intros seen stack; [reflexivity |].
  cbn [scanLoop]. destruct stack as [| h rest]; [reflexivity |].
  rewrite Hscan. destruct (fold_left visit (scan w2 h) (seen, rest)).
  apply IH.
Qed.

(** The hosts the selection looks at are the same after a run. *)
Lemma moneyHosts_after_run l w :
  moneyHosts (fold_left considerWorld l w) = moneyHosts w.
Proof.
  unfold moneyHosts, scanAll, scanFuel.
  destruct (fold_considerWorld_static l w) as (_ & _ & ->).
  rewrite (scanLoop_ext (fold_left considerWorld l w) w)
    by (intros h; apply (fold_considerWorld_reads l w h)).
  apply filter_ext. intros h.
  destruct (fold_considerWorld_reads l w h) as (_ & -> & _). reflexivity.
Qed.

(** pickTargetsAndStrategy, by the world it ends in. *)
Lemma pick_unfold w :
  pickTargetsAndStrategy w
  = (decide (firstn POOL (sortByScore
       (flat_map (pushed (fold_left considerWorld (moneyHosts w) w))
                 (moneyHosts w)))),
     fold_left considerWorld (moneyHosts w) w).
Proof.
  unfold pickTargetsAndStrategy.
  rewrite fold_consider. cbn [app].
  rewrite fold_consider_pushes. reflexivity.
Qed.

Lemma pick_again w :
  pickTargetsAndStrategy (fold_left considerWorld (moneyHosts w) w)
  = pickTargetsAndStrategy w.
Proof.
  rewrite (pick_unfold w).
  rewrite (pick_unfold (fold_left considerWorld (moneyHosts w) w)).
  rewrite moneyHosts_after_run.
  rewrite (fold_considerWorld_again (moneyHosts w) w). reflexivity.
Qed.

(** On any state whatever, the selection is a function of the game
    state (it draws no random number and reads no clock), and calling it
    again on the state it leaves returns the same strategy and changes
    nothing more.  What it leaves untouched is the player's level and
    programs and, for every server, the neighbours, money, required
    level, hack chance and RAM; root access is only ever gained. *)
Theorem selection_repeatable (w : World) :
  pickTargetsAndStrategy (snd (pickTargetsAndStrategy w))
  = pickTargetsAndStrategy w
  /\ hackingLevel (snd (pickTargetsAndStrategy w)) = hackingLevel w
  /\ programs (snd (pickTargetsAndStrategy w)) = programs w
  /\ forall k,
       scan (snd (pickTargetsAndStrategy w)) k = scan w k
       /\ getServerMaxMoney (snd (pickTargetsAndStrategy w)) k
          = getServerMaxMoney w k
       /\ getServerRequiredHackingLevel (snd (pickTargetsAndStrategy w)) k
          = getServerRequiredHackingLevel w k
       /\ hackAnalyzeChance (snd (pickTargetsAndStrategy w)) k
          = hackAnalyzeChance w k
       /\ getServerMaxRam (snd (pickTargetsAndStrategy w)) k
          = getServerMaxRam w k
       /\ (rooted w k = true -> rooted (snd (pickTargetsAndStrategy w)) k = true).
Proof.
  assert (E : snd (pickTargetsAndStrategy w)
              = fold_left considerWorld (moneyHosts w) w)
    by (rewrite pick_unfold; reflexivity).
  rewrite E. split; [| split; [| split]].
  - apply pick_again.
  - apply fold_considerWorld_static.
  - apply fold_considerWorld_static.
  - intros k. apply (fold_considerWorld_reads (moneyHosts w) w k).
Qed.

(** On a state that autoNuke has not gone over, the autoNuke calls of
    the selection do act: on the sample network, taken as it is, the
    selection roots n00dles, which needs no open port.  The main loop
    never passes such a state (ControllerMore.nukeAll_settled). *)
Lemma selection_roots_a_server :
  rooted Samples.network "n00dles" = false
  /\ rooted (snd (pickTargetsAndStrategy Samples.network)) "n00dles" = true
  /\ snd (pickTargetsAndStrategy Samples.network) <> Samples.network.
Proof.
  split; [reflexivity | split; [vm_compute; reflexivity |]].
  intros H.
  assert (R : rooted (snd (pickTargetsAndStrategy Samples.network)) "n00dles"
              = rooted Samples.network "n00dles") by (rewrite H; reflexivity).
  vm_compute in R. discriminate R.
Qed.

Lemma selection_repeatable_witness :
  fst (pickTargetsAndStrategy Samples.network)
  = mkStrategy None ["foodnstuff"; "n00dles"]%string
  /\ pickTargetsAndStrategy (snd (pickTargetsAndStrategy Samples.network))
     = pickTargetsAndStrategy Samples.network.
Proof.
  split; [vm_compute; reflexivity |].
  exact (proj1 (selection_repeatable Samples.network)).
Defined.


(** *** Assignment *)

(** The branch after the first [if]: with secondaries and a name that
    matches, the index is the parsed number modulo the length. *)
Lemma assign_by_index (w : World) (serverName : string) (targets : Strategy)
                      (rand : nat -> Q) (d : string) :
  secondaries targets <> [] ->
  matchPserv serverName = Some d ->
  run (primaryChosen (getServerMaxRam w serverName) targets) rand = false ->
  run (assignTargetForServer w serverName targets) rand
  = nth_error (secondaries targets)
      (N.to_nat (parseInt d mod N.of_nat (List.length (secondaries targets)))).
Proof.
  intros Hsecs Hm Hnot.
  unfold run, assignTargetForServer, bind in *.
  destruct (primaryChosen (getServerMaxRam w serverName) targets rand O)
    as [viaPrimary k].
  cbn [fst] in Hnot. subst viaPrimary.
  destruct (secondaries targets) as [| t0 rest]; [contradiction |].
  rewrite Hm. reflexivity.
Qed.

Lemma index_in_range (n : N) (l : list string) :
  l <> [] -> exists t, nth_error l (N.to_nat (n mod N.of_nat (List.length l))) = Some t.
Proof.
  intros Hl.
  assert (Hlen : (N.of_nat (List.length l) <> 0)%N).
  { destruct l; [contradiction | cbn [List.length]; lia]. }
  pose proof (N.mod_lt n _ Hlen) as Hlt.
  destruct (nth_error l (N.to_nat (n mod N.of_nat (List.length l)))) eqn:E;
    [eexists; reflexivity |].
  apply nth_error_None in E. lia.
Qed.

(** C9: with secondaries, a host name matching [pserv-(digits)] and the
    primary not taken, the host gets the secondary at the parsed index
    modulo the number of secondaries; any other call for the same name and
    list that does not take the primary, whatever the game state and the
    random draws, returns that same secondary.  The index is taken below
    2^53, where [parseInt] is exact. *)
Theorem secondary_by_host_index (w : World) (serverName : string)
    (targets : Strategy) (rand : nat -> Q) (d : string) :
  secondaries targets <> [] ->
  matchPserv serverName = Some d ->
  (parseInt d < 2 ^ 53)%N ->
  run (primaryChosen (getServerMaxRam w serverName) targets) rand = false ->
  (exists t,
     nth_error (secondaries targets)
       (N.to_nat (parseInt d mod N.of_nat (List.length (secondaries targets))))
     = Some t
     /\ run (assignTargetForServer w serverName targets) rand = Some t)
  /\ forall (w' : World) (rand' : nat -> Q),
       run (primaryChosen (getServerMaxRam w' serverName) targets) rand' = false ->
       run (assignTargetForServer w' serverName targets) rand'
       = run (assignTargetForServer w serverName targets) rand.
Proof.
  intros Hsecs Hm _ Hnot.
  pose proof (assign_by_index w serverName targets rand d Hsecs Hm Hnot) as E.
  destruct (index_in_range (parseInt d) (secondaries targets) Hsecs) as [t Ht].
  split.
  - exists t. split; [exact Ht | rewrite E; exact Ht].
  - intros w' rand' Hnot'. rewrite E.
    apply (assign_by_index w' serverName targets rand' d Hsecs Hm Hnot').
Qed.

(** A name made of [pserv-] and digits matches with those digits. *)
Lemma matchPserv_pserv (ds : string) :
  takeDigits ds = ds -> ds <> EmptyString ->
  matchPserv ("pserv-" ++ ds)%string = Some ds.
Proof.
  intros Hd Hne.
  change (matchPserv ("pserv-" ++ ds)%string)
    with (match match takeDigits ds with
                | EmptyString => None
                | d => Some d
                end, ("pserv-" ++ ds)%string with
          | Some d, _ => Some d
          | None, String _ r => matchPserv r
          | None, EmptyString => None
          end).
  rewrite Hd. destruct ds; [contradiction | reflexivity].
Qed.

Lemma secondary_by_host_index_witness :
  matchPserv "pserv-7" = Some "7"%string
  /\ run (primaryChosen (getServerMaxRam Samples.network "pserv-7") Samples.spread)
         (fun _ => 0.5) = false
  /\ run (assignTargetForServer Samples.network "pserv-7" Samples.spread)
         (fun _ => 0.5) = Some "foodnstuff"%string.
Proof.
  assert (H1 : secondaries Samples.spread <> []) by discriminate.
  assert (H2 : matchPserv "pserv-7" = Some "7"%string) by reflexivity.
  assert (H3 : (parseInt "7" < 2 ^ 53)%N) by reflexivity.
  assert (H4 : run (primaryChosen (getServerMaxRam Samples.network "pserv-7")
                      Samples.spread) (fun _ => 0.5) = false) by reflexivity.
  split; [exact H2 | split; [exact H4 |]].
  destruct (secondary_by_host_index Samples.network "pserv-7" Samples.spread
              (fun _ => 0.5) "7" H1 H2 H3 H4) as [(t & Ht & Hrun) _].
  rewrite Hrun, <- Ht. reflexivity.
Defined.

End ControllerFacts.

(** ** More on the batcher *)

Module BatcherMore.

Import JsMath JsMathFacts Batcher BatcherFacts.

(** *** BASE_HACK_PCT over the passes *)

(** Lines 116-139 keep a percent of 0.001 or more between 0.001 and what
    it was. *)
Lemma capTotal_basePct_range (logRatio : Q -> Q) (maxTotal : Q) (e : Env) (p : Plan) :
  (1 <= concurrency p)%Z -> 0.001 <= basePct p ->
  0.001 <= basePct (capTotal logRatio maxTotal e p)
  /\ basePct (capTotal logRatio maxTotal e p) <= basePct p.
Proof.
  intros Hc Hb. unfold capTotal.
  rewrite Zle_Qle in Hc. change (inject_Z 1) with 1 in Hc.
  destruct (ltb maxTotal (inject_Z (concurrency p) * basePct p)) eqn:E;
    [| split; [exact Hb | apply Qle_refl]].
  apply ltb_true in E. cbn [basePct]. split; [apply Q.le_max_l |].
  apply Q.max_lub; [exact Hb |].
  apply Qle_shift_div_r; [lra |]. rewrite Qmult_comm. apply Qlt_le_weak. exact E.
Qed.

Lemma cycle_basePct_range (logRatio : Q -> Q) (maxTotal : Q) (st st' : State)
    (e : Env) (now : Z) (clock : nat -> BatchClock) (out : list Exec) :
  cycle logRatio maxTotal st e now clock = Some (st', out) ->
  0.001 <= BASE_HACK_PCT st ->
  0.001 <= BASE_HACK_PCT st' /\ BASE_HACK_PCT st' <= BASE_HACK_PCT st.
Proof.
  intros Hcyc Hb.
  assert (E : BASE_HACK_PCT st'
              = basePct (plan logRatio (BASE_HACK_PCT st) maxTotal e)).
  { unfold cycle in Hcyc. destruct (serverExists e); [| discriminate Hcyc].
    cbv zeta in Hcyc.
    generalize dependent (plan logRatio (BASE_HACK_PCT st) maxTotal e).
    intros p Hcyc. injection Hcyc as <- _. reflexivity. }
  rewrite E, plan_basePct.
  pose proof (capTotal_basePct_range logRatio maxTotal e
                (unscaled logRatio (BASE_HACK_PCT st) e)
                (unscaled_concurrency_pos logRatio _ e)) as R.
  rewrite unscaled_basePct in R. exact (R Hb).
Qed.

(** X1: over any number of passes, whatever each pass reads, a
    BASE_HACK_PCT that starts at 0.001 or more never rises again and never
    goes below 0.001: a pass can only lower it, and nothing restores the
    configured value. *)
Theorem percent_only_falls (logRatio : Q -> Q) (maxTotal : Q)
    (ticks : list BatcherLoop.Tick) (st : State) :
  0.001 <= BASE_HACK_PCT st ->
  0.001 <= BASE_HACK_PCT (fst (BatcherLoop.passes logRatio maxTotal st ticks))
  /\ BASE_HACK_PCT (fst (BatcherLoop.passes logRatio maxTotal st ticks))
     <= BASE_HACK_PCT st.
Proof.
  revert st. induction ticks as [| t rest IH]; intros st Hb; cbn [BatcherLoop.passes].
  - cbn [fst]. split; [exact Hb | apply Qle_refl].
  - destruct (cycle logRatio maxTotal st (BatcherLoop.env t) (BatcherLoop.now t)
                (BatcherLoop.clock t)) as [[st' out] |] eqn:E.
    + destruct (cycle_basePct_range _ _ _ _ _ _ _ _ E Hb) as [Hlo Hhi].
      specialize (IH st' Hlo).
      destruct (BatcherLoop.passes logRatio maxTotal st' rest) as [final outs].
      cbn [fst] in *. split; [apply IH | eapply Qle_trans; [apply IH | exact Hhi]].
    + cbn [fst]. split; [exact Hb | apply Qle_refl].
Qed.

(** *** The size of the scaled-down batch *)

(** A scaled count is at most its share plus one. *)
Lemma scaleRound_upper (v : Z) (s : Q) :
  (1 <= v)%Z -> 0 <= s -> inject_Z (scaleRound s v) <= inject_Z v * s + 1.
Proof.
  intros Hv Hs. unfold scaleRound.
  rewrite Zle_Qle in Hv. change (inject_Z 1) with 1 in Hv.
  assert (Hx : 0 <= inject_Z v * s) by (apply Qmult_le_0_compat; lra).
  destruct (floor_bounds (inject_Z v * s)) as [Hlo _].
  destruct (Z.max_spec 1 (floor (inject_Z v * s))) as [[_ ->] | [_ ->]].
  - lra.
  - change (inject_Z 1) with 1. lra.
Qed.

(** X2: when the batch planned at lines 59-139 does not fit the free RAM
    but is at most a hundred times too big, the batch the pass ends with
    after the scale-down costs more than half of the free RAM and exceeds
    it by at most the cost of the smallest batch (one thread per stage). *)
Theorem scaled_batch_size (logRatio : Q -> Q) (base maxTotal : Q) (e : Env) :
  scriptsCostRam e ->
  freeRamOf e
  < ramPerBatch (capTotal logRatio maxTotal e (unscaled logRatio base e)) ->
  0.01 * ramPerBatch (capTotal logRatio maxTotal e (unscaled logRatio base e))
  <= freeRamOf e ->
  freeRamOf e < 2 * ramPerBatch (plan logRatio base maxTotal e)
  /\ ramPerBatch (plan logRatio base maxTotal e)
     <= freeRamOf e + (ramHack e + ramGrow e + 2 * ramWeaken e).
Proof.
  intros Hcosts Hbig Hnear.
  unfold plan, packed. rewrite finalSafety_ramPerBatch.
  pose proof (capTotal_wellSized logRatio maxTotal e _
                (unscaled_wellSized logRatio base e)) as Hw.
  pose proof (capTotal_priced logRatio e maxTotal _
                (unscaled_priced logRatio e Hcosts base)) as Hp.
  pose proof (capTotal_freeRam logRatio maxTotal e (unscaled logRatio base e)) as Hf.
  rewrite unscaled_freeRam in Hf.
  generalize dependent (capTotal logRatio maxTotal e (unscaled logRatio base e)).
  intros p Hbig Hnear Hw Hp Hf.
  pose proof (priced_ram_pos e Hcosts p Hw Hp) as Hram.
  pose proof (freeRamOf_nonneg e) as Hfree.
  unfold scaleDown. rewrite Hf.
  assert (Hc : ltb (freeRamOf e) (ramPerBatch p) = true) by (apply ltb_true; exact Hbig).
  rewrite Hc, orb_true_r. cbn [ramPerBatch].
  set (s := freeRamOf e / ramPerBatch p).
  assert (Hs0 : 0 <= s) by (apply Qle_shift_div_l; lra).
  assert (Hs1 : s < 1) by (apply Qlt_shift_div_r; lra).
  assert (Hs2 : 0.01 <= s) by (apply Qle_shift_div_l; lra).
  assert (Es : freeRamOf e == s * ramPerBatch p) by (unfold s; field; lra).
  assert (Escale : Qmax 0.01 s == s) by (apply Q.max_r; exact Hs2).
  destruct Hw as (H1 & H2 & H3 & H4).
  destruct Hcosts as (Rh & Rg & Rw).
  pose proof (scaleRound_half _ s (Qmax 0.01 s) H1 Hs0 (Q.le_max_r _ _) Hs1) as A1.
  pose proof (scaleRound_half _ s (Qmax 0.01 s) H2 Hs0 (Q.le_max_r _ _) Hs1) as A2.
  pose proof (scaleRound_half _ s (Qmax 0.01 s) H3 Hs0 (Q.le_max_r _ _) Hs1) as A3.
  pose proof (scaleRound_half _ s (Qmax 0.01 s) H4 Hs0 (Q.le_max_r _ _) Hs1) as A4.
  assert (Hmax0 : 0 <= Qmax 0.01 s) by (rewrite Escale; exact Hs0).
  pose proof (scaleRound_upper _ (Qmax 0.01 s) H1 Hmax0) as U1.
  pose proof (scaleRound_upper _ (Qmax 0.01 s) H2 Hmax0) as U2.
  pose proof (scaleRound_upper _ (Qmax 0.01 s) H3 Hmax0) as U3.
  pose proof (scaleRound_upper _ (Qmax 0.01 s) H4 Hmax0) as U4.
  assert (M : forall x, x * Qmax 0.01 s == x * s)
    by (intros x; rewrite Escale; reflexivity).
  rewrite M in U1, U2, U3, U4.
  rewrite Es, Hp. unfold ramOf.
  set (h' := inject_Z (scaleRound (Qmax 0.01 s) (hackThreads p))) in *.
  set (g' := inject_Z (scaleRound (Qmax 0.01 s) (growThreads p))) in *.
  set (w1' := inject_Z (scaleRound (Qmax 0.01 s) (weaken1Threads p))) in *.
  set (w2' := inject_Z (scaleRound (Qmax 0.01 s) (weaken2Threads p))) in *.
  assert (B1 : inject_Z (hackThreads p) * s * ramHack e < 2 * h' * ramHack e)
    by (apply Qmult_lt_compat_r; assumption).
  assert (B2 : inject_Z (growThreads p) * s * ramGrow e < 2 * g' * ramGrow e)
    by (apply Qmult_lt_compat_r; assumption).
  assert (B3 : inject_Z (weaken1Threads p) * s * ramWeaken e < 2 * w1' * ramWeaken e)
    by (apply Qmult_lt_compat_r; assumption).
  assert (B4 : inject_Z (weaken2Threads p) * s * ramWeaken e < 2 * w2' * ramWeaken e)
    by (apply Qmult_lt_compat_r; assumption).
  assert (C1 : h' * ramHack e <= (inject_Z (hackThreads p) * s + 1) * ramHack e)
    by (apply Qmult_le_compat_r; lra).
  assert (C2 : g' * ramGrow e <= (inject_Z (growThreads p) * s + 1) * ramGrow e)
    by (apply Qmult_le_compat_r; lra).
  assert (C3 : w1' * ramWeaken e <= (inject_Z (weaken1Threads p) * s + 1) * ramWeaken e)
    by (apply Qmult_le_compat_r; lra).
  assert (C4 : w2' * ramWeaken e <= (inject_Z (weaken2Threads p) * s + 1) * ramWeaken e)
    by (apply Qmult_le_compat_r; lra).
  split; lra.
Qed.

Lemma scaled_batch_size_witness :
  scriptsCostRam Samples.smallHost
  /\ freeRamOf Samples.smallHost == 3.92
  /\ ramPerBatch (plan Samples.unusedLog 0.02 0.2 Samples.smallHost) == 6.95
  /\ freeRamOf Samples.smallHost
     < 2 * ramPerBatch (plan Samples.unusedLog 0.02 0.2 Samples.smallHost).
Proof.
  assert (H0 : scriptsCostRam Samples.smallHost) by (repeat split; reflexivity).
  split; [exact H0 |]. split; [reflexivity |]. split; [vm_compute; reflexivity |].
  apply (scaled_batch_size Samples.unusedLog 0.02 0.2 Samples.smallHost H0).
  - vm_compute. reflexivity.
  - vm_compute. discriminate.
Defined.

Lemma percent_only_falls_witness :
  let ticks := [ BatcherLoop.mkTick Samples.bigHost 0 (Samples.frozenClock 0);
                 BatcherLoop.mkTick Samples.bigHost 900 (Samples.frozenClock 900) ] in
  BASE_HACK_PCT (fst (BatcherLoop.passes Samples.unusedLog 0.2 (mkState 0.02) ticks))
  == 0.2 / 147
  /\ BASE_HACK_PCT (fst (BatcherLoop.passes Samples.unusedLog 0.2 (mkState 0.02) ticks))
     <= 0.02.
Proof.
  cbv zeta. split; [vm_compute; reflexivity |].
  apply (percent_only_falls Samples.unusedLog 0.2 _ (mkState 0.02)).
  vm_compute. discriminate.
Defined.

(** *** Thread counts against what they are for *)

(** X3: the hack thread count of line 61, for a per-thread yield of
    1e-12 or more and a division returned to within the unit roundoff of
    a double.  It is the least positive thread count that takes the
    wanted percent, up to that roundoff: the threads together take the
    percent less at most one unit roundoff of it, and one thread less
    (when there are several) takes less than the percent plus one unit
    roundoff of it.  [hackThreadsFor] is the count for the exact
    quotient. *)
Theorem hack_threads_least (base perHack quotient : Q) :
  1e-12 <= perHack ->
  BatcherRounding.roundedTo (base / Qmax 1e-12 perHack) quotient ->
  base - BatcherRounding.UNIT_ROUNDOFF * Qabs base
  <= inject_Z (BatcherRounding.hackThreadsFrom quotient) * perHack
  /\ ((1 < BatcherRounding.hackThreadsFrom quotient)%Z ->
      (inject_Z (BatcherRounding.hackThreadsFrom quotient) - 1) * perHack
      < base + BatcherRounding.UNIT_ROUNDOFF * Qabs base)
  /\ hackThreadsFor base perHack
     = BatcherRounding.hackThreadsFrom (base / Qmax 1e-12 perHack).
Proof.
  intros Hp Hr.
  assert (Hpos : 0 < perHack) by (eapply Qlt_le_trans; [| exact Hp]; reflexivity).
  assert (Ed : Qmax 1e-12 perHack == perHack) by (apply Q.max_r; exact Hp).
  unfold BatcherRounding.roundedTo in Hr.
  assert (Ex : base / Qmax 1e-12 perHack == base / perHack)
    by (rewrite Ed; reflexivity).
  rewrite Ex in Hr.
  set (u := BatcherRounding.UNIT_ROUNDOFF) in *.
  set (x := base / perHack) in *.
  assert (Eb : base == x * perHack) by (unfold x; field; lra).
  assert (Ea : Qabs base == Qabs x * perHack).
  { rewrite Eb, Qabs_Qmult. rewrite (Qabs_pos perHack) by lra. reflexivity. }
  apply Qabs_Qle_condition in Hr. destruct Hr as [Hlo Hhi].
  unfold BatcherRounding.hackThreadsFrom, ceil.
  pose proof (Qle_ceiling quotient) as Hup.
  pose proof (Qceiling_lt quotient) as Hlow.
  split; [| split; [| reflexivity]].
  - assert (Hn : quotient <= inject_Z (Z.max 1 (Qceiling quotient))).
    { eapply Qle_trans; [exact Hup |]. rewrite <- Zle_Qle. lia. }
    assert (Hx : x - u * Qabs x <= inject_Z (Z.max 1 (Qceiling quotient))) by lra.
    assert (Hm : (x - u * Qabs x) * perHack
                 <= inject_Z (Z.max 1 (Qceiling quotient)) * perHack)
      by (apply Qmult_le_compat_r; lra).
    rewrite Ea. rewrite Eb at 1.
    eapply Qle_trans; [| exact Hm]. ring_simplify. apply Qle_refl.
  - intros Hgt. rewrite Z.max_r in * by lia.
    unfold Zminus in Hlow. rewrite inject_Z_plus in Hlow.
    change (inject_Z (- (1))) with (- (1)) in Hlow.
    assert (Hx : inject_Z (Qceiling quotient) - 1 < x + u * Qabs x) by lra.
    assert (Hm : (inject_Z (Qceiling quotient) - 1) * perHack
                 < (x + u * Qabs x) * perHack)
      by (apply Qmult_lt_compat_r; lra).
    rewrite Ea. rewrite Eb.
    eapply Qlt_le_trans; [exact Hm |]. ring_simplify. apply Qle_refl.
Qed.

Lemma weakenThreadsFor_covers (n : Z) (inc : Q) :
  inject_Z n * inc <= inject_Z (weakenThreadsFor n inc) * SEC_DEC_WEAK.
Proof.
  unfold weakenThreadsFor, ceil.
  pose proof (Qle_ceiling (inject_Z n * inc / SEC_DEC_WEAK)) as Hup.
  assert (Hn : inject_Z n * inc / SEC_DEC_WEAK
               <= inject_Z (Z.max 1 (Qceiling (inject_Z n * inc / SEC_DEC_WEAK)))).
  { eapply Qle_trans; [exact Hup |]. rewrite <- Zle_Qle. lia. }
  assert (Ew : inject_Z n * inc == inject_Z n * inc / SEC_DEC_WEAK * SEC_DEC_WEAK)
    by (field; discriminate).
  rewrite Ew at 1. apply Qmult_le_compat_r; [exact Hn | discriminate].
Qed.

(** X4: without the [ns.formulas] refinement, a batch that is not scaled
    down carries enough weaken threads for the security its hack threads
    and its grow threads add: 0.05 per weaken thread against 0.002 per
    hack thread and 0.004 per grow thread. *)
Theorem weaken_covers_security (logRatio : Q -> Q) (base maxTotal : Q) (e : Env) :
  formulasHackPercent e = None ->
  ramPerBatch (capTotal logRatio maxTotal e (unscaled logRatio base e))
  <= freeRamOf e ->
  inject_Z (hackThreads (plan logRatio base maxTotal e)) * SEC_INC_HACK
  <= inject_Z (weaken1Threads (plan logRatio base maxTotal e)) * SEC_DEC_WEAK
  /\ inject_Z (growThreads (plan logRatio base maxTotal e)) * SEC_INC_GROW
     <= inject_Z (weaken2Threads (plan logRatio base maxTotal e)) * SEC_DEC_WEAK.
Proof.
  intros Hnone Hfits.
  assert (Hsame : packed logRatio base maxTotal e
                  = capTotal logRatio maxTotal e (unscaled logRatio base e)).
  { unfold packed, scaleDown.
    pose proof (capTotal_fitted logRatio maxTotal e _ (unscaled_fitted logRatio base e))
      as Hfit.
    pose proof (capTotal_freeRam logRatio maxTotal e (unscaled logRatio base e)) as Hf.
    rewrite unscaled_freeRam in Hf.
    generalize dependent (capTotal logRatio maxTotal e (unscaled logRatio base e)).
    intros p Hfits Hfit Hf.
    assert (C1 : (concurrency p <=? 0)%Z = false).
    { apply Z.leb_gt. rewrite Hfit. pose proof (fit_ge_1 (freeRam p) (ramPerBatch p)). lia. }
    assert (C2 : ltb (freeRam p) (ramPerBatch p) = false).
    { apply ltb_false. rewrite Hf. exact Hfits. }
    rewrite C1, C2. reflexivity. }
  unfold plan. rewrite Hsame.
  change (hackThreads (finalSafety ?p)) with (hackThreads p).
  unfold finalSafety. cbn [hackThreads growThreads weaken1Threads weaken2Threads].
  unfold capTotal. destruct (ltb _ _).
  - cbn [hackThreads growThreads weaken1Threads weaken2Threads].
    split; apply weakenThreadsFor_covers.
  - unfold unscaled. cbn [hackThreads growThreads weaken1Threads weaken2Threads].
    unfold refinedPerHack. rewrite Hnone.
    split; apply weakenThreadsFor_covers.
Qed.

Lemma weaken_covers_security_witness :
  formulasHackPercent Samples.bigHost = None
  /\ inject_Z (hackThreads (plan Samples.unusedLog 0.02 0.2 Samples.bigHost))
     * SEC_INC_HACK
     <= inject_Z (weaken1Threads (plan Samples.unusedLog 0.02 0.2 Samples.bigHost))
        * SEC_DEC_WEAK.
Proof.
  split; [reflexivity |].
  apply (weaken_covers_security Samples.unusedLog 0.02 0.2 Samples.bigHost eq_refl).
  vm_compute. discriminate.
Defined.

(** The doubles 0.07 and 0.01, whose quotient the division returns as
    7.000000000000001: eight threads. *)
Lemma hack_threads_least_witness :
  BatcherRounding.hackThreadsFrom (7881299347898369 # 1125899906842624) = 8%Z
  /\ (inject_Z (BatcherRounding.hackThreadsFrom
                  (7881299347898369 # 1125899906842624)) - 1)
     * (5764607523034235 # 576460752303423488)
     < (1261007895663739 # 18014398509481984)
       + BatcherRounding.UNIT_ROUNDOFF
         * Qabs (1261007895663739 # 18014398509481984).
Proof.
  assert (Hp : 1e-12 <= 5764607523034235 # 576460752303423488)
    by (vm_compute; discriminate).
  assert (Hr : BatcherRounding.roundedTo
                 ((1261007895663739 # 18014398509481984)
                  / Qmax 1e-12 (5764607523034235 # 576460752303423488))
                 (7881299347898369 # 1125899906842624))
    by (vm_compute; discriminate).
  destruct (hack_threads_least (1261007895663739 # 18014398509481984)
              (5764607523034235 # 576460752303423488)
              (7881299347898369 # 1125899906842624) Hp Hr) as (_ & Hlow & _).
  split; [reflexivity |]. apply Hlow. reflexivity.
Defined.

(** *** Offsets and start delays *)

Lemma round_mono (x y : Q) : x <= y -> (round x <= round y)%Z.
Proof. intros H. unfold round. apply Qfloor_resp_le. lra. Qed.

(** X5: the offsets of the batches of one pass start at 0 for the first
    batch, do not decrease from one batch to the next and stay within the
    window of 4 * DELTA. *)
Theorem offsets_within_window (c b b' : Z) :
  (0 <= b)%Z -> (b <= b')%Z -> (b' < c)%Z ->
  batchOffset c 0 = 0%Z
  /\ (0 <= batchOffset c b)%Z
  /\ (batchOffset c b <= batchOffset c b')%Z
  /\ (batchOffset c b' <= 4 * DELTA)%Z.
Proof.
  intros H0 Hle Hlt.
  assert (Hc : (Z.max 1 c = c)%Z) by lia.
  assert (Hcq : 0 < inject_Z c).
  { change 0 with (inject_Z 0). rewrite <- Zlt_Qlt. lia. }
  split; [| split; [| split]].
  - unfold batchOffset, round. rewrite Hc.
    assert (E : inject_Z 0 / inject_Z c * inject_Z (DELTA * 4) + 0.5 == 0.5)
      by (field; lra).
    rewrite E. reflexivity.
  - apply batchOffset_nonneg. exact H0.
  - unfold batchOffset. apply round_mono. rewrite Hc.
    apply Qmult_le_compat_r; [| vm_compute; discriminate].
    unfold Qdiv. apply Qmult_le_compat_r.
    + rewrite <- Zle_Qle. exact Hle.
    + apply Qlt_le_weak, Qinv_lt_0_compat. exact Hcq.
  - unfold batchOffset, round. rewrite Hc.
    assert (Hq : inject_Z b' / inject_Z c < 1).
    { apply Qlt_shift_div_r; [exact Hcq |]. rewrite Qmult_1_l, <- Zlt_Qlt. exact Hlt. }
    assert (Hx : inject_Z b' / inject_Z c * inject_Z (DELTA * 4) + 0.5
                 < inject_Z (4 * DELTA + 1)).
    { change (inject_Z (DELTA * 4)) with 1000.
      change (inject_Z (4 * DELTA + 1)) with 1001. lra. }
    apply floor_lt in Hx. unfold floor in Hx. lia.
Qed.

Lemma offsets_within_window_witness :
  batchOffset 3 1 = 333%Z /\ batchOffset 3 2 = 667%Z
  /\ (batchOffset 3 1 <= batchOffset 3 2)%Z /\ (batchOffset 3 2 <= 4 * DELTA)%Z.
Proof.
  split; [reflexivity | split; [reflexivity |]].
  assert (H0 : (0 <= 1)%Z) by lia.
  assert (H1 : (1 <= 2)%Z) by lia.
  assert (H2 : (2 < 3)%Z) by lia.
  destruct (offsets_within_window 3 1 2 H0 H1 H2) as (_ & _ & Hm & Hw).
  split; assumption.
Defined.

(** A stage no longer than the longest one, whose delay is computed from a
    clock reading at most BUFFER after [now], ends (counted from that
    reading) within half a millisecond of the instant aimed at. *)
Lemma stage_lands_late (e : Env) (now c b clk : Z) (T' dur : Q) :
  (0 <= b)%Z -> (now <= clk)%Z -> (clk <= now + BUFFER)%Z ->
  dur <= longestOf e ->
  batchT e now c b <= T' ->
  T' - 0.5 < completion clk (Z.max 0 (round ((T' - dur) - inject_Z clk))) dur
  /\ completion clk (Z.max 0 (round ((T' - dur) - inject_Z clk))) dur <= T' + 0.5.
Proof.
  intros Hb Hlo Hhi Hdur HT.
  pose proof (batchOffset_nonneg c b Hb) as Hoff. rewrite Zle_Qle in Hoff.
  change (inject_Z 0) with 0 in Hoff.
  rewrite Zle_Qle in Hlo, Hhi. rewrite inject_Z_plus in Hhi.
  assert (Hlead : 0 <= (T' - dur) - inject_Z clk).
  { unfold batchT, baseT in HT. lra. }
  destruct (round_bounds ((T' - dur) - inject_Z clk)) as [Rlo Rhi].
  assert (Hpos : (0 <= round ((T' - dur) - inject_Z clk))%Z).
  { change 0%Z with (round 0). apply round_mono. exact Hlead. }
  rewrite Z.max_r by exact Hpos.
  unfold completion. split; lra.
Qed.

(** X6: the order of the four ends of a batch does not need the clock to
    stand still.  When each [Date.now()] read while the batch is scheduled
    is at most BUFFER (1400 ms) after the one of line 159, the stages,
    each counted from the reading its delay was computed from, still end
    in the order hack, weaken, grow, weaken, consecutive ends less than
    one millisecond away from DELTA apart. *)
Theorem order_survives_clock_drift (e : Env) (now c b : Z) (clk : BatchClock) :
  (0 <= b)%Z ->
  (now <= atHack clk <= now + BUFFER)%Z ->
  (now <= atWeaken1 clk <= now + BUFFER)%Z ->
  (now <= atGrow clk <= now + BUFFER)%Z ->
  (now <= atWeaken2 clk <= now + BUFFER)%Z ->
  let T := batchT e now c b in
  let endHack := completion (atHack clk) (hackStartDelay e T clk) (hackTime e) in
  let endWeaken1 :=
    completion (atWeaken1 clk) (weaken1StartDelay e T clk) (weakenTime e) in
  let endGrow := completion (atGrow clk) (growStartDelay e T clk) (growTime e) in
  let endWeaken2 :=
    completion (atWeaken2 clk) (weaken2StartDelay e T clk) (weakenTime e) in
  (endHack < endWeaken1 /\ endWeaken1 < endGrow /\ endGrow < endWeaken2)
  /\ (inject_Z DELTA - 1 < endWeaken1 - endHack < inject_Z DELTA + 1
      /\ inject_Z DELTA - 1 < endGrow - endWeaken1 < inject_Z DELTA + 1
      /\ inject_Z DELTA - 1 < endWeaken2 - endGrow < inject_Z DELTA + 1).
Proof.
  intros Hb [A1 A2] [B1 B2] [C1 C2] [D1 D2] T endHack endWeaken1 endGrow endWeaken2.
  destruct (longest_bounds e) as (Lh & Lg & Lw).
  assert (D : inject_Z DELTA == 250) by reflexivity.
  assert (T0 : T <= T) by lra.
  assert (T1 : T <= T + inject_Z DELTA) by lra.
  assert (T2 : T <= T + 2 * inject_Z DELTA) by lra.
  assert (T3 : T <= T + 3 * inject_Z DELTA) by lra.
  pose proof (stage_lands_late e now c b _ T (hackTime e) Hb A1 A2 Lh T0) as [H0 H0'].
  pose proof (stage_lands_late e now c b _ _ (weakenTime e) Hb B1 B2 Lw T1) as [H1 H1'].
  pose proof (stage_lands_late e now c b _ _ (growTime e) Hb C1 C2 Lg T2) as [H2 H2'].
  pose proof (stage_lands_late e now c b _ _ (weakenTime e) Hb D1 D2 Lw T3) as [H3 H3'].
  fold T in H0, H0', H1, H1', H2, H2', H3, H3'.
  subst endHack endWeaken1 endGrow endWeaken2.
  unfold hackStartDelay, weaken1StartDelay, growStartDelay, weaken2StartDelay.
  set (x0 := completion (atHack clk) _ _) in *.
  set (x1 := completion (atWeaken1 clk) _ _) in *.
  set (x2 := completion (atGrow clk) _ _) in *.
  set (x3 := completion (atWeaken2 clk) _ _) in *.
  split; repeat split; lra.
Qed.

Lemma order_survives_clock_drift_witness :
  let e := Samples.smallHost in
  let clk := mkBatchClock 1001 1002 1002 1003 in
  let T := batchT e 1000 2 1 in
  completion (atHack clk) (hackStartDelay e T clk) (hackTime e)
  < completion (atWeaken1 clk) (weaken1StartDelay e T clk) (weakenTime e).
Proof.
  cbv zeta.
  assert (Hb : (0 <= 1)%Z) by lia.
  assert (R1 : (1000 <= 1001 <= 1000 + BUFFER)%Z) by (unfold BUFFER; lia).
  assert (R2 : (1000 <= 1002 <= 1000 + BUFFER)%Z) by (unfold BUFFER; lia).
  assert (R3 : (1000 <= 1003 <= 1000 + BUFFER)%Z) by (unfold BUFFER; lia).
  destruct (order_survives_clock_drift Samples.smallHost 1000 2 1
              (mkBatchClock 1001 1002 1002 1003) Hb R1 R2 R2 R3) as [(H & _) _].
  exact H.
Defined.

(** *** Filling the free RAM *)

(** X7: when the batch the pass ends with costs at least 1 GB and fits the
    free RAM, the concurrency is the largest that fits: one batch more
    would not. *)
Theorem packing_is_maximal (logRatio : Q -> Q) (base maxTotal : Q) (e : Env) :
  scriptsCostRam e ->
  1 <= ramPerBatch (plan logRatio base maxTotal e) ->
  ramPerBatch (plan logRatio base maxTotal e) <= freeRamOf e ->
  inject_Z (concurrency (plan logRatio base maxTotal e))
  * ramPerBatch (plan logRatio base maxTotal e) <= freeRamOf e
  /\ freeRamOf e
     < (inject_Z (concurrency (plan logRatio base maxTotal e)) + 1)
       * ramPerBatch (plan logRatio base maxTotal e).
Proof.
  intros Hcosts. unfold plan. rewrite finalSafety_ramPerBatch.
  pose proof (packed_fitted logRatio base maxTotal e) as Hfit.
  pose proof (packed_freeRam logRatio base maxTotal e) as Hfree.
  generalize dependent (packed logRatio base maxTotal e). intros q Hfit Hfree H1 Hle.
  unfold finalSafety. cbn [concurrency]. rewrite Hfit, Hfree. unfold fit, floor.
  set (F := freeRamOf e) in *. set (r := ramPerBatch q) in *.
  assert (Hr : 0 < r) by lra.
  assert (Hq : 1 <= F / r) by (apply Qle_shift_div_l; lra).
  assert (E1 : Qmax 1 r == r) by (apply Q.max_r; exact H1).
  assert (E2 : Qfloor (Qmax 1 (F / Qmax 1 r)) = Qfloor (F / r)).
  { rewrite E1. rewrite (Q.max_r 1 (F / r) Hq). reflexivity. }
  rewrite E2.
  pose proof (floor_ge_1 (F / r) Hq) as Hge. unfold floor in Hge.
  replace (Z.max 1 (Z.min (Z.max 1 (Qfloor (F / r))) (Qfloor (F / r))))
    with (Qfloor (F / r)) by lia.
  destruct (floor_bounds (F / r)) as [Hlo Hhi]. unfold floor in Hlo, Hhi.
  assert (EF : F == F / r * r) by (field; lra).
  split.
  - rewrite EF at 2. apply Qmult_le_compat_r; lra.
  - rewrite EF at 1. apply Qmult_lt_compat_r; lra.
Qed.

Lemma packing_is_maximal_witness :
  concurrency (plan Samples.unusedLog 0.02 0.2 Samples.bigHost) = 147%Z
  /\ freeRamOf Samples.bigHost
     < (inject_Z (concurrency (plan Samples.unusedLog 0.02 0.2 Samples.bigHost)) + 1)
       * ramPerBatch (plan Samples.unusedLog 0.02 0.2 Samples.bigHost).
Proof.
  split; [vm_compute; reflexivity |].
  apply (packing_is_maximal Samples.unusedLog 0.02 0.2 Samples.bigHost).
  - repeat split; reflexivity.
  - vm_compute. discriminate.
  - vm_compute. discriminate.
Defined.

End BatcherMore.

(** ** The workers *)

Module WorkerFacts.

Import JsMath JsMathFacts.

(** What a hack of worker.js implies; the guards in the order of the loop. *)
Lemma worker_hack_guards_aux (o : Worker.Obs) :
  Worker.decide o = Worker.Hack ->
  Worker.sec o <= Worker.minSec o + Worker.SEC_MARGIN
  /\ Worker.maxMoney o * Worker.HACK_SAFE_PCT <= Worker.money o
  /\ Worker.MIN_HACK_CHANCE <= Worker.hackChance o.
Proof.
  unfold Worker.decide.
  destruct (ltb (Worker.minSec o + Worker.SEC_MARGIN) (Worker.sec o)) eqn:E1;
    [discriminate |].
  destruct (ltb (Worker.money o) (Worker.maxMoney o * Worker.GROW_PCT)); [discriminate |].
  destruct (leb (Worker.perThreadSteal o) 0 || leb (Worker.hackChance o) 0);
    [discriminate |].
  destruct (ltb (Worker.hackChance o) Worker.MIN_HACK_CHANCE) eqn:E4;
    [discriminate |].
  destruct (ltb (Worker.money o) (Worker.maxMoney o * Worker.HACK_SAFE_PCT)) eqn:E5;
    [discriminate |].
  intros _. apply ltb_false in E1, E4, E5. repeat split; assumption.
Qed.

(** X8: worker.js hacks only when every guard of its loop has passed: the
    security is within SEC_MARGIN of the minimum, the money is at least
    90 percent of the maximum, a hack thread takes something, the chance
    is at least 20 percent, and the roll is below the hack probability. *)
Theorem worker_hack_guards (o : Worker.Obs) :
  Worker.decide o = Worker.Hack ->
  Worker.sec o <= Worker.minSec o + Worker.SEC_MARGIN
  /\ Worker.maxMoney o * Worker.HACK_SAFE_PCT <= Worker.money o
  /\ 0 < Worker.perThreadSteal o
  /\ Worker.MIN_HACK_CHANCE <= Worker.hackChance o
  /\ Worker.roll o < Worker.hackProb o.
Proof.
  unfold Worker.decide.
  destruct (ltb (Worker.minSec o + Worker.SEC_MARGIN) (Worker.sec o)) eqn:E1;
    [discriminate |].
  destruct (ltb (Worker.money o) (Worker.maxMoney o * Worker.GROW_PCT)) eqn:E2;
    [discriminate |].
  destruct (leb (Worker.perThreadSteal o) 0 || leb (Worker.hackChance o) 0) eqn:E3;
    [discriminate |].
  destruct (ltb (Worker.hackChance o) Worker.MIN_HACK_CHANCE) eqn:E4;
    [discriminate |].
  destruct (ltb (Worker.money o) (Worker.maxMoney o * Worker.HACK_SAFE_PCT)) eqn:E5;
    [discriminate |].
  destruct (ltb (Worker.roll o) (Worker.hackProb o)) eqn:E6.
  - intros _. apply orb_false_iff in E3. destruct E3 as [E3 _].
    apply ltb_false in E1, E4, E5. apply leb_false in E3. apply ltb_true in E6.
    repeat split; assumption.
  - unfold Worker.maintenance.
    destruct (ltb (Worker.money o) (Worker.maxMoney o * 0.97)); [discriminate |].
    destruct (ltb (Worker.minSec o + 0.5) (Worker.sec o)); discriminate.
Qed.

Lemma worker_hack_guards_witness :
  Worker.decide (Worker.mkObs 1 1.5 1000 950 0.004 0.8 4 0.1) = Worker.Hack
  /\ 0 < Worker.perThreadSteal (Worker.mkObs 1 1.5 1000 950 0.004 0.8 4 0.1).
Proof.
  assert (H : Worker.decide (Worker.mkObs 1 1.5 1000 950 0.004 0.8 4 0.1)
              = Worker.Hack) by reflexivity.
  split; [exact H |].
  destruct (worker_hack_guards _ H) as (_ & _ & Hy & _). exact Hy.
Defined.

(** X9: with a positive per-thread yield the hack probability of worker.js
    is a probability, and the threads expected to hack at once (the
    probability times the threads running) do not exceed the threads that
    take DESIRED_HACK_FRACTION. *)
Theorem worker_hack_probability (o : Worker.Obs) :
  0 < Worker.perThreadSteal o ->
  0 < Worker.hackProb o /\ Worker.hackProb o <= 1
  /\ Worker.hackProb o * inject_Z (Z.max 1 (Worker.workerThreads o))
     <= inject_Z (Z.max 1 (ceil (Worker.DESIRED_HACK_FRACTION
                                 / Worker.perThreadSteal o))).
Proof.
  intros _. unfold Worker.hackProb.
  set (t := Z.max 1 (Worker.workerThreads o)).
  set (d := Z.max 1 (ceil (Worker.DESIRED_HACK_FRACTION / Worker.perThreadSteal o))).
  assert (Ht : 1 <= inject_Z t).
  { change 1 with (inject_Z 1). rewrite <- Zle_Qle. unfold t. lia. }
  assert (Hd : 1 <= inject_Z d).
  { change 1 with (inject_Z 1). rewrite <- Zle_Qle. unfold d. lia. }
  assert (Hq : 0 < inject_Z d / inject_Z t) by (apply Qlt_shift_div_l; lra).
  assert (Hp0 : 0 < Qmin 1 (inject_Z d / inject_Z t))
    by (apply Q.min_glb_lt; [reflexivity | exact Hq]).
  assert (Hp1 : Qmin 1 (inject_Z d / inject_Z t) <= 1) by apply Q.le_min_l.
  assert (Hp2 : Qmin 1 (inject_Z d / inject_Z t) * inject_Z t <= inject_Z d).
  { apply Qle_trans with (inject_Z d / inject_Z t * inject_Z t).
    - apply Qmult_le_compat_r; [apply Q.le_min_r | lra].
    - assert (E : inject_Z d / inject_Z t * inject_Z t == inject_Z d) by (field; lra).
      rewrite E. apply Qle_refl. }
  set (p := Qmin 1 (inject_Z d / inject_Z t)) in *.
  destruct (200 <? t)%Z.
  - assert (p * 0.9 * inject_Z t == 0.9 * (p * inject_Z t)) by ring.
    repeat split; lra.
  - repeat split; assumption.
Qed.

Lemma worker_hack_probability_witness :
  Worker.hackProb (Worker.mkObs 1 1.5 1000 950 0.004 0.8 10 0.1) == 0.5
  /\ Worker.hackProb (Worker.mkObs 1 1.5 1000 950 0.004 0.8 10 0.1) <= 1.
Proof.
  split; [vm_compute; reflexivity |].
  destruct (worker_hack_probability (Worker.mkObs 1 1.5 1000 950 0.004 0.8 10 0.1))
    as (_ & H & _); [reflexivity | exact H].
Defined.

(** X10: the three workers are nested.  On the same readings of a target
    whose maximum money is not negative, whenever worker.js hacks
    tiny-worker.js hacks too, and whenever tiny-worker.js hacks
    worker-simple.js hacks too: each script only adds guards before the
    hack. *)
Theorem workers_nested (o : Worker.Obs) :
  0 <= Worker.maxMoney o ->
  (Worker.decide o = Worker.Hack -> TinyWorker.decide o = Worker.Hack)
  /\ (TinyWorker.decide o = Worker.Hack -> WorkerSimple.decide o = Worker.Hack).
Proof.
  intros Hmax. split.
  - intros H. destruct (worker_hack_guards_aux o H) as (G1 & G2 & G3).
    unfold TinyWorker.decide.
    assert (E1 : ltb (Worker.minSec o + TinyWorker.SEC_MARGIN) (Worker.sec o) = false).
    { apply ltb_false. unfold TinyWorker.SEC_MARGIN. unfold Worker.SEC_MARGIN in G1. lra. }
    assert (E2 : ltb (Worker.money o) (Worker.maxMoney o * TinyWorker.GROW_PCT) = false).
    { apply ltb_false. unfold TinyWorker.GROW_PCT. unfold Worker.HACK_SAFE_PCT in G2. lra. }
    assert (E3 : leb (Worker.hackChance o) 0.10 = false).
    { apply leb_false. unfold Worker.MIN_HACK_CHANCE in G3. lra. }
    rewrite E1, E2, E3. reflexivity.
  - unfold TinyWorker.decide, WorkerSimple.decide.
    destruct (ltb (Worker.minSec o + TinyWorker.SEC_MARGIN) (Worker.sec o)) eqn:E1;
      [discriminate |].
    destruct (ltb (Worker.money o) (Worker.maxMoney o * TinyWorker.GROW_PCT)) eqn:E2;
      [discriminate |].
    intros _. apply ltb_false in E1, E2.
    assert (F1 : ltb (Worker.minSec o + WorkerSimple.SEC_MARGIN) (Worker.sec o) = false).
    { apply ltb_false. unfold WorkerSimple.SEC_MARGIN. unfold TinyWorker.SEC_MARGIN in E1.
      lra. }
    assert (F2 : ltb (Worker.money o) (Worker.maxMoney o * WorkerSimple.GROW_PCT) = false).
    { apply ltb_false. unfold WorkerSimple.GROW_PCT. unfold TinyWorker.GROW_PCT in E2.
      lra. }
    rewrite F1, F2. reflexivity.
Qed.

Lemma workers_nested_witness :
  Worker.decide (Worker.mkObs 1 1.5 1000 950 0.004 0.8 4 0.1) = Worker.Hack
  /\ TinyWorker.decide (Worker.mkObs 1 1.5 1000 950 0.004 0.8 4 0.1) = Worker.Hack
  /\ WorkerSimple.decide (Worker.mkObs 1 1.5 1000 950 0.004 0.8 4 0.1) = Worker.Hack.
Proof.
  assert (Hm : 0 <= Worker.maxMoney (Worker.mkObs 1 1.5 1000 950 0.004 0.8 4 0.1))
    by (vm_compute; discriminate).
  destruct (workers_nested _ Hm) as [H1 H2].
  assert (H : Worker.decide (Worker.mkObs 1 1.5 1000 950 0.004 0.8 4 0.1)
              = Worker.Hack) by reflexivity.
  split; [exact H | split; [exact (H1 H) | exact (H2 (H1 H))]].
Defined.

End WorkerFacts.

(** ** More on the controller *)

Module ControllerMore.

Import JsMath JsMathFacts Controller ControllerFacts ControllerLoop.

(** *** scanAll lists exactly the reachable hosts *)

Lemma seenHas_In seen n : seenHas seen n = true <-> In n seen.
Proof.
  unfold seenHas. rewrite existsb_exists. split.
  - intros (x & Hx & E). apply String.eqb_eq in E. subst x. exact Hx.
  - intros H. exists n. split; [exact H | apply String.eqb_refl].
Qed.

(** What the [for] over the neighbours [ns] of a reachable host does to
    the list and the stack. *)
Lemma fold_visit_spec ns : forall seen stack,
  NoDup seen ->
  NoDup (fst (fold_left visit ns (seen, stack)))
  /\ (forall x, In x seen -> In x (fst (fold_left visit ns (seen, stack))))
  /\ (forall n, In n ns -> In n (fst (fold_left visit ns (seen, stack))))
  /\ (forall x, In x (fst (fold_left visit ns (seen, stack))) ->
                In x seen \/ In x ns)
  /\ (forall x, In x stack -> In x (snd (fold_left visit ns (seen, stack))))
  /\ (forall x, In x (snd (fold_left visit ns (seen, stack))) ->
                In x stack \/ In x (fst (fold_left visit ns (seen, stack))))
  /\ (forall x, In x (fst (fold_left visit ns (seen, stack))) -> ~ In x seen ->
                In x (snd (fold_left visit ns (seen, stack)))).
Proof.
  induction ns as [| n ns IH]; intros seen stack Hnd; cbn [fold_left].
  - cbn [fst snd]. split; [exact Hnd |]. split; [auto |]. split; [intros n []|].
    split; [auto |]. split; [auto |]. split; [auto |].
    intros x Hx Hn. contradiction.
  - assert (Ev : visit (seen, stack) n
                 = if seenHas seen n then (seen, stack) else (seen ++ [n], n :: stack))
      by reflexivity.
    rewrite Ev. clear Ev. destruct (seenHas seen n) eqn:E.
    + apply seenHas_In in E.
      destruct (IH seen stack Hnd) as (A1 & A2 & A3 & A4 & A5 & A6 & A7).
      split; [exact A1 |]. split; [exact A2 |].
      split; [intros k [<- | Hk]; [apply A2; exact E | apply A3; exact Hk] |].
      split; [intros x Hx; destruct (A4 x Hx) as [H | H];
              [left; exact H | right; right; exact H] |].
      split; [exact A5 |]. split; [exact A6 | exact A7].
    + assert (Hn : ~ In n seen).
      { intros H. apply seenHas_In in H. rewrite H in E. discriminate E. }
      assert (Hnd' : NoDup (seen ++ [n])).
      { apply NoDup_app; [exact Hnd | repeat constructor; intros [] | ].
        intros x Hx [<- | []]. contradiction. }
      destruct (IH (seen ++ [n]) (n :: stack) Hnd') as (A1 & A2 & A3 & A4 & A5 & A6 & A7).
      split; [exact A1 |].
      split; [intros x Hx; apply A2; apply in_or_app; left; exact Hx |].
      split; [intros k [<- | Hk];
              [apply A2; apply in_or_app; right; left; reflexivity | apply A3; exact Hk] |].
      split.
      { intros x Hx. destruct (A4 x Hx) as [H | H]; [| right; right; exact H].
        apply in_app_or in H. destruct H as [H | [<- | []]];
          [left; exact H | right; left; reflexivity]. }
      split; [intros x Hx; apply A5; right; exact Hx |].
      split.
      { intros x Hx. destruct (A6 x Hx) as [[<- | H] | H].
        - right. apply A2. apply in_or_app. right. left. reflexivity.
        - left. exact H.
        - right. exact H. }
      intros x Hx Hns.
      destruct (string_dec x n) as [-> | Hxn].
      * apply A5. left. reflexivity.
      * apply A7; [exact Hx |]. intros H. apply in_app_or in H.
        destruct H as [H | [<- | []]]; [contradiction | apply Hxn; reflexivity].
Qed.

(** One iteration keeps the state of the walk. *)
Lemma walking_step w seen h rest :
  walking w seen (h :: rest) ->
  walking w (fst (fold_left visit (scan w h) (seen, rest)))
            (snd (fold_left visit (scan w h) (seen, rest))).
Proof.
  intros [Hnd Hhome Hstack Hsound Hdone].
  destruct (fold_visit_spec (scan w h) seen rest Hnd)
    as (A1 & A2 & A3 & A4 & A5 & A6 & A7).
  assert (Hh : In h seen) by (apply Hstack; left; reflexivity).
  constructor.
  - exact A1.
  - apply A2. exact Hhome.
  - intros x Hx. destruct (A6 x Hx) as [H | H]; [| exact H].
    apply A2, Hstack. right. exact H.
  - intros x Hx. destruct (A4 x Hx) as [H | H]; [apply Hsound; exact H |].
    apply (reachable_step w h x); [apply Hsound; exact Hh | exact H].
  - intros x Hx Hoff n Hn.
    destruct (string_dec x h) as [-> | Hxh]; [apply A3; exact Hn |].
    destruct (in_dec string_dec x seen) as [Hs | Hs].
    + apply A2. apply (Hdone x Hs); [| exact Hn].
      intros [E | Hr]; [apply Hxh; symmetry; exact E | apply Hoff, A5; exact Hr].
    + exfalso. apply Hoff. apply A7; assumption.
Qed.

(** With enough fuel the walk ends on a list that is closed under
    [ns.scan]. *)
Lemma scanLoop_closed w : forall fuel seen stack,
  walking w seen stack ->
  (List.length stack + unseenCount w seen <= fuel)%nat ->
  walking w (scanLoop w fuel seen stack) [].
Proof.
  induction fuel as [| fuel IH]; intros seen stack Hw Hm.
  - destruct stack; [exact Hw | cbn [List.length] in Hm; lia].
  - cbn [scanLoop]. destruct stack as [| h rest]; [exact Hw |].
    pose proof (walking_step w seen h rest Hw) as Hw'.
    pose proof (fold_visit_measure w (scan w h) seen rest
                  (fun n Hn => scan_in_universe w h n Hn)) as M.
    destruct (fold_left visit (scan w h) (seen, rest)) as [seen1 stack1].
    cbn [fst snd] in *. apply IH; [exact Hw' |]. cbn [List.length] in Hm. lia.
Qed.

Lemma walking_start w : walking w [home] [home].
Proof.
  constructor.
  - repeat constructor. intros [].
  - left. reflexivity.
  - intros x Hx. exact Hx.
  - intros x [<- | []]. constructor.
  - intros x Hx Hoff. contradiction.
Qed.

Lemma scanAll_walking w : walking w (scanAll w) [].
Proof.
  unfold scanAll. apply scanLoop_closed; [apply walking_start |].
  unfold scanFuel, unseenCount. cbn [List.length].
  pose proof (filter_length_le (fun u => negb (seenHas [home] u)) (universe w)).
  lia.
Qed.

(** X11: scanAll ends within its bound (more iterations change nothing)
    and returns, without repetition, exactly the hosts reachable from home
    through [ns.scan]. *)
Theorem scanAll_reachable (w : World) :
  NoDup (scanAll w)
  /\ (forall h, In h (scanAll w) <-> reachable w h)
  /\ forall extra, scanLoop w (scanFuel w + extra) [home] [home] = scanAll w.
Proof.
  destruct (scanAll_walking w) as [Hnd Hhome _ Hsound Hdone].
  split; [exact Hnd | split].
  - intros h. split; [apply Hsound |].
    induction 1 as [| h n _ IH Hn]; [exact Hhome |].
    apply (Hdone h IH); [intros [] | exact Hn].
  - intros extra. apply scanLoop_fuel_enough.
Qed.

(** *** The sort of the candidates *)

Lemma insertByScore_perm c l : Permutation (c :: l) (insertByScore c l).
Proof.
  induction l as [| d r IH]; cbn [insertByScore]; [reflexivity |].
  destruct (ltb (score c) (score d)); [| reflexivity].
  rewrite perm_swap. apply perm_skip. exact IH.
Qed.

Lemma sortByScore_perm l : Permutation l (sortByScore l).
Proof.
  induction l as [| c l IH]; cbn [sortByScore fold_right]; [reflexivity |].
  rewrite <- insertByScore_perm. apply perm_skip. exact IH.
Qed.

Lemma insertByScore_sorted c l :
  StronglySorted (fun a b => score b <= score a) l ->
  StronglySorted (fun a b => score b <= score a) (insertByScore c l).
Proof.
  induction 1 as [| d r Hr IH Hd]; cbn [insertByScore].
  - repeat constructor.
  - destruct (ltb (score c) (score d)) eqn:E.
    + apply ltb_true in E. constructor; [exact IH |].
      apply (Permutation_Forall (insertByScore_perm c r)).
      constructor; [apply Qlt_le_weak; exact E | exact Hd].
    + apply ltb_false in E. constructor.
      * constructor; assumption.
      * constructor; [exact E |].
        eapply Forall_impl; [| exact Hd]. intros x Hx. cbv beta in *.
        eapply Qle_trans; [exact Hx | exact E].
Qed.

Lemma insertByScore_stable (q : Q) c l :
  StronglySorted (fun a b => score b <= score a) l ->
  filter (fun x => Qeq_bool (score x) q) (insertByScore c l)
  = filter (fun x => Qeq_bool (score x) q) (c :: l).
Proof.
  induction 1 as [| d r Hr IH Hd]; cbn [insertByScore]; [reflexivity |].
  destruct (ltb (score c) (score d)) eqn:E; [| reflexivity].
  apply ltb_true in E. cbn [filter] in *. rewrite IH.
  destruct (Qeq_bool (score c) q) eqn:Ec; [| reflexivity].
  destruct (Qeq_bool (score d) q) eqn:Ed; [| reflexivity].
  apply Qeq_bool_iff in Ec, Ed. exfalso. rewrite Ec, Ed in E.
  exact (Qlt_irrefl q E).
Qed.

Lemma sortByScore_sorted l :
  StronglySorted (fun a b => score b <= score a) (sortByScore l).
Proof.
  induction l as [| c l IH]; cbn [sortByScore fold_right]; [constructor |].
  apply insertByScore_sorted. exact IH.
Qed.

(** X12: the sort of the candidates is a stable descending sort by score:
    it returns the same candidates, no score is followed by a larger one,
    and candidates of equal score keep the order in which they were
    pushed. *)
Theorem sortByScore_stable_sort (l : list Candidate) :
  Permutation l (sortByScore l)
  /\ StronglySorted (fun a b => score b <= score a) (sortByScore l)
  /\ forall q, filter (fun x => Qeq_bool (score x) q) (sortByScore l)
               = filter (fun x => Qeq_bool (score x) q) l.
Proof.
  split; [apply sortByScore_perm | split; [apply sortByScore_sorted |]].
  intros q. induction l as [| c l IH]; [reflexivity |].
  pose proof (insertByScore_stable q c _ (sortByScore_sorted l)) as E.
  unfold sortByScore in *. cbn [fold_right]. rewrite E.
  cbn [filter]. rewrite IH. reflexivity.
Qed.

(** *** What the selection returns *)

Lemma In_firstn {A : Type} (n : nat) (l : list A) (x : A) :
  In x (firstn n l) -> In x l.
Proof.
  intros H. rewrite <- (firstn_skipn n l). apply in_or_app. left. exact H.
Qed.

Lemma In_skipn {A : Type} (n : nat) (l : list A) (x : A) :
  In x (skipn n l) -> In x l.
Proof.
  intros H. rewrite <- (firstn_skipn n l). apply in_or_app. right. exact H.
Qed.

(** A pushed candidate is the host itself, within the player's level,
    rooted, with a positive chance, scored by candidateScore. *)
Lemma pushed_In w' h c :
  In c (pushed w' h) ->
  s c = h /\ chance c = hackAnalyzeChance w' h /\ score c = candidateScore w' h
  /\ blocked w' h = false /\ rooted w' h = true /\ 0 < hackAnalyzeChance w' h.
Proof.
  unfold pushed. destruct (blocked w' h) eqn:Eb; [intros [] |].
  destruct (rooted w' h) eqn:Er; cbn [negb]; [| intros []].
  destruct (leb (hackAnalyzeChance w' h) 0) eqn:Ec; [intros [] |].
  intros [<- | []]. apply leb_false in Ec. cbn [s chance score].
  repeat split; assumption.
Qed.

(** The candidates of the pool, read on the game before the call. *)
Lemma pool_In w c :
  In c (firstn POOL (sortByScore
          (flat_map (pushed (fold_left considerWorld (moneyHosts w) w))
                    (moneyHosts w)))) ->
  In (s c) (moneyHosts w)
  /\ chance c = hackAnalyzeChance w (s c)
  /\ (getServerRequiredHackingLevel w (s c) <= hackingLevel w)%Z
  /\ 0 < hackAnalyzeChance w (s c)
  /\ rooted (fold_left considerWorld (moneyHosts w) w) (s c) = true.
Proof.
  intros H. apply In_firstn in H.
  apply (Permutation_in _ (Permutation_sym (sortByScore_perm _))) in H.
  apply in_flat_map in H. destruct H as (h & Hh & Hc).
  apply pushed_In in Hc. destruct Hc as (Es & Ec & _ & Eb & Er & Hpos).
  set (w' := fold_left considerWorld (moneyHosts w) w) in *.
  destruct (fold_considerWorld_reads (moneyHosts w) w h) as (_ & _ & Rl & Rc & _).
  destruct (fold_considerWorld_static (moneyHosts w) w) as (Sl & _).
  fold w' in Rl, Rc, Sl.
  rewrite Es. split; [exact Hh |]. split; [rewrite Ec; exact Rc |].
  split; [| split; [rewrite <- Rc; exact Hpos | exact Er]].
  unfold blocked in Eb. apply Z.ltb_ge in Eb. rewrite Rl, Sl in Eb. exact Eb.
Qed.

(** The names a decision returns come from the pool it was given. *)
Lemma decide_names top t :
  primary (decide top) = Some t \/ In t (secondaries (decide top)) ->
  exists c, In c top /\ s c = t.
Proof.
  unfold decide. destruct top as [| top1 rest]; [intros [H | []]; discriminate H |].
  destruct (_ && _).
  - cbn [primary secondaries]. intros [[= <-] | H].
    + exists top1. split; [left; reflexivity | reflexivity].
    + apply in_map_iff in H. destruct H as (c & Ec & Hc).
      exists c. split; [| exact Ec]. apply In_skipn in Hc. apply In_firstn in Hc. exact Hc.
  - destruct (map s (filter _ (top1 :: rest))) as [| t0 ts] eqn:E.
    + cbn [primary secondaries]. intros [[= <-] | []].
      exists top1. split; [left; reflexivity | reflexivity].
    + cbn [primary secondaries]. intros [H | H]; [discriminate H |].
      rewrite <- E in H. apply in_map_iff in H. destruct H as (c & Ec & Hc).
      apply filter_In in Hc. exists c. split; [apply Hc | exact Ec].
Qed.

Lemma moneyHosts_In w h :
  In h (moneyHosts w) ->
  h <> home /\ In h (scanAll w) /\ 0 < getServerMaxMoney w h.
Proof.
  unfold moneyHosts. intros H. apply filter_In in H. destruct H as [Hin Hc].
  apply andb_true_iff in Hc. destruct Hc as [Hne Hm].
  apply negb_true_iff, String.eqb_neq in Hne. apply ltb_true in Hm.
  repeat split; assumption.
Qed.

(** X13: every target the selection names, as primary or as secondary, is
    a server other than home that is reachable from home, holds money, is
    within the player's hacking level, has a positive hack chance, and is
    rooted once the selection returns. *)
Theorem selected_targets_are_usable (w : World) (t : string) :
  primary (fst (pickTargetsAndStrategy w)) = Some t
  \/ In t (secondaries (fst (pickTargetsAndStrategy w))) ->
  t <> home
  /\ reachable w t
  /\ 0 < getServerMaxMoney w t
  /\ (getServerRequiredHackingLevel w t <= hackingLevel w)%Z
  /\ 0 < hackAnalyzeChance w t
  /\ rooted (snd (pickTargetsAndStrategy w)) t = true.
Proof.
  rewrite pick_unfold. cbn [fst snd]. intros H.
  apply decide_names in H. destruct H as (c & Hc & <-).
  apply pool_In in Hc. destruct Hc as (Hh & _ & Hl & Hp & Hr).
  apply moneyHosts_In in Hh. destruct Hh as (Hne & Hs & Hm).
  repeat split; try assumption.
  apply (scanAll_walking w). exact Hs.
Qed.

Lemma selected_targets_are_usable_witness :
  In "n00dles"%string (secondaries (fst (pickTargetsAndStrategy Samples.network)))
  /\ rooted Samples.network "n00dles" = false
  /\ rooted (snd (pickTargetsAndStrategy Samples.network)) "n00dles" = true.
Proof.
  assert (H : In "n00dles"%string
                 (secondaries (fst (pickTargetsAndStrategy Samples.network))))
    by (vm_compute; right; left; reflexivity).
  split; [exact H | split; [reflexivity |]].
  apply (selected_targets_are_usable Samples.network "n00dles"). right. exact H.
Defined.

(** *** The shape of the strategy *)

Lemma pushed_names w' h : map s (pushed w' h) = [] \/ map s (pushed w' h) = [h].
Proof.
  unfold pushed. destruct (blocked w' h); [left; reflexivity |].
  destruct (negb (rooted w' h)); [left; reflexivity |].
  destruct (leb (hackAnalyzeChance w' h) 0); [left | right]; reflexivity.
Qed.

Lemma pushed_names_nodup w' l :
  NoDup l -> NoDup (map s (flat_map (pushed w') l)).
Proof.
  induction 1 as [| h l Hh Hl IH]; cbn [flat_map map]; [constructor |].
  rewrite map_app. destruct (pushed_names w' h) as [-> | ->]; [exact IH |].
  cbn [app]. constructor; [| exact IH].
  intros Hin. apply in_map_iff in Hin. destruct Hin as (c & Ec & Hc).
  apply in_flat_map in Hc. destruct Hc as (h' & Hh' & Hc).
  apply pushed_In in Hc. destruct Hc as (Es & _).
  apply Hh. rewrite <- Ec, Es. exact Hh'.
Qed.

Lemma nodup_map_filter (f : Candidate -> bool) l :
  NoDup (map s l) -> NoDup (map s (filter f l)).
Proof.
  induction l as [| c l IH]; cbn [map filter]; [trivial |].
  intros H. apply NoDup_cons_iff in H. destruct H as [Hc Hl].
  destruct (f c); [| apply IH; exact Hl].
  cbn [map]. constructor; [| apply IH; exact Hl].
  intros Hin. apply Hc. apply in_map_iff in Hin. destruct Hin as (d & Ed & Hd).
  apply filter_In in Hd. apply in_map_iff. exists d. split; [exact Ed | apply Hd].
Qed.

Lemma nodup_firstn {A : Type} (n : nat) (l : list A) :
  NoDup l -> NoDup (firstn n l).
Proof.
  intros H. rewrite <- (firstn_skipn n l) in H.
  exact (NoDup_app_remove_r _ _ H).
Qed.

Lemma pool_names_nodup w :
  NoDup (map s (firstn POOL (sortByScore
          (flat_map (pushed (fold_left considerWorld (moneyHosts w) w))
                    (moneyHosts w))))).
Proof.
  rewrite <- firstn_map. apply nodup_firstn.
  eapply Permutation_NoDup;
    [apply Permutation_map; apply sortByScore_perm |].
  apply pushed_names_nodup. unfold moneyHosts. apply NoDup_filter.
  apply (scanAll_walking w).
Qed.

(** The decision, on a pool without repeated names. *)
Lemma decide_shape top :
  NoDup (map s top) ->
  (List.length (secondaries (decide top)) <= List.length top)%nat
  /\ (primary (decide top) <> None ->
      (List.length (secondaries (decide top)) <= 7)%nat)
  /\ NoDup (secondaries (decide top))
  /\ (forall t, primary (decide top) = Some t ->
                ~ In t (secondaries (decide top)))
  /\ (primary (decide top) = None ->
      forall t, In t (secondaries (decide top)) ->
      exists c, In c top /\ s c = t /\ MIN_HACK_CHANCE_SECONDARY <= chance c)
  /\ (forall t, primary (decide top) = Some t ->
      secondaries (decide top) <> [] ->
      exists c, In c top /\ s c = t /\ MIN_HACK_CHANCE_PRIMARY <= chance c)
  /\ (top <> [] ->
      primary (decide top) <> None \/ secondaries (decide top) <> []).
Proof.
  intros Hnd. unfold decide. destruct top as [| top1 rest].
  - cbn [primary secondaries List.length].
    split; [lia |]. split; [intros _; lia |]. split; [constructor |].
    split; [intros t [=] |]. split; [intros _ t [] |].
    split; [intros t [=] |]. intros H. exfalso. apply H. reflexivity.
  - destruct (leb MIN_HACK_CHANCE_PRIMARY (chance top1)) eqn:Ec; cbn [andb].
    2: {
      destruct (map s (filter _ (top1 :: rest))) as [| t0 ts] eqn:E;
        cbn [primary secondaries].
      - cbn [List.length]. split; [lia |]. split; [intros _; lia |].
        split; [constructor |]. split; [intros t _ [] |].
        split; [intros [=] |].
        split; [intros t _ H; exfalso; apply H; reflexivity |].
        intros _. left. discriminate.
      - rewrite <- E.
        split; [rewrite length_map;
                apply (filter_length_le _ (top1 :: rest)) |].
        split; [intros H; exfalso; apply H; reflexivity |].
        split; [apply nodup_map_filter; exact Hnd |].
        split; [intros t [=] |]. split.
        + intros _ t H. apply in_map_iff in H. destruct H as (c & Es & Hc).
          apply filter_In in Hc. destruct Hc as [Hc Hch].
          apply leb_true in Hch. exists c. repeat split; assumption.
        + split; [intros t [=] |]. intros _. right. rewrite E. discriminate. }
    destruct (ltb _ (score top1)) eqn:Ed; cbn [primary secondaries].
    2: {
      destruct (map s (filter _ (top1 :: rest))) as [| t0 ts] eqn:E;
        cbn [primary secondaries].
      - cbn [List.length]. split; [lia |]. split; [intros _; lia |].
        split; [constructor |]. split; [intros t _ [] |].
        split; [intros [=] |].
        split; [intros t _ H; exfalso; apply H; reflexivity |].
        intros _. left. discriminate.
      - rewrite <- E.
        split; [rewrite length_map;
                apply (filter_length_le _ (top1 :: rest)) |].
        split; [intros H; exfalso; apply H; reflexivity |].
        split; [apply nodup_map_filter; exact Hnd |].
        split; [intros t [=] |]. split.
        + intros _ t H. apply in_map_iff in H. destruct H as (c & Es & Hc).
          apply filter_In in Hc. destruct Hc as [Hc Hch].
          apply leb_true in Hch. exists c. repeat split; assumption.
        + split; [intros t [=] |]. intros _. right. rewrite E. discriminate. }
    assert (Ef : skipn 1 (firstn (Nat.min (List.length (top1 :: rest)) 8)
                                 (top1 :: rest))
                 = firstn (Nat.min (List.length rest) 7) rest)
      by reflexivity.
    rewrite Ef. cbn [map] in Hnd. apply NoDup_cons_iff in Hnd.
    destruct Hnd as [Hone Hrest].
    split; [rewrite length_map, length_firstn; cbn [List.length]; lia |].
    split; [intros _; rewrite length_map, length_firstn; lia |].
    split; [rewrite <- firstn_map; apply nodup_firstn; exact Hrest |].
    split.
    + intros t [= <-] Hin. apply Hone. rewrite <- firstn_map in Hin.
      apply In_firstn in Hin. exact Hin.
    + split; [intros [=] |]. split.
      * intros t [= <-] _. exists top1. apply leb_true in Ec.
        split; [left; reflexivity | split; [reflexivity | exact Ec]].
      * intros _. left. discriminate.
Qed.

(** X14: the strategy the selection returns.  There are at most twelve
    secondaries, at most seven beside a primary, none is listed twice and
    none is the primary.  Without a primary every secondary has a hack
    chance of at least 0.45; a primary that comes with secondaries has a
    hack chance of at least 0.65. *)
Theorem strategy_shape (w : World) :
  (List.length (secondaries (fst (pickTargetsAndStrategy w))) <= 12)%nat
  /\ (primary (fst (pickTargetsAndStrategy w)) <> None ->
      (List.length (secondaries (fst (pickTargetsAndStrategy w))) <= 7)%nat)
  /\ NoDup (secondaries (fst (pickTargetsAndStrategy w)))
  /\ (forall t, primary (fst (pickTargetsAndStrategy w)) = Some t ->
                ~ In t (secondaries (fst (pickTargetsAndStrategy w))))
  /\ (primary (fst (pickTargetsAndStrategy w)) = None ->
      forall t, In t (secondaries (fst (pickTargetsAndStrategy w))) ->
      MIN_HACK_CHANCE_SECONDARY <= hackAnalyzeChance w t)
  /\ (forall t, primary (fst (pickTargetsAndStrategy w)) = Some t ->
      secondaries (fst (pickTargetsAndStrategy w)) <> [] ->
      MIN_HACK_CHANCE_PRIMARY <= hackAnalyzeChance w t).
Proof.
  rewrite pick_unfold. cbn [fst].
  pose proof (pool_names_nodup w) as Hnd.
  pose proof (pool_In w) as Hin.
  set (top := firstn POOL _) in *.
  destruct (decide_shape top Hnd) as (L & L7 & ND & NP & S45 & P65 & _).
  split.
  { eapply Nat.le_trans; [exact L |]. unfold top. rewrite length_firstn.
    unfold POOL. lia. }
  split; [exact L7 |]. split; [exact ND |]. split; [exact NP |]. split.
  - intros Hp t Ht. destruct (S45 Hp t Ht) as (c & Hc & <- & Hch).
    destruct (Hin c Hc) as (_ & <- & _). exact Hch.
  - intros t Hp Hs. destruct (P65 t Hp Hs) as (c & Hc & <- & Hch).
    destruct (Hin c Hc) as (_ & <- & _). exact Hch.
Qed.

(** *** The assignment of a server *)

Lemma primaryChosen_truthy ram targets rand k :
  fst (primaryChosen ram targets rand k) = true ->
  truthy (primary targets) = true.
Proof.
  unfold primaryChosen. destruct (truthy (primary targets)); [reflexivity |].
  cbn. intros H. exact H.
Qed.

Lemma truthy_Some o : truthy o = true -> exists t, o = Some t.
Proof.
  destruct o as [t |]; [intros _; exists t; reflexivity | discriminate].
Qed.

Lemma random_index (r : Q) (n : nat) :
  0 <= r -> r < 1 -> (0 < n)%nat ->
  (Z.to_nat (floor (r * inject_Z (Z.of_nat n))) < n)%nat.
Proof.
  intros H0 H1 Hn.
  assert (Hq : 0 < inject_Z (Z.of_nat n))
    by (change 0 with (inject_Z 0); rewrite <- Zlt_Qlt; lia).
  assert (Hlt : r * inject_Z (Z.of_nat n) < inject_Z (Z.of_nat n)).
  { rewrite <- (Qmult_1_l (inject_Z (Z.of_nat n))) at 2.
    apply Qmult_lt_compat_r; assumption. }
  pose proof (floor_lt _ _ Hlt) as Hf.
  assert (Hge : (0 <= floor (r * inject_Z (Z.of_nat n)))%Z).
  { unfold floor. change 0%Z with (Qfloor 0). apply Qfloor_resp_le.
    apply Qmult_le_0_compat; [exact H0 | apply Qlt_le_weak; exact Hq]. }
  lia.
Qed.

(** X15: with draws of Math.random in [0, 1), assignTargetForServer always
    names a target, and the target is the primary of the strategy, one of
    its secondaries, or n00dles when the strategy has neither a usable
    primary nor a secondary. *)
Theorem assignment_names_a_target (w : World) (serverName : string)
                                  (targets : Strategy) (rand : nat -> Q) :
  (forall k, 0 <= rand k /\ rand k < 1) ->
  exists t,
    run (assignTargetForServer w serverName targets) rand = Some t
    /\ (primary targets = Some t
        \/ In t (secondaries targets)
        \/ (t = "n00dles"%string /\ secondaries targets = []
            /\ truthy (primary targets) = false)).
Proof.
  intros Hrand. unfold run, assignTargetForServer, bind.
  destruct (primaryChosen (getServerMaxRam w serverName) targets rand O)
    as [viaPrimary k] eqn:E.
  destruct viaPrimary.
  - assert (Ht : truthy (primary targets) = true).
    { apply (primaryChosen_truthy (getServerMaxRam w serverName) targets rand O).
      rewrite E. reflexivity. }
    destruct (truthy_Some _ Ht) as (t & Et).
    exists t. cbn. split; [exact Et | left; exact Et].
  - destruct (secondaries targets) as [| t0 ts] eqn:Es.
    + cbn. destruct (truthy (primary targets)) eqn:Ht.
      * destruct (truthy_Some _ Ht) as (t & Et).
        exists t. split; [exact Et | left; exact Et].
      * exists "n00dles"%string. split; [reflexivity |].
        right. right. repeat split; reflexivity.
    + rewrite <- Es.
      assert (Hne : secondaries targets <> []) by (rewrite Es; discriminate).
      destruct (matchPserv serverName) as [d |].
      * cbn. destruct (index_in_range (parseInt d) (secondaries targets) Hne)
          as (t & Et).
        exists t. split; [exact Et |]. right. left.
        exact (nth_error_In _ _ Et).
      * cbn. destruct (Hrand k) as [H0 H1].
        assert (Hlen : (0 < List.length (secondaries targets))%nat)
          by (rewrite Es; cbn [List.length]; lia).
        pose proof (random_index (rand k) _ H0 H1 Hlen) as Hidx.
        apply nth_error_Some in Hidx.
        destruct (nth_error (secondaries targets) _) as [t |] eqn:Et;
          [| exfalso; apply Hidx; reflexivity].
        exists t. split; [reflexivity |]. right. left.
        exact (nth_error_In _ _ Et).
Qed.

Lemma assignment_names_a_target_witness :
  exists t,
    run (assignTargetForServer Samples.network "n00dles"
           (fst (pickTargetsAndStrategy Samples.network)))
        (fun _ => 0.5) = Some t
    /\ (primary (fst (pickTargetsAndStrategy Samples.network)) = Some t
        \/ In t (secondaries (fst (pickTargetsAndStrategy Samples.network)))
        \/ (t = "n00dles"%string
            /\ secondaries (fst (pickTargetsAndStrategy Samples.network)) = []
            /\ truthy (primary (fst (pickTargetsAndStrategy Samples.network)))
               = false)).
Proof.
  apply (assignment_names_a_target Samples.network "n00dles"
           (fst (pickTargetsAndStrategy Samples.network)) (fun _ => 0.5)).
  intros _. split; [discriminate | reflexivity].
Defined.

(** X16: under the same draws of Math.random, a server with more RAM is
    given the primary whenever a server with less RAM is. *)
Theorem primary_share_grows_with_ram (ram1 ram2 : Q) (targets : Strategy)
                                     (rand : nat -> Q) :
  ram1 <= ram2 ->
  run (primaryChosen ram1 targets) rand = true ->
  run (primaryChosen ram2 targets) rand = true.
Proof.
  intros Hle. unfold run, primaryChosen, bind, ret, random.
  destruct (truthy (primary targets)); [| trivial].
  destruct (leb 1024 ram2) eqn:B2; [reflexivity |].
  apply leb_false in B2.
  destruct (leb 1024 ram1) eqn:B1;
    [apply leb_true in B1; exfalso; lra |].
  assert (Up : forall k, leb k ram1 = true -> leb k ram2 = true).
  { intros k H. apply leb_true in H. apply leb_true. lra. }
  destruct (leb 256 ram1) eqn:M1.
  - rewrite (Up 256 M1). destruct (leb 64 ram1) eqn:S1.
    + rewrite (Up 64 S1). intros H. exact H.
    + apply leb_true in M1. apply leb_false in S1. exfalso. lra.
  - destruct (leb 64 ram1) eqn:S1; [| cbn; discriminate].
    rewrite (Up 64 S1). destruct (leb 256 ram2) eqn:M2.
    + cbn. intros H. apply ltb_true in H.
      assert (H7 : ltb (rand O) 0.7 = true) by (apply ltb_true; lra).
      rewrite H7. reflexivity.
    + intros H. exact H.
Qed.

Lemma primary_share_grows_with_ram_witness :
  run (primaryChosen 512 (mkStrategy (Some "n00dles"%string) []))
      (fun _ => 0.3) = true.
Proof.
  apply (primary_share_grows_with_ram 128 512
           (mkStrategy (Some "n00dles"%string) []) (fun _ => 0.3)).
  - discriminate.
  - reflexivity.
Defined.

(** *** The main loop: nuke every server, then select *)

Lemma findServer_hostname l h sv :
  findServer l h = Some sv -> String.eqb (hostname sv) h = true.
Proof.
  induction l as [| x r IH]; cbn [findServer]; [discriminate |].
  destruct (String.eqb (hostname x) h) eqn:E; [| exact IH].
  intros [= <-]. exact E.
Qed.

Lemma universe_autoNuke w h : universe (autoNuke w h) = universe w.
Proof.
  unfold universe, autoNuke. cbn [servers]. f_equal.
  induction (servers w) as [| sv r IH]; [reflexivity |]. cbn [updateServer].
  destruct (String.eqb (hostname sv) h); cbn [flat_map].
  - destruct (autoNukeServer_keeps (programs w) sv) as (-> & _). reflexivity.
  - rewrite IH. reflexivity.
Qed.

Lemma fold_autoNuke_static l : forall w,
  programs (fold_left autoNuke l w) = programs w
  /\ hackingLevel (fold_left autoNuke l w) = hackingLevel w
  /\ universe (fold_left autoNuke l w) = universe w
  /\ forall k, scan (fold_left autoNuke l w) k = scan w k.
Proof.
  induction l as [| h l IH]; intros w; cbn [fold_left];
    [repeat split; reflexivity |].
  destruct (IH (autoNuke w h)) as (A1 & A2 & A3 & A4).
  rewrite A1, A2, A3, universe_autoNuke.
  split; [reflexivity | split; [reflexivity | split; [reflexivity |]]].
  intros k. rewrite A4. apply (autoNuke_reads w h k).
Qed.

Lemma fold_autoNuke_comm l : forall w h,
  autoNuke (fold_left autoNuke l w) h = fold_left autoNuke l (autoNuke w h).
Proof.
  induction l as [| a l IH]; intros w h; cbn [fold_left]; [reflexivity |].
  rewrite IH, autoNuke_comm. reflexivity.
Qed.

(** A server already gone over is not changed by another autoNuke. *)
Lemma fold_autoNuke_settled l : forall w h,
  In h l -> autoNuke (fold_left autoNuke l w) h = fold_left autoNuke l w.
Proof.
  induction l as [| a l IH]; intros w h Hin; [destruct Hin |].
  cbn [fold_left]. destruct Hin as [-> | Hin]; [| apply IH; exact Hin].
  rewrite fold_autoNuke_comm, autoNuke_idem. reflexivity.
Qed.

(** What the loop leaves of a server: autoNuke once for a listed one,
    nothing for the others. *)
Lemma findServer_fold_autoNuke l : forall w h,
  findServer (servers (fold_left autoNuke l w)) h
  = if seenHas l h
    then option_map (autoNukeServer (programs w)) (findServer (servers w) h)
    else findServer (servers w) h.
Proof.
  induction l as [| a l IH]; intros w h; [reflexivity |].
  cbn [fold_left]. rewrite IH. unfold seenHas. cbn [existsb].
  fold (seenHas l h). rewrite findServer_autoNuke.
  change (programs (autoNuke w a)) with (programs w).
  destruct (String.eqb h a), (seenHas l h); cbn [orb]; try reflexivity.
  destruct (findServer (servers w) h) as [sv |]; cbn [option_map];
    [| reflexivity].
  rewrite autoNukeServer_idem. reflexivity.
Qed.

Lemma scanAll_nukeAll w : scanAll (nukeAll w) = scanAll w.
Proof.
  unfold nukeAll, scanAll at 1, scanFuel.
  destruct (fold_autoNuke_static (scanAll w) w) as (_ & _ & -> & Hs).
  apply scanLoop_ext. exact Hs.
Qed.

Lemma fold_unchanged (l : list string) (w : World) :
  (forall h, In h l -> considerWorld w h = w) ->
  fold_left considerWorld l w = w.
Proof.
  induction l as [| h l IH]; intros H; [reflexivity |].
  cbn [fold_left]. rewrite (H h (or_introl eq_refl)).
  apply IH. intros k Hk. apply H. right. exact Hk.
Qed.

(** After the nuking of lines 59-60 the loop of the selection has
    nothing left to do. *)
Lemma nukeAll_settled (w : World) :
  fold_left considerWorld (moneyHosts (nukeAll w)) (nukeAll w) = nukeAll w.
Proof.
  apply fold_unchanged. intros h Hh. apply moneyHosts_In in Hh.
  destruct Hh as (_ & Hs & _). rewrite scanAll_nukeAll in Hs.
  unfold considerWorld. destruct (blocked (nukeAll w) h); [reflexivity |].
  unfold nukeAll. apply fold_autoNuke_settled. exact Hs.
Qed.

(** C8: the selection is deterministic and free of side effects on every
    state it is called on.  Its one call, at line 63, comes right after
    lines 59-60 have run autoNuke on every scanned server, with no await
    in between; on such a state, whatever the game was before, the
    selection leaves the game exactly as it found it, and a second call
    returns the same strategy (and the same, unchanged, game). *)
Theorem selection_pure_where_called (w0 : World) :
  snd (pickTargetsAndStrategy (nukeAll w0)) = nukeAll w0
  /\ pickTargetsAndStrategy (snd (pickTargetsAndStrategy (nukeAll w0)))
     = pickTargetsAndStrategy (nukeAll w0)
  /\ pickTargetsAndStrategy (nukeAll w0)
     = (fst (pickTargetsAndStrategy (nukeAll w0)), nukeAll w0).
Proof.
  assert (E : snd (pickTargetsAndStrategy (nukeAll w0)) = nukeAll w0)
    by (rewrite pick_unfold; cbn [snd]; apply nukeAll_settled).
  split; [exact E |]. split; [rewrite E; reflexivity |].
  rewrite <- E at 3. apply surjective_pairing.
Qed.

(** X17: in the main loop the selection runs after autoNuke has gone over
    every scanned server; there its own autoNuke calls change nothing, the
    walk finds the same servers as before the nuking, and every target it
    names was already rooted when it was called. *)
Theorem selection_after_nuke_is_pure (w : World) :
  snd (pickTargetsAndStrategy (nukeAll w)) = nukeAll w
  /\ scanAll (nukeAll w) = scanAll w
  /\ forall t,
       primary (fst (pickTargetsAndStrategy (nukeAll w))) = Some t
       \/ In t (secondaries (fst (pickTargetsAndStrategy (nukeAll w)))) ->
       rooted (nukeAll w) t = true.
Proof.
  assert (Hpure : fold_left considerWorld (moneyHosts (nukeAll w)) (nukeAll w)
                  = nukeAll w).
  { apply fold_unchanged. intros h Hh. apply moneyHosts_In in Hh.
    destruct Hh as (_ & Hs & _). rewrite scanAll_nukeAll in Hs.
    unfold considerWorld. destruct (blocked (nukeAll w) h); [reflexivity |].
    unfold nukeAll. apply fold_autoNuke_settled. exact Hs. }
  split; [rewrite pick_unfold; cbn [snd]; exact Hpure |].
  split; [apply scanAll_nukeAll |].
  intros t Ht. rewrite pick_unfold in Ht. cbn [fst] in Ht.
  apply decide_names in Ht. destruct Ht as (c & Hc & <-).
  apply pool_In in Hc. destruct Hc as (_ & _ & _ & _ & Hr).
  rewrite Hpure in Hr. exact Hr.
Qed.

(** X18: what the nuking of the main loop does to a server.  A server that
    cannot be reached from home is left as it was.  A reachable server
    other than home has root access afterwards exactly when it had it
    before or its open ports, with those the port openers on home add,
    reach the number it requires. *)
Theorem nukeAll_roots_what_it_can (w : World) (h : string) (sv : Server) :
  findServer (servers w) h = Some sv ->
  (~ reachable w h -> findServer (servers (nukeAll w)) h = Some sv)
  /\ (reachable w h -> h <> home ->
      rooted (nukeAll w) h
      = hasRootAccess sv
        || (numOpenPortsRequired sv
            <=? openPortCount (openPorts (programs w) sv))%nat).
Proof.
  intros Hf. unfold rooted, nukeAll. rewrite findServer_fold_autoNuke.
  pose proof (scanAll_walking w) as [_ _ _ Hsound _].
  assert (Hall : forall x, reachable w x -> In x (scanAll w)).
  { intros x Hx. induction Hx as [| x n Hx IH Hn].
    - apply (scanAll_walking w).
    - eapply (walk_done _ _ _ (scanAll_walking w)); [exact IH | | exact Hn].
      intros []. }
  split.
  - intros Hnot. destruct (seenHas (scanAll w) h) eqn:E; [| exact Hf].
    exfalso. apply Hnot, Hsound. apply seenHas_In. exact E.
  - intros Hr Hne. apply Hall, seenHas_In in Hr. rewrite Hr, Hf.
    cbn [option_map]. pose proof (findServer_hostname _ _ _ Hf) as Hn.
    apply String.eqb_eq in Hn.
    destruct (hasRootAccess sv) eqn:Er.
    + rewrite (autoNukeServer_rooted _ _ Er), Er. reflexivity.
    + rewrite autoNukeServer_attempt;
        [| rewrite Hn; apply String.eqb_neq; exact Hne | exact Er].
      unfold nuke. cbn [numOpenPortsRequired openPorts orb].
      destruct (_ <=? _)%nat; cbn [hasRootAccess openPorts]; [reflexivity |].
      exact Er.
Qed.

Lemma nukeAll_roots_what_it_can_witness :
  exists sv,
    findServer (servers Samples.network) "n00dles" = Some sv
    /\ hasRootAccess sv = false
    /\ rooted (nukeAll Samples.network) "n00dles" = true.
Proof.
  eexists. split; [reflexivity |]. split; [reflexivity |].
  refine (let H := nukeAll_roots_what_it_can Samples.network "n00dles" _ eq_refl
          in _).
  destruct H as [_ H]. rewrite H.
  - reflexivity.
  - apply (reachable_step Samples.network home); [apply reachable_home |].
    left. reflexivity.
  - discriminate.
Defined.

(** *** deployHostBatcher and the RAM aimed at *)

Lemma hackPctForRam_range ram :
  0.01 <= hackPctForRam ram /\ hackPctForRam ram <= 0.025.
Proof.
  unfold hackPctForRam.
  destruct (leb 1024 ram); [split; discriminate |].
  destruct (leb 256 ram); [split; discriminate |].
  destruct (leb 64 ram); split; discriminate.
Qed.

(** X19: the hack percent deployHostBatcher picks lies between 0.01 and
    0.025, does not fall when the RAM of the server rises, and is taken by
    host-batcher-smart.js as it is given: the cap and the default of its
    second argument leave it alone. *)
Theorem hack_pct_tiers (ram1 ram2 : Q) :
  ram1 <= ram2 ->
  0.01 <= hackPctForRam ram1
  /\ hackPctForRam ram1 <= hackPctForRam ram2
  /\ hackPctForRam ram2 <= 0.025
  /\ Batcher.initBaseHackPct (Batcher.Fin (hackPctForRam ram1))
     = Batcher.Fin (hackPctForRam ram1).
Proof.
  intros Hle.
  split; [apply hackPctForRam_range |].
  split; [| split; [apply hackPctForRam_range |]].
  - assert (Up : forall k, leb k ram1 = true -> leb k ram2 = true).
    { intros k H. apply leb_true in H. apply leb_true. lra. }
    unfold hackPctForRam.
    destruct (leb 1024 ram1) eqn:A1; [rewrite (Up _ A1); discriminate |].
    destruct (leb 256 ram1) eqn:A2.
    { rewrite (Up _ A2). destruct (leb 1024 ram2); discriminate. }
    destruct (leb 64 ram1) eqn:A3.
    { rewrite (Up _ A3).
      destruct (leb 1024 ram2); [discriminate |].
      destruct (leb 256 ram2); discriminate. }
    destruct (leb 1024 ram2); [discriminate |].
    destruct (leb 256 ram2); [discriminate |].
    destruct (leb 64 ram2); discriminate.
  - unfold hackPctForRam.
    destruct (leb 1024 ram1); [reflexivity |].
    destruct (leb 256 ram1); [reflexivity |].
    destruct (leb 64 ram1); reflexivity.
Qed.

Lemma hack_pct_tiers_witness :
  hackPctForRam 32 <= hackPctForRam 2048
  /\ Batcher.initBaseHackPct (Batcher.Fin (hackPctForRam 32))
     = Batcher.Fin (hackPctForRam 32).
Proof.
  assert (H : 32 <= 2048) by discriminate.
  destruct (hack_pct_tiers 32 2048 H) as (_ & H1 & _ & H2).
  split; [exact H1 | exact H2].
Defined.

(** X20: when deployHostBatcher reaches its ns.exec, the target it passes
    is the one assignTargetForServer returned under the same draws and is
    not the empty string, the batcher fits in the RAM the server has
    free, and the hack percent is the tier of the server's RAM. *)
Theorem deploy_arguments (w : World) (usedRam batcherRam : Q)
                         (server : string) (targets : Strategy)
                         (rand : nat -> Q) (d : Deploy) :
  run (deployHostBatcher w usedRam batcherRam server targets) rand = Some d ->
  run (assignTargetForServer w server targets) rand = Some (assigned d)
  /\ assigned d <> EmptyString
  /\ batcherRam <= getServerMaxRam w server - usedRam
  /\ hackPct d = hackPctForRam (getServerMaxRam w server).
Proof.
  unfold run, deployHostBatcher, bind, ret.
  destruct (assignTargetForServer w server targets rand O) as [a k].
  cbn [fst]. destruct (truthy a) eqn:Ht; [| discriminate].
  destruct (ltb (getServerMaxRam w server - usedRam) batcherRam) eqn:Ef;
    [discriminate |].
  destruct a as [t |]; [| discriminate].
  intros [= <-]. cbn [assigned hackPct]. apply ltb_false in Ef.
  split; [reflexivity |]. split; [| split; [exact Ef | reflexivity]].
  intros ->. discriminate Ht.
Qed.

Lemma deploy_arguments_witness :
  exists d,
    run (deployHostBatcher Samples.network 0 5.5 "pserv-7" Samples.spread)
        (fun _ => 0.5) = Some d
    /\ assigned d = "foodnstuff"%string
    /\ hackPct d = hackPctForRam (getServerMaxRam Samples.network "pserv-7").
Proof.
  eexists. split; [reflexivity |].
  refine (let H := deploy_arguments Samples.network 0 5.5 "pserv-7"
                     Samples.spread (fun _ => 0.5) _ eq_refl in _).
  destruct H as (_ & _ & _ & H). split; [reflexivity | exact H].
Defined.

(** [baseRam] from a power-of-two multiple of the initial RAM on. *)
Lemma baseRam_from (step : bool -> Z -> Z) :
  (forall a ram, step a ram = autoScale a ram
                 \/ step a ram = autoScalePurchased a ram) ->
  forall answers k, (0 <= k <= 8)%Z ->
    fold_left (fun ram a => step a ram) answers (INITIAL_RAM * 2 ^ k)%Z
    = (INITIAL_RAM
       * 2 ^ Z.min 8 (k + Z.of_nat (List.length (filter (fun a => a) answers))))%Z.
Proof.
  intros Hstep. induction answers as [| a answers IH]; intros k Hk.
  - cbn [fold_left filter List.length]. f_equal. f_equal. lia.
  - cbn [fold_left filter].
    assert (Hpow : (2 ^ k <= 2 ^ 8)%Z) by (apply Z.pow_le_mono_r; lia).
    assert (E : step a (INITIAL_RAM * 2 ^ k)%Z
                = (INITIAL_RAM * 2 ^ (if a then Z.min 8 (k + 1) else k))%Z).
    { unfold INITIAL_RAM in *.
      destruct (Hstep a (8 * 2 ^ k)%Z) as [-> | ->];
        unfold autoScale, autoScalePurchased, MAX_RAM_CAP;
        (destruct a; cbn [andb]; [| reflexivity]);
        (destruct (Z.ltb_spec (8 * 2 ^ k) 2048) as [Hlt | Hge];
         [ assert (Hk8 : (k < 8)%Z)
             by (apply (Z.pow_lt_mono_r_iff 2); [lia | lia |];
                 change (2 ^ 8)%Z with 256%Z; lia);
           assert (Hs : (2 ^ (k + 1) = 2 * 2 ^ k)%Z)
             by (rewrite Z.pow_add_r by lia; change (2 ^ 1)%Z with 2%Z; lia);
           assert (Hpow' : (2 ^ (k + 1) <= 2 ^ 8)%Z)
             by (apply Z.pow_le_mono_r; lia);
           change (2 ^ 8)%Z with 256%Z in Hpow';
           rewrite (Z.min_r 8 (k + 1)) by lia; lia
         | change (2 ^ 8)%Z with 256%Z in Hpow;
           assert (Hk8 : k = 8%Z)
             by (destruct (Z.eq_dec k 8) as [e | n]; [exact e |];
                 exfalso;
                 assert (Hlt : (2 ^ k < 2 ^ 8)%Z)
                   by (apply Z.pow_lt_mono_r; lia);
                 change (2 ^ 8)%Z with 256%Z in Hlt; lia);
           subst k; reflexivity ]). }
    rewrite E. destruct a.
    + rewrite IH by lia. cbn [List.length]. f_equal. f_equal. lia.
    + rewrite IH by lia. reflexivity.
Qed.

(** X21: the RAM the controller aims at is the initial 8 GB doubled once
    for every pass in which all purchased servers had it, eight times at
    most: it stops at the cap of 2048 GB exactly, so the Math.min of
    controller-smart.js never binds, and controller-purchased.js, which
    doubles without it, arrives at the same values. *)
Theorem base_ram_doubles_to_cap (answers : list bool) :
  baseRamAfter autoScale answers
  = (INITIAL_RAM
     * 2 ^ Z.min 8 (Z.of_nat (List.length (filter (fun a => a) answers))))%Z
  /\ baseRamAfter autoScalePurchased answers = baseRamAfter autoScale answers
  /\ (INITIAL_RAM <= baseRamAfter autoScale answers <= MAX_RAM_CAP)%Z.
Proof.
  assert (A : baseRamAfter autoScale answers
              = (INITIAL_RAM * 2 ^ Z.min 8
                   (0 + Z.of_nat (List.length (filter (fun a => a) answers))))%Z).
  { unfold baseRamAfter.
    rewrite <- (baseRam_from autoScale) by (auto || lia).
    f_equal. }
  assert (B : baseRamAfter autoScalePurchased answers
              = (INITIAL_RAM * 2 ^ Z.min 8
                   (0 + Z.of_nat (List.length (filter (fun a => a) answers))))%Z).
  { unfold baseRamAfter.
    rewrite <- (baseRam_from autoScalePurchased) by (auto || lia).
    f_equal. }
  cbn [Z.add] in A, B.
  split; [exact A |]. split; [rewrite A, B; reflexivity |].
  rewrite A. unfold INITIAL_RAM, MAX_RAM_CAP.
  set (n := Z.min 8 _).
  assert (Hn : (0 <= n <= 8)%Z) by (unfold n; lia).
  assert (H0 : (2 ^ 0 <= 2 ^ n)%Z) by (apply Z.pow_le_mono_r; lia).
  assert (H8 : (2 ^ n <= 2 ^ 8)%Z) by (apply Z.pow_le_mono_r; lia).
  change (2 ^ 0)%Z with 1%Z in H0. change (2 ^ 8)%Z with 256%Z in H8. lia.
Qed.

End ControllerMore.

(** ** controller-rooted.js and controller-purchased.js *)

Module ControllerRootedFacts.

Import JsMath JsMathFacts Controller ControllerFacts ControllerLoop ControllerMore.

(** *** The selection, by the world it ends in *)

Lemma rooted_consider_split w arr h :
  ControllerRooted.consider (w, arr) h
  = (considerWorld w h, arr ++ ControllerRooted.pushed (considerWorld w h) h).
Proof.
  unfold ControllerRooted.consider, considerWorld, ControllerRooted.pushed.
  fold (blocked w h). destruct (blocked w h) eqn:Eb.
  - rewrite Eb, app_nil_r. reflexivity.
  - rewrite blocked_autoNuke, Eb.
    destruct (negb (rooted (autoNuke w h) h));
      [rewrite app_nil_r; reflexivity | reflexivity].
Qed.

Lemma rooted_fold_consider l : forall w arr,
  fold_left ControllerRooted.consider l (w, arr)
  = (fold_left considerWorld l w,
     arr ++ snd (fold_left ControllerRooted.consider l (w, []))).
Proof.
  induction l as [| h l IH]; intros w arr; cbn [fold_left].
  - cbn [snd]. rewrite app_nil_r. reflexivity.
  - rewrite !rooted_consider_split. rewrite IH.
    rewrite (IH (considerWorld w h)
                ([] ++ ControllerRooted.pushed (considerWorld w h) h)).
    cbn [snd app]. rewrite app_assoc. reflexivity.
Qed.

Lemma rooted_pushed_ext w1 w2 h :
  findServer (servers w1) h = findServer (servers w2) h ->
  hackingLevel w1 = hackingLevel w2 ->
  ControllerRooted.pushed w1 h = ControllerRooted.pushed w2 h.
Proof.
  intros Hs Hl.
  unfold ControllerRooted.pushed, blocked, ControllerRooted.score, rooted,
    hackAnalyzeChance, getServerRequiredHackingLevel, getServerMaxMoney.
  rewrite Hs, Hl. reflexivity.
Qed.

Lemma rooted_fold_consider_pushes l : forall w,
  snd (fold_left ControllerRooted.consider l (w, []))
  = flat_map (ControllerRooted.pushed (fold_left considerWorld l w)) l.
Proof.
  induction l as [| h l IH]; intros w; [reflexivity |].
  cbn [fold_left flat_map]. rewrite rooted_consider_split, rooted_fold_consider.
  cbn [snd app]. rewrite IH. f_equal.
  apply rooted_pushed_ext.
  - symmetry. apply findServer_fold_settled. apply considerWorld_idem.
  - symmetry. apply fold_considerWorld_level.
Qed.

Lemma rooted_pick_unfold w :
  ControllerRooted.pickTargetsAndStrategy w
  = (ControllerRooted.decide
       (firstn ControllerRooted.POOL (sortByScore
          (flat_map (ControllerRooted.pushed
                       (fold_left considerWorld (moneyHosts w) w))
                    (moneyHosts w)))),
     fold_left considerWorld (moneyHosts w) w).
Proof.
  unfold ControllerRooted.pickTargetsAndStrategy.
  rewrite rooted_fold_consider. cbn [app].
  rewrite rooted_fold_consider_pushes. reflexivity.
Qed.

Lemma rooted_pushed_In w' h c :
  In c (ControllerRooted.pushed w' h) ->
  s c = h /\ chance c = hackAnalyzeChance w' h
  /\ Controller.score c = ControllerRooted.score w' h
  /\ blocked w' h = false /\ rooted w' h = true.
Proof.
  unfold ControllerRooted.pushed. destruct (blocked w' h) eqn:Eb; [intros [] |].
  destruct (rooted w' h) eqn:Er; cbn [negb]; [| intros []].
  intros [<- | []]. cbn [s chance Controller.score]. repeat split; assumption.
Qed.

Lemma rooted_pushed_names w' h :
  map s (ControllerRooted.pushed w' h) = []
  \/ map s (ControllerRooted.pushed w' h) = [h].
Proof.
  unfold ControllerRooted.pushed. destruct (blocked w' h); [left; reflexivity |].
  destruct (negb (rooted w' h)); [left | right]; reflexivity.
Qed.

Lemma rooted_names_nodup w' l :
  NoDup l -> NoDup (map s (flat_map (ControllerRooted.pushed w') l)).
Proof.
  induction 1 as [| h l Hh Hl IH]; cbn [flat_map map]; [constructor |].
  rewrite map_app. destruct (rooted_pushed_names w' h) as [-> | ->]; [exact IH |].
  cbn [app]. constructor; [| exact IH].
  intros Hin. apply in_map_iff in Hin. destruct Hin as (c & Ec & Hc).
  apply in_flat_map in Hc. destruct Hc as (h' & Hh' & Hc).
  apply rooted_pushed_In in Hc. destruct Hc as (Es & _).
  apply Hh. rewrite <- Ec, Es. exact Hh'.
Qed.

(** The pool of the selection: names without repetition, each a usable
    money host. *)
Lemma rooted_pool w :
  NoDup (map s (firstn ControllerRooted.POOL (sortByScore
          (flat_map (ControllerRooted.pushed
                       (fold_left considerWorld (moneyHosts w) w))
                    (moneyHosts w)))))
  /\ forall c,
       In c (firstn ControllerRooted.POOL (sortByScore
          (flat_map (ControllerRooted.pushed
                       (fold_left considerWorld (moneyHosts w) w))
                    (moneyHosts w)))) ->
       In (s c) (moneyHosts w)
       /\ chance c = hackAnalyzeChance w (s c)
       /\ (getServerRequiredHackingLevel w (s c) <= hackingLevel w)%Z
       /\ rooted (fold_left considerWorld (moneyHosts w) w) (s c) = true.
Proof.
  split.
  - rewrite <- firstn_map. apply nodup_firstn.
    eapply Permutation_NoDup;
      [apply Permutation_map; apply sortByScore_perm |].
    apply rooted_names_nodup. unfold moneyHosts. apply NoDup_filter.
    apply (scanAll_walking w).
  - intros c H. apply In_firstn in H.
    apply (Permutation_in _ (Permutation_sym (sortByScore_perm _))) in H.
    apply in_flat_map in H. destruct H as (h & Hh & Hc).
    apply rooted_pushed_In in Hc. destruct Hc as (Es & Ec & _ & Eb & Er).
    set (w' := fold_left considerWorld (moneyHosts w) w) in *.
    destruct (fold_considerWorld_reads (moneyHosts w) w h) as (_ & _ & Rl & Rc & _).
    destruct (fold_considerWorld_static (moneyHosts w) w) as (Sl & _).
    fold w' in Rl, Rc, Sl.
    rewrite Es. split; [exact Hh |]. split; [rewrite Ec; exact Rc |].
    split; [| exact Er].
    unfold blocked in Eb. apply Z.ltb_ge in Eb. rewrite Rl, Sl in Eb. exact Eb.
Qed.

(** The names of a decision are the names of its pool, in order. *)
Lemma rooted_decide_names top :
  match primary (ControllerRooted.decide top) with
  | Some p => p :: secondaries (ControllerRooted.decide top)
  | None => secondaries (ControllerRooted.decide top)
  end = map s top
  /\ forall t, primary (ControllerRooted.decide top) = Some t ->
       exists a rest, top = a :: rest /\ s a = t /\ 0.65 <= chance a.
Proof.
  unfold ControllerRooted.decide. destruct top as [| a rest].
  - split; [reflexivity | intros t [=]].
  - destruct (leb 0.65 (chance a)) eqn:Ec; cbn [andb].
    + destruct (ltb _ (Controller.score a)); cbn [primary secondaries].
      * split; [reflexivity |]. intros t [= <-]. exists a, rest.
        apply leb_true in Ec. repeat split; assumption.
      * split; [reflexivity | intros t [=]].
    + cbn [primary secondaries]. split; [reflexivity | intros t [=]].
Qed.

(** X22: the selection of controller-rooted.js and controller-purchased.js
    names every server of its pool: at most ten names, the primary and
    the secondaries together, none twice.  Each is a server other than
    home that is reachable, holds money, is within the player's hacking
    level and is rooted when the selection returns; a primary has a hack
    chance of at least 0.65. *)
Theorem rooted_strategy_names_its_pool (w : World) :
  (List.length
     (match primary (fst (ControllerRooted.pickTargetsAndStrategy w)) with
      | Some p => p :: secondaries (fst (ControllerRooted.pickTargetsAndStrategy w))
      | None => secondaries (fst (ControllerRooted.pickTargetsAndStrategy w))
      end) <= 10)%nat
  /\ NoDup
       (match primary (fst (ControllerRooted.pickTargetsAndStrategy w)) with
        | Some p => p :: secondaries (fst (ControllerRooted.pickTargetsAndStrategy w))
        | None => secondaries (fst (ControllerRooted.pickTargetsAndStrategy w))
        end)
  /\ (forall t,
        In t (match primary (fst (ControllerRooted.pickTargetsAndStrategy w)) with
              | Some p => p :: secondaries (fst (ControllerRooted.pickTargetsAndStrategy w))
              | None => secondaries (fst (ControllerRooted.pickTargetsAndStrategy w))
              end) ->
        t <> home /\ reachable w t /\ 0 < getServerMaxMoney w t
        /\ (getServerRequiredHackingLevel w t <= hackingLevel w)%Z
        /\ rooted (snd (ControllerRooted.pickTargetsAndStrategy w)) t = true)
  /\ (forall t,
        primary (fst (ControllerRooted.pickTargetsAndStrategy w)) = Some t ->
        0.65 <= hackAnalyzeChance w t).
Proof.
  rewrite rooted_pick_unfold. cbn [fst snd].
  destruct (rooted_pool w) as [Hnd Hin].
  set (top := firstn ControllerRooted.POOL _) in *.
  destruct (rooted_decide_names top) as [-> Hp].
  split.
  { rewrite length_map. unfold top. rewrite length_firstn.
    unfold ControllerRooted.POOL. lia. }
  split; [exact Hnd |]. split.
  - intros t Ht. apply in_map_iff in Ht. destruct Ht as (c & <- & Hc).
    destruct (Hin c Hc) as (Hh & _ & Hl & Hr).
    apply moneyHosts_In in Hh. destruct Hh as (Hne & Hs & Hm).
    repeat split; try assumption.
    apply (scanAll_walking w). exact Hs.
  - intros t Ht. destruct (Hp t Ht) as (a & rest & Etop & <- & Hc).
    assert (Ha : In a top) by (rewrite Etop; left; reflexivity).
    destruct (Hin a Ha) as (_ & <- & _). exact Hc.
Qed.

(** *** Against the selection of controller-smart.js *)

Lemma filter_flat_map {A B : Type} (p : B -> bool) (f : A -> list B) l :
  filter p (flat_map f l) = flat_map (fun x => filter p (f x)) l.
Proof.
  induction l as [| x l IH]; [reflexivity |].
  cbn [flat_map]. rewrite filter_app, IH. reflexivity.
Qed.

Lemma flat_map_agree {A B : Type} (f g : A -> list B) l :
  (forall x, In x l -> f x = g x) -> flat_map f l = flat_map g l.
Proof.
  induction l as [| x l IH]; intros H; [reflexivity |].
  cbn [flat_map]. rewrite (H x (or_introl eq_refl)), IH; [reflexivity |].
  intros y Hy. apply H. right. exact Hy.
Qed.

Lemma insertByScore_front c l :
  Forall (fun d => Controller.score d <= Controller.score c) l ->
  insertByScore c l = c :: l.
Proof.
  destruct l as [| d r]; [reflexivity |]. intros H.
  apply Forall_cons_iff in H. destruct H as [Hd _]. cbn [insertByScore].
  assert (E : ltb (Controller.score c) (Controller.score d) = false)
    by (apply ltb_false; exact Hd).
  rewrite E. reflexivity.
Qed.

Lemma insertByScore_filter (p : Candidate -> bool) c l :
  StronglySorted (fun a b => Controller.score b <= Controller.score a) l ->
  filter p (insertByScore c l)
  = if p c then insertByScore c (filter p l) else filter p l.
Proof.
  induction 1 as [| d r Hr IH Hd]; cbn [insertByScore filter].
  - destruct (p c); reflexivity.
  - destruct (ltb (Controller.score c) (Controller.score d)) eqn:E.
    + cbn [filter]. rewrite IH.
      destruct (p d), (p c); try reflexivity.
      cbn [insertByScore]. rewrite E. reflexivity.
    + cbn [filter]. destruct (p c) eqn:Ec; [| reflexivity].
      apply ltb_false in E. symmetry. apply insertByScore_front.
      assert (All : Forall (fun x => Controller.score x <= Controller.score c)
                           (d :: r)).
      { constructor; [exact E |].
        eapply Forall_impl; [| exact Hd]. intros x Hx. cbv beta in *.
        eapply Qle_trans; [exact Hx | exact E]. }
      apply Forall_forall. intros x Hx.
      assert (Hx' : In x (d :: r)).
      { change (In x (filter p (d :: r))) in Hx. apply filter_In in Hx. apply Hx. }
      exact (proj1 (Forall_forall _ _) All x Hx').
Qed.

(** Sorting and then dropping candidates is dropping them and then
    sorting. *)
Lemma sortByScore_filter (p : Candidate -> bool) l :
  sortByScore (filter p l) = filter p (sortByScore l).
Proof.
  induction l as [| c l IH]; [reflexivity |].
  change (sortByScore (c :: l)) with (insertByScore c (sortByScore l)).
  rewrite (insertByScore_filter p c _ (sortByScore_sorted l)).
  cbn [filter]. destruct (p c); [| exact IH].
  change (sortByScore (c :: filter p l))
    with (insertByScore c (sortByScore (filter p l))).
  rewrite IH. reflexivity.
Qed.

(** What controller-smart.js pushes for a money host is what
    controller-rooted.js pushes, when the chance is positive. *)
Lemma pushed_is_filtered w' h :
  0 < getServerMaxMoney w' h ->
  pushed w' h
  = filter (fun c => ltb 0 (chance c)) (ControllerRooted.pushed w' h).
Proof.
  intros Hm. unfold pushed, ControllerRooted.pushed.
  destruct (blocked w' h); [reflexivity |].
  destruct (negb (rooted w' h)); [reflexivity |].
  cbn [filter chance].
  destruct (leb (hackAnalyzeChance w' h) 0) eqn:E.
  - apply leb_true in E.
    assert (F : ltb 0 (hackAnalyzeChance w' h) = false) by (apply ltb_false; exact E).
    rewrite F. reflexivity.
  - assert (T : ltb 0 (hackAnalyzeChance w' h) = true)
      by (apply ltb_true; apply leb_false; exact E).
    rewrite T. unfold candidateScore, ControllerRooted.score. cbv zeta.
    assert (M : leb (getServerMaxMoney w' h) 0 = false) by (apply leb_false; exact Hm).
    rewrite M, E. reflexivity.
Qed.

Lemma smart_pool_is_filtered w :
  sortByScore (flat_map (pushed (fold_left considerWorld (moneyHosts w) w))
                        (moneyHosts w))
  = filter (fun c => ltb 0 (chance c))
      (sortByScore
         (flat_map (ControllerRooted.pushed
                      (fold_left considerWorld (moneyHosts w) w))
                   (moneyHosts w))).
Proof.
  rewrite <- sortByScore_filter, filter_flat_map. f_equal.
  apply flat_map_agree. intros h Hh. apply pushed_is_filtered.
  destruct (fold_considerWorld_reads (moneyHosts w) w h) as (_ & -> & _).
  apply moneyHosts_In in Hh. apply Hh.
Qed.

Lemma score_pos w' h :
  0 < getServerMaxMoney w' h -> 0 < hackAnalyzeChance w' h ->
  (0 <= getServerRequiredHackingLevel w' h)%Z ->
  0 < ControllerRooted.score w' h.
Proof.
  intros Hm Hc Hr. unfold ControllerRooted.score. cbv zeta.
  assert (Hq : 0 <= inject_Z (getServerRequiredHackingLevel w' h))
    by (change 0 with (inject_Z 0); rewrite <- Zle_Qle; exact Hr).
  assert (Hd : 0 < 1 + inject_Z (getServerRequiredHackingLevel w' h) / 10).
  { assert (0 <= inject_Z (getServerRequiredHackingLevel w' h) / 10)
      by (apply Qle_shift_div_l; [reflexivity | lra]).
    lra. }
  apply Qlt_shift_div_l; [exact Hd |].
  setoid_replace (0 * (1 + inject_Z (getServerRequiredHackingLevel w' h) / 10))
    with 0 by ring.
  apply Qmult_lt_0_compat; assumption.
Qed.

(** X23: with required hacking levels that are not negative, as the
    game has them, a primary named by the selection of
    controller-rooted.js and controller-purchased.js is also the primary
    named by controller-smart.js on the same game. *)
Theorem rooted_primary_is_smart_primary (w : World) (t : string) :
  (forall h, (0 <= getServerRequiredHackingLevel w h)%Z) ->
  primary (fst (ControllerRooted.pickTargetsAndStrategy w)) = Some t ->
  primary (fst (Controller.pickTargetsAndStrategy w)) = Some t.
Proof.
  intros Hreq. rewrite rooted_pick_unfold, pick_unfold. cbn [fst].
  rewrite smart_pool_is_filtered.
  destruct (rooted_pool w) as [_ Hin].
  pose proof (sortByScore_sorted
                (flat_map (ControllerRooted.pushed
                             (fold_left considerWorld (moneyHosts w) w))
                          (moneyHosts w))) as Hsorted.
  pose proof (fun c (H : In c (sortByScore
                (flat_map (ControllerRooted.pushed
                             (fold_left considerWorld (moneyHosts w) w))
                          (moneyHosts w)))) =>
                Permutation_in c (Permutation_sym (sortByScore_perm _)) H)
    as Hback.
  set (W := fold_left considerWorld (moneyHosts w) w) in *.
  set (sorted := sortByScore _) in *.
  destruct sorted as [| a tl] eqn:Es; [cbn; discriminate |].
  unfold ControllerRooted.POOL, POOL. rewrite firstn_cons.
  unfold ControllerRooted.decide.
  destruct (leb 0.65 (chance a)) eqn:Ec; cbn [andb];
    [| cbn [primary]; discriminate].
  destruct (ltb _ (Controller.score a)) eqn:Ed;
    [| cbn [primary]; discriminate].
  cbn [primary]. intros [= <-].
  apply leb_true in Ec. apply ltb_true in Ed.
  assert (Hpa : ltb 0 (chance a) = true) by (apply ltb_true; lra).
  cbn [filter]. rewrite Hpa. rewrite firstn_cons. unfold decide.
  assert (Ec' : leb MIN_HACK_CHANCE_PRIMARY (chance a) = true)
    by (apply leb_true; exact Ec).
  rewrite Ec'. cbn [andb].
  (* the score of the primary is positive *)
  assert (Ha : In a (a :: tl)) by (left; reflexivity).
  apply Hback in Ha. apply in_flat_map in Ha. destruct Ha as (h & Hh & Ha).
  apply rooted_pushed_In in Ha. destruct Ha as (Esa & Eca & Esc & _ & _).
  assert (Hpos : 0 < Controller.score a).
  { rewrite Esc.
    destruct (fold_considerWorld_reads (moneyHosts w) w h)
      as (_ & Rm & Rl & _).
    fold W in Rm, Rl.
    apply score_pos.
    - rewrite Rm. apply moneyHosts_In in Hh. apply Hh.
    - rewrite <- Eca. lra.
    - rewrite Rl. apply Hreq. }
  apply StronglySorted_inv in Hsorted. destruct Hsorted as [Htl Hall].
  assert (Hsecond :
            match firstn 11 (filter (fun c => ltb 0 (chance c)) tl) with
            | t2 :: _ => Controller.score t2
            | [] => 0
            end * PRIMARY_DOMINANCE_RATIO < Controller.score a).
  { destruct (filter (fun c => ltb 0 (chance c)) tl) as [| x xs] eqn:Ef.
    - cbn [firstn]. unfold PRIMARY_DOMINANCE_RATIO. lra.
    - rewrite firstn_cons.
      assert (Hx : In x tl).
      { assert (Hx : In x (filter (fun c => ltb 0 (chance c)) tl))
          by (rewrite Ef; left; reflexivity).
        apply filter_In in Hx. apply Hx. }
      destruct tl as [| b tl']; [destruct Hx |].
      assert (Hxb : Controller.score x <= Controller.score b).
      { destruct Hx as [<- | Hx]; [apply Qle_refl |].
        apply StronglySorted_inv in Htl. destruct Htl as [_ Hb].
        exact (proj1 (Forall_forall _ _) Hb x Hx). }
      rewrite firstn_cons in Ed. unfold PRIMARY_DOMINANCE_RATIO. lra. }
  assert (Ed' : ltb (match firstn 11 (filter (fun c => ltb 0 (chance c)) tl) with
                     | t2 :: _ => Controller.score t2
                     | [] => 0
                     end * PRIMARY_DOMINANCE_RATIO) (Controller.score a) = true)
    by (apply ltb_true; exact Hsecond).
  rewrite Ed'. reflexivity.
Qed.

Lemma levels_nonneg w :
  Forall (fun sv => (0 <= requiredHackingLevel sv)%Z) (servers w) ->
  forall h, (0 <= getServerRequiredHackingLevel w h)%Z.
Proof.
  intros H h. unfold getServerRequiredHackingLevel.
  destruct (findServer (servers w) h) as [sv |] eqn:E; [| lia].
  apply findServer_In in E. exact (proj1 (Forall_forall _ _) H sv E).
Qed.

Lemma rooted_primary_is_smart_primary_witness :
  primary (fst (ControllerRooted.pickTargetsAndStrategy MoreSamples.market))
  = Some "phantasy"%string
  /\ primary (fst (Controller.pickTargetsAndStrategy MoreSamples.market))
     = Some "phantasy"%string.
Proof.
  assert (Hr : primary (fst (ControllerRooted.pickTargetsAndStrategy
                               MoreSamples.market)) = Some "phantasy"%string)
    by reflexivity.
  split; [exact Hr |].
  apply (rooted_primary_is_smart_primary MoreSamples.market "phantasy");
    [| exact Hr].
  apply levels_nonneg. repeat constructor; discriminate.
Defined.

(** *** What the main loop of controller-rooted.js starts *)




(** *** The assignments of the two controllers *)

Lemma rooted_primaryChosen_truthy ram targets rand k :
  fst (ControllerRooted.primaryChosen ram targets rand k) = true ->
  truthy (primary targets) = true.
Proof.
  unfold ControllerRooted.primaryChosen.
  destruct (truthy (primary targets)); [reflexivity |]. cbn. intros H. exact H.
Qed.

Lemma purchased_primaryChosen_truthy ram targets rand k :
  fst (ControllerPurchased.primaryChosen ram targets rand k) = true ->
  truthy (primary targets) = true.
Proof.
  unfold ControllerPurchased.primaryChosen.
  destruct (truthy (primary targets)); [reflexivity |]. cbn. intros H. exact H.
Qed.

(** The part the assignments share, once the draw for the primary has
    been made. *)
Lemma assignment_tail (targets : Strategy) (digits : option string)
                      (viaPrimary : bool) (rand : nat -> Q) (k : nat) :
  (forall k, 0 <= rand k /\ rand k < 1) ->
  (viaPrimary = true -> truthy (primary targets) = true) ->
  exists t,
    fst ((if viaPrimary then ret (primary targets)
          else
            match secondaries targets with
            | [] => ret (if truthy (primary targets) then primary targets
                         else Some "n00dles"%string)
            | _ =>
                match digits with
                | Some d =>
                    ret (nth_error (secondaries targets)
                           (N.to_nat (parseInt d
                                      mod N.of_nat (List.length (secondaries targets)))))
                | None =>
                    r <- random ;;
                    ret (nth_error (secondaries targets)
                           (Z.to_nat (floor (r * inject_Z
                              (Z.of_nat (List.length (secondaries targets)))))))
                end
            end) rand k) = Some t
    /\ (primary targets = Some t
        \/ In t (secondaries targets)
        \/ (t = "n00dles"%string /\ secondaries targets = []
            /\ truthy (primary targets) = false)).
Proof.
  intros Hrand Hvia. destruct viaPrimary.
  - destruct (truthy_Some _ (Hvia eq_refl)) as (t & Et).
    exists t. cbn. split; [exact Et | left; exact Et].
  - destruct (secondaries targets) as [| t0 ts] eqn:Es.
    + cbn. destruct (truthy (primary targets)) eqn:Ht.
      * destruct (truthy_Some _ Ht) as (t & Et).
        exists t. split; [exact Et | left; exact Et].
      * exists "n00dles"%string. split; [reflexivity |].
        right. right. repeat split; reflexivity.
    + assert (Hne : t0 :: ts <> []) by discriminate.
      destruct digits as [d |].
      * cbn [ret fst]. destruct (index_in_range (parseInt d) (t0 :: ts) Hne)
          as (t & Et).
        exists t. split; [exact Et |]. right. left.
        exact (nth_error_In _ _ Et).
      * unfold bind, random, ret. cbn [fst]. destruct (Hrand k) as [H0 H1].
        assert (Hlen : (0 < List.length (t0 :: ts))%nat)
          by (cbn [List.length]; lia).
        pose proof (random_index (rand k) _ H0 H1 Hlen) as Hidx.
        apply nth_error_Some in Hidx.
        destruct (nth_error (t0 :: ts) _) as [t |] eqn:Et;
          [| exfalso; apply Hidx; reflexivity].
        exists t. split; [reflexivity |]. right. left.
        exact (nth_error_In _ _ Et).
Qed.

(** X25: with draws of Math.random in [0, 1), the assignTarget of
    controller-rooted.js and the assignTargetForServer of
    controller-purchased.js always name a target: the primary, a
    secondary, or n00dles when the strategy has neither.  So deployBatch,
    which does not test the target, never passes undefined to ns.exec. *)
Theorem basic_assignments_name_a_target (w : World) (server : string)
                                        (targets : Strategy)
                                        (rand : nat -> Q) :
  (forall k, 0 <= rand k /\ rand k < 1) ->
  (exists t,
     run (ControllerRooted.assignTarget w server targets) rand = Some t
     /\ (primary targets = Some t
         \/ In t (secondaries targets)
         \/ (t = "n00dles"%string /\ secondaries targets = []
             /\ truthy (primary targets) = false)))
  /\ (exists t,
       run (ControllerPurchased.assignTargetForServer w server targets) rand
       = Some t
       /\ fst (run (ControllerPurchased.deployBatch w server targets) rand)
          = Some t
       /\ (primary targets = Some t
           \/ In t (secondaries targets)
           \/ (t = "n00dles"%string /\ secondaries targets = []
               /\ truthy (primary targets) = false))).
Proof.
  intros Hrand. split.
  - unfold run, ControllerRooted.assignTarget, bind at 1. cbv zeta.
    pose proof (rooted_primaryChosen_truthy (getServerMaxRam w server)
                  targets rand O) as Ht.
    destruct (ControllerRooted.primaryChosen (getServerMaxRam w server)
                targets rand O) as [viaPrimary k].
    cbn [fst] in Ht.
    exact (assignment_tail targets (ControllerRooted.matchDigits server)
             viaPrimary rand k Hrand Ht).
  - assert (Hd : fst (run (ControllerPurchased.deployBatch w server targets) rand)
                 = run (ControllerPurchased.assignTargetForServer w server targets)
                       rand).
    { unfold run, ControllerPurchased.deployBatch, bind, ret.
      destruct (ControllerPurchased.assignTargetForServer w server targets rand O).
      reflexivity. }
    assert (A : exists t,
               run (ControllerPurchased.assignTargetForServer w server targets)
                   rand = Some t
               /\ (primary targets = Some t
                   \/ In t (secondaries targets)
                   \/ (t = "n00dles"%string /\ secondaries targets = []
                       /\ truthy (primary targets) = false))).
    { unfold run, ControllerPurchased.assignTargetForServer, bind at 1.
      cbv zeta.
      pose proof (purchased_primaryChosen_truthy (getServerMaxRam w server)
                    targets rand O) as Ht.
      destruct (ControllerPurchased.primaryChosen (getServerMaxRam w server)
                  targets rand O) as [viaPrimary k].
      cbn [fst] in Ht.
      exact (assignment_tail targets (matchPserv server)
               viaPrimary rand k Hrand Ht). }
    destruct A as (t & Et & Hn). exists t. rewrite Hd.
    split; [exact Et |]. split; [exact Et | exact Hn].
Qed.

Lemma basic_assignments_name_a_target_witness :
  exists t,
    run (ControllerRooted.assignTarget MoreSamples.market "n00dles"
           (fst (ControllerRooted.pickTargetsAndStrategy MoreSamples.market)))
        MoreSamples.half = Some t.
Proof.
  assert (Hrand : forall k, 0 <= MoreSamples.half k /\ MoreSamples.half k < 1)
    by (intros k; split; [discriminate | reflexivity]).
  destruct (basic_assignments_name_a_target MoreSamples.market "n00dles"
              (fst (ControllerRooted.pickTargetsAndStrategy MoreSamples.market))
              MoreSamples.half Hrand) as [(t & Ht & _) _].
  exists t. exact Ht.
Defined.

End ControllerRootedFacts.

(** ** hacknet-manager-silent.js *)

Module HacknetFacts.

Import JsMath JsMathFacts Hacknet.

(** *** The order on prices and payback times *)

Lemma leCost_total a b : leCost a b = true \/ leCost b a = true.
Proof.
  destruct a as [x |], b as [y |]; cbn [leCost]; auto.
  destruct (Qlt_le_dec y x) as [H | H].
  - right. apply leb_true. apply Qlt_le_weak. exact H.
  - left. apply leb_true. exact H.
Qed.

Lemma leCost_trans a b c :
  leCost a b = true -> leCost b c = true -> leCost a c = true.
Proof.
  destruct a as [x |], b as [y |], c as [z |]; cbn [leCost];
    try discriminate; try reflexivity.
  rewrite !leb_true. apply Qle_trans.
Qed.

Lemma ltCost_false a b : ltCost a b = false -> leCost b a = true.
Proof. unfold ltCost. apply negb_false_iff. Qed.

Lemma ltCost_true a b : ltCost a b = true -> leCost a b = true.
Proof.
  unfold ltCost. intros H. apply negb_true_iff in H.
  destruct (leCost_total a b) as [T | T]; [exact T | congruence].
Qed.

(** *** The sort and the nudge *)

Lemma insertByPayback_perm o l : Permutation (o :: l) (insertByPayback o l).
Proof.
  induction l as [| d r IH]; cbn [insertByPayback]; [reflexivity |].
  destruct (ltCost (paybackSec d) (paybackSec o)); [| reflexivity].
  rewrite perm_swap. apply perm_skip. exact IH.
Qed.

Lemma sortByPayback_perm l : Permutation l (sortByPayback l).
Proof.
  induction l as [| o l IH]; cbn [sortByPayback fold_right]; [reflexivity |].
  rewrite <- insertByPayback_perm. apply perm_skip. exact IH.
Qed.

Lemma insertByPayback_sorted o l :
  StronglySorted (fun a b => leCost (paybackSec a) (paybackSec b) = true) l ->
  StronglySorted (fun a b => leCost (paybackSec a) (paybackSec b) = true)
                 (insertByPayback o l).
Proof.
  induction 1 as [| d r Hr IH Hd]; cbn [insertByPayback].
  - repeat constructor.
  - destruct (ltCost (paybackSec d) (paybackSec o)) eqn:E.
    + apply ltCost_true in E. constructor; [exact IH |].
      apply (Permutation_Forall (insertByPayback_perm o r)).
      constructor; [exact E | exact Hd].
    + apply ltCost_false in E. constructor.
      * constructor; assumption.
      * constructor; [exact E |].
        eapply Forall_impl; [| exact Hd]. intros x Hx. cbv beta in *.
        eapply leCost_trans; [exact E | exact Hx].
Qed.

Lemma sortByPayback_sorted l :
  StronglySorted (fun a b => leCost (paybackSec a) (paybackSec b) = true)
                 (sortByPayback l).
Proof.
  induction l as [| o l IH]; cbn [sortByPayback fold_right]; [constructor |].
  apply insertByPayback_sorted. exact IH.
Qed.

Lemma removeAt_perm {A : Type} (l : list A) : forall i x,
  nth_error l i = Some x -> Permutation (x :: removeAt i l) l.
Proof.
  induction l as [| y r IH]; intros [| i] x H; cbn in H; try discriminate.
  - injection H as <-. reflexivity.
  - cbn [removeAt]. rewrite perm_swap. apply perm_skip. apply IH. exact H.
Qed.

Lemma findPurchase_nth l : forall i,
  findPurchase l = Some i ->
  exists o, nth_error l i = Some o /\ type o = Purchase.
Proof.
  induction l as [| o r IH]; intros i; cbn [findPurchase]; [discriminate |].
  destruct (isPurchase (type o)) eqn:E.
  - intros [= <-]. exists o. split; [reflexivity |].
    destruct (type o); try discriminate E. reflexivity.
  - destruct (findPurchase r) as [j |]; cbn [option_map]; [| discriminate].
    intros [= <-]. destruct (IH j eq_refl) as (x & Hx & Tx).
    exists x. split; assumption.
Qed.

(** What the nudge does when it does anything. *)
Lemma nudge_cases nodeCount v :
  nudge nodeCount v = v
  \/ exists pur p best rest,
       nudge nodeCount v = pur :: removeAt (S p) v
       /\ v = best :: rest
       /\ nth_error v (S p) = Some pur
       /\ type pur = Purchase
       /\ leCost (paybackSec pur) (twice (paybackSec best)) = true
       /\ (nodeCount < TARGET_NODE_COUNT)%nat.
Proof.
  unfold nudge. destruct (nodeCount <? TARGET_NODE_COUNT)%nat eqn:En;
    [| left; reflexivity].
  apply Nat.ltb_lt in En.
  destruct (findPurchase v) as [[| p] |] eqn:Ef; try (left; reflexivity).
  destruct (findPurchase_nth v (S p) Ef) as (pur & Hn & Ht).
  destruct v as [| best rest]; [left; reflexivity |].
  rewrite Hn.
  destruct (leCost (paybackSec pur) (twice (paybackSec best))) eqn:El;
    [| left; reflexivity].
  right. exists pur, p, best, rest. repeat split; assumption.
Qed.

Lemma nudge_perm nodeCount v : Permutation (nudge nodeCount v) v.
Proof.
  destruct (nudge_cases nodeCount v) as [-> | (pur & p & best & rest & -> & _ & Hn & _)];
    [reflexivity |].
  apply removeAt_perm. exact Hn.
Qed.

Lemma viableOf_In aggressive options o :
  In o (viableOf aggressive options) ->
  In o options
  /\ gtQ (cost o) 0 = true
  /\ 0 < deltaProdPerSec o
  /\ (aggressive = false ->
      leCost (paybackSec o) (Finite (MAX_PAYBACK_SECONDS false)) = true).
Proof.
  unfold viableOf. intros H.
  apply (Permutation_in _ (Permutation_sym (sortByPayback_perm _))) in H.
  apply filter_In in H. destruct H as [H Hp].
  apply filter_In in H. destruct H as [H Hc].
  apply andb_true_iff in Hc. destruct Hc as [Hc Hd]. apply ltb_true in Hd.
  repeat split; try assumption.
  intros ->. exact Hp.
Qed.

(** X26: the list the spending loop goes through.  Before the nudge it
    is sorted by payback time, shortest first; the nudge only reorders
    it, and when it does, a purchase whose payback is at most twice the
    shortest one comes first.  Every option in it has a positive cost
    and gain and, unless the manager is aggressive, a payback within the
    limit, so the second payback test inside the loop never fires. *)
Theorem viable_sorted_then_nudged (aggressive : bool) (nodeCount : nat)
                                  (options : list Opt) :
  StronglySorted (fun a b => leCost (paybackSec a) (paybackSec b) = true)
                 (viableOf aggressive options)
  /\ Permutation (nudge nodeCount (viableOf aggressive options))
                 (viableOf aggressive options)
  /\ (nudge nodeCount (viableOf aggressive options) = viableOf aggressive options
      \/ exists pur rest best,
           nudge nodeCount (viableOf aggressive options) = pur :: rest
           /\ type pur = Purchase
           /\ hd_error (viableOf aggressive options) = Some best
           /\ leCost (paybackSec pur) (twice (paybackSec best)) = true)
  /\ forall o, In o (nudge nodeCount (viableOf aggressive options)) ->
       In o options
       /\ gtQ (cost o) 0 = true
       /\ 0 < deltaProdPerSec o
       /\ negb aggressive
          && negb (leCost (paybackSec o)
                          (Finite (MAX_PAYBACK_SECONDS aggressive))) = false.
Proof.
  split; [apply sortByPayback_sorted |].
  split; [apply nudge_perm |]. split.
  - destruct (nudge_cases nodeCount (viableOf aggressive options))
      as [E | (pur & p & best & rest & E & Ev & _ & Ht & Hl & _)];
      [left; exact E | right].
    exists pur, (removeAt (S p) (viableOf aggressive options)), best.
    split; [exact E |]. split; [exact Ht |].
    split; [rewrite Ev; reflexivity | exact Hl].
  - intros o Ho. apply (Permutation_in _ (nudge_perm _ _)) in Ho.
    apply viableOf_In in Ho. destruct Ho as (Hi & Hc & Hd & Hp).
    repeat split; try assumption.
    destruct aggressive; [reflexivity |]. rewrite (Hp eq_refl). reflexivity.
Qed.

(** *** The estimates of an upgrade *)

Lemma fallback_pos stats :
  0 < level stats -> 0 < ram stats -> 0 <= cores stats ->
  0 < estimateProdFallback stats.
Proof.
  intros Hl Hr Hc. unfold estimateProdFallback.
  assert (H1 : 0 < 1 + cores stats / 10).
  { assert (0 <= cores stats / 10)
      by (apply Qle_shift_div_l; [reflexivity | lra]).
    lra. }
  assert (H2 : 0 < level stats * ram stats) by (apply Qmult_lt_0_compat; assumption).
  assert (H3 : 0 < level stats * ram stats * (1 + cores stats / 10))
    by (apply Qmult_lt_0_compat; assumption).
  apply Qmult_lt_0_compat; [exact H3 | reflexivity].
Qed.

(** X27: for a node with a positive level and RAM the estimate of an
    upgrade scales the production the node has now: by (level + 1) /
    level for one more level, by 2 for a RAM doubling, by (11 + cores) /
    (10 + cores) for one more core.  The gain of a RAM doubling is thus
    the whole current production. *)
Theorem upgrade_estimates (stats : NodeStats) :
  0 < level stats -> 0 < ram stats -> 0 <= cores stats ->
  estimateProdUpgrade stats
    (mkNodeStats (level stats + 1) (ram stats) (cores stats) None)
  == productionPerSec stats * ((level stats + 1) / level stats)
  /\ estimateProdUpgrade stats
       (mkNodeStats (level stats) (ram stats * 2) (cores stats) None)
     == productionPerSec stats * 2
  /\ estimateProdUpgrade stats
       (mkNodeStats (level stats) (ram stats) (cores stats + 1) None)
     == productionPerSec stats * ((11 + cores stats) / (10 + cores stats)).
Proof.
  intros Hl Hr Hc. pose proof (fallback_pos stats Hl Hr Hc) as Hf.
  unfold estimateProdUpgrade.
  assert (E : ltb 0 (estimateProdFallback stats) = true) by (apply ltb_true; exact Hf).
  rewrite E. unfold estimateProdFallback in *. cbn [level ram cores].
  set (cur := productionPerSec stats). clearbody cur.
  set (l := level stats) in *. set (r := ram stats) in *.
  set (c := cores stats) in *. clearbody l r c.
  assert (Hc10 : 0 < 10 + c) by lra.
  repeat split; field; repeat split; lra.
Qed.

Lemma upgrade_estimates_witness :
  estimateProdUpgrade (mkNodeStats 10 4 2 (Some 3))
                      (mkNodeStats 10 (4 * 2) 2 None)
  == 3 * 2.
Proof.
  assert (Hl : 0 < level (mkNodeStats 10 4 2 (Some 3))) by reflexivity.
  assert (Hr : 0 < ram (mkNodeStats 10 4 2 (Some 3))) by reflexivity.
  assert (Hc : 0 <= cores (mkNodeStats 10 4 2 (Some 3))) by discriminate.
  exact (proj1 (proj2 (upgrade_estimates (mkNodeStats 10 4 2 (Some 3)) Hl Hr Hc))).
Defined.

(** *** The spending loop *)

Section Spend.

Variable Game : Type.
Variable getLevelUpgradeCost getRamUpgradeCost getCoreUpgradeCost
  : Game -> nat -> Cost.
Variable upgradeLevel upgradeRam upgradeCore : Game -> nat -> option Game.
Variable purchaseNode : Game -> option Game.

Lemma within_refl st :
  0 <= budget Game st -> (actions Game st <= MAX_ACTIONS_PER_CYCLE)%nat ->
  within Game st st.
Proof.
  intros Hb Ha. unfold within.
  split; [exact Hb |]. split; [apply Qle_refl |].
  split; [lia |]. split; [exact Ha |]. reflexivity.
Qed.

Lemma within_trans st1 st2 st3 :
  within Game st1 st2 -> within Game st2 st3 -> within Game st1 st3.
Proof.
  intros (A1 & A2 & A3 & A4 & A5) (B1 & B2 & B3 & B4 & B5). unfold within.
  split; [exact B1 |]. split; [eapply Qle_trans; eassumption |].
  split; [lia |]. split; [exact B4 |].
  intros E. assert (E2 : actions Game st3 = actions Game st2) by lia.
  rewrite (B5 E2). apply A5. lia.
Qed.

Lemma upgradeLoop_within getCost upgrade most i : forall st,
  0 <= budget Game st -> (actions Game st < MAX_ACTIONS_PER_CYCLE)%nat ->
  within Game st (upgradeLoop Game getCost upgrade most i st).
Proof.
  induction most as [| most IH]; intros st Hb Ha; cbn [upgradeLoop].
  - apply within_refl; [exact Hb | lia].
  - destruct (getCost (game Game st) i) as [c |]; [| apply within_refl; [exact Hb | lia]].
    destruct (leb c 0 || ltb (budget Game st) c) eqn:E;
      [apply within_refl; [exact Hb | lia] |].
    apply orb_false_iff in E. destruct E as [E0 Eb].
    apply leb_false in E0. apply ltb_false in Eb.
    destruct (upgrade (game Game st) i) as [g' |];
      [| apply within_refl; [exact Hb | lia]].
    cbv zeta. cbn [actions].
    assert (Hstep : within Game st (mkSpending Game g' (budget Game st - c)
                                          (S (actions Game st)))).
    { unfold within. cbn [budget actions].
      split; [lra |]. split; [lra |]. split; [lia |]. split; [lia |].
      intros E. exfalso. lia. }
    destruct (MAX_ACTIONS_PER_CYCLE <=? S (actions Game st))%nat eqn:Em;
      [exact Hstep |].
    apply Nat.leb_gt in Em.
    eapply within_trans; [exact Hstep |].
    apply IH; cbn [budget actions]; [lra | exact Em].
Qed.

Lemma spend_within aggressive st opt :
  gtQ (cost opt) 0 = true ->
  0 <= budget Game st -> (actions Game st <= MAX_ACTIONS_PER_CYCLE)%nat ->
  within Game st (spend Game getLevelUpgradeCost getRamUpgradeCost
                   getCoreUpgradeCost upgradeLevel upgradeRam upgradeCore
                   purchaseNode aggressive st opt).
Proof.
  intros Hc Hb Ha. unfold spend.
  destruct (MAX_ACTIONS_PER_CYCLE <=? actions Game st)%nat eqn:Em;
    [apply within_refl; assumption |].
  apply Nat.leb_gt in Em.
  destruct (gtQ (cost opt) (budget Game st)) eqn:Eg;
    [apply within_refl; assumption |].
  destruct (negb aggressive && _); [apply within_refl; assumption |].
  destruct (type opt).
  - destruct (purchaseNode (game Game st)) as [g' |];
      [| apply within_refl; assumption].
    destruct (cost opt) as [c |]; [| apply within_refl; assumption].
    cbn [gtQ] in Hc, Eg. apply ltb_true in Hc. apply ltb_false in Eg.
    unfold within. cbn [budget actions].
    split; [lra |]. split; [lra |]. split; [lia |]. split; [lia |].
    intros E. exfalso. lia.
  - apply upgradeLoop_within; assumption.
  - apply upgradeLoop_within; assumption.
  - apply upgradeLoop_within; assumption.
Qed.

Lemma execute_within aggressive viable : forall st,
  Forall (fun o => gtQ (cost o) 0 = true) viable ->
  0 <= budget Game st -> (actions Game st <= MAX_ACTIONS_PER_CYCLE)%nat ->
  within Game st (execute Game getLevelUpgradeCost getRamUpgradeCost
                     getCoreUpgradeCost upgradeLevel upgradeRam upgradeCore
                     purchaseNode aggressive viable st).
Proof.
  unfold execute. induction viable as [| o viable IH]; intros st Hv Hb Ha.
  - apply within_refl; assumption.
  - cbn [fold_left]. apply Forall_cons_iff in Hv. destruct Hv as [Ho Hv].
    pose proof (spend_within aggressive st o Ho Hb Ha) as W.
    eapply within_trans; [exact W |].
    destruct W as (W1 & _ & _ & W4 & _). apply IH; assumption.
Qed.

(** X28: a pass of the manager that gets to spend has a budget of at
    least a million, which is 56 percent of the money on home.  Whatever
    the game answers, the pass ends with a budget that is not negative
    and not above the one it began with, after at most six actions; and
    when it took no action, the game and the budget are as they were. *)
Theorem spending_stays_within_budget (aggressive : bool) (homeMoney : Q)
                                     (nodeCount : nat) (options : list Opt)
                                     (g : Game) (st : Spending Game) :
  cycle Game getLevelUpgradeCost getRamUpgradeCost getCoreUpgradeCost
        upgradeLevel upgradeRam upgradeCore purchaseNode
        aggressive homeMoney nodeCount options g = Some st ->
  budgetOf homeMoney == 0.56 * homeMoney
  /\ 1000000 <= budgetOf homeMoney
  /\ 0 <= budget Game st
  /\ budget Game st <= budgetOf homeMoney
  /\ (actions Game st <= MAX_ACTIONS_PER_CYCLE)%nat
  /\ (actions Game st = O ->
      game Game st = g /\ budget Game st = budgetOf homeMoney).
Proof.
  unfold cycle. cbv zeta.
  destruct (ltb (budgetOf homeMoney) 1000000) eqn:Eb; [discriminate |].
  apply ltb_false in Eb. intros [= <-].
  assert (Hv : Forall (fun o => gtQ (cost o) 0 = true)
                      (nudge nodeCount (viableOf aggressive options))).
  { apply Forall_forall. intros o Ho.
    apply (Permutation_in _ (nudge_perm _ _)) in Ho.
    apply viableOf_In in Ho. apply Ho. }
  assert (Hb0 : 0 <= budgetOf homeMoney) by lra.
  destruct (execute_within aggressive _
              (mkSpending Game g (budgetOf homeMoney) O) Hv Hb0)
    as (W1 & W2 & _ & W4 & W5); [cbn [actions]; unfold MAX_ACTIONS_PER_CYCLE; lia |].
  cbn [budget actions] in *.
  split.
  { unfold budgetOf, RESERVED_CASH_PCT, BUDGET_RATIO in *.
    destruct (Q.max_spec 0 ((homeMoney - homeMoney * 0.20) * 0.70)) as [[_ E] | [Hle E]].
    - rewrite E. lra.
    - rewrite E in Eb. exfalso. lra. }
  split; [exact Eb |]. split; [exact W1 |]. split; [exact W2 |].
  split; [exact W4 |].
  intros E0. rewrite (W5 E0). cbn [game budget]. split; reflexivity.
Qed.

End Spend.

Lemma spending_stays_within_budget_witness :
  exists st,
    cycle nat (fun _ _ => Finite 400000) (fun _ _ => Infinite)
          (fun _ _ => Infinite)
          (fun g _ => Some (S g)) (fun _ _ => None) (fun _ _ => None)
          (fun _ => None)
          false 2000000 1%nat
          [mkOpt LevelUp O (Finite 400000) 1 (Finite 400000)] O = Some st
    /\ (actions nat st = 2)%nat
    /\ 0 <= budget nat st.
Proof.
  eexists. split; [reflexivity |]. split; [reflexivity |].
  refine (let H := spending_stays_within_budget nat
                     (fun _ _ => Finite 400000) (fun _ _ => Infinite)
                     (fun _ _ => Infinite)
                     (fun g _ => Some (S g)) (fun _ _ => None) (fun _ _ => None)
                     (fun _ => None)
                     false 2000000 1%nat
                     [mkOpt LevelUp O (Finite 400000) 1 (Finite 400000)] O _
                     eq_refl in _).
  destruct H as (_ & _ & H & _). exact H.
Defined.

End HacknetFacts.

(** ** contract-runner.js *)

Module ContractRunnerFacts.

Import ContractRunner.

Lemma sameContract_key data x :
  sameContract data x = true <-> key x = key data.
Proof.
  unfold sameContract, key. rewrite andb_true_iff, !String.eqb_eq.
  split; [intros [-> ->]; reflexivity | intros [= -> ->]; split; reflexivity].
Qed.

Lemma logged_iff data l :
  existsb (sameContract data) l = true <-> In (key data) (map key l).
Proof.
  rewrite existsb_exists, in_map_iff. split.
  - intros (x & Hx & Hs). exists x. split; [apply sameContract_key; exact Hs | exact Hx].
  - intros (x & Hs & Hx). exists x. split; [exact Hx | apply sameContract_key; exact Hs].
Qed.

(** One contract: the file stays, or gains the entry at its end. *)
Lemma logContract_cases st data :
  st <> NotAnArray ->
  logContract st data <> NotAnArray
  /\ ((logContract st data = st /\ In (key data) (map key (entries st)))
      \/ (entries (logContract st data) = entries st ++ [data]
          /\ ~ In (key data) (map key (entries st)))).
Proof.
  intros Hst. unfold logContract.
  destruct (existsb (sameContract data) (entries st)) eqn:E.
  - assert (R : match st with NotAnArray => NotAnArray | _ => st end = st)
      by (destruct st; reflexivity).
    destruct st; try (exfalso; apply Hst; reflexivity);
      (split; [discriminate || exact Hst |]); left;
      (split; [reflexivity | apply logged_iff; exact E]).
  - assert (N : ~ In (key data) (map key (entries st))).
    { intros H. apply logged_iff in H. congruence. }
    destruct st; try (exfalso; apply Hst; reflexivity);
      (split; [discriminate |]); right; (split; [reflexivity | exact N]).
Qed.

(** The loop over the contracts, from any file and any count. *)
Lemma loop_spec host now typeOf cs : forall i st,
  st <> NotAnArray ->
  let st' := snd (fold_left
                    (fun acc c =>
                       let '(i, st) := acc in
                       (S i, logContract st (mkEntry host c (now i) (typeOf c))))
                    cs (i, st)) in
  st' <> NotAnArray
  /\ (exists added,
        entries st' = entries st ++ added
        /\ forall e, In e added -> server e = host /\ In (file e) cs)
  /\ (forall c, In c cs -> In (host, c) (map key (entries st')))
  /\ (NoDup (map key (entries st)) -> NoDup (map key (entries st'))).
Proof.
  induction cs as [| c cs IH]; intros i st Hst; cbn [fold_left snd].
  - split; [exact Hst |]. split.
    + exists []. split; [rewrite app_nil_r; reflexivity | intros e []].
    + split; [intros c [] | trivial].
  - set (data := mkEntry host c (now i) (typeOf c)).
    destruct (logContract_cases st data Hst) as (Hn & Hcase).
    destruct (IH (S i) (logContract st data) Hn) as (I1 & (added & I2 & I3) & I4 & I5).
    cbv zeta in *. split; [exact I1 |].
    assert (Hin : In (key data) (map key (entries (logContract st data)))).
    { destruct Hcase as [[-> H] | [-> _]]; [exact H |].
      rewrite map_app. apply in_or_app. right. left. reflexivity. }
    split; [| split].
    + destruct Hcase as [[E _] | [E _]].
      * exists added. rewrite I2, E. split; [reflexivity |].
        intros e He. destruct (I3 e He) as [A B].
        split; [exact A | right; exact B].
      * exists (data :: added). rewrite I2, E, <- app_assoc.
        split; [reflexivity |].
        intros e [<- | He]; [split; [reflexivity | left; reflexivity] |].
        destruct (I3 e He) as [A B]. split; [exact A | right; exact B].
    + intros c' [<- | Hc']; [| apply I4; exact Hc'].
      rewrite I2, map_app. apply in_or_app. left. exact Hin.
    + intros Hnd. apply I5.
      destruct Hcase as [[-> _] | [-> Hnew]]; [exact Hnd |].
      rewrite map_app. cbn [map].
      apply NoDup_app; [exact Hnd | repeat constructor; intros [] |].
      intros x Hx [<- | []]. apply Hnew. exact Hx.
Qed.

(** A loop over contracts that are all logged changes nothing. *)
Lemma loop_settled host now typeOf cs : forall i st,
  (forall c, In c cs -> In (host, c) (map key (entries st))) ->
  snd (fold_left
         (fun acc c =>
            let '(i, st) := acc in
            (S i, logContract st (mkEntry host c (now i) (typeOf c))))
         cs (i, st)) = st.
Proof.
  induction cs as [| c cs IH]; intros i st H; cbn [fold_left snd]; [reflexivity |].
  assert (E : logContract st (mkEntry host c (now i) (typeOf c)) = st).
  { unfold logContract.
    assert (X : existsb (sameContract (mkEntry host c (now i) (typeOf c)))
                        (entries st) = true)
      by (apply logged_iff; apply H; left; reflexivity).
    rewrite X. destruct st; reflexivity. }
  rewrite E. apply IH. intros c' Hc'. apply H. right. exact Hc'.
Qed.

(** X29: a pass of contract-runner.js without a solver on home, over a
    file that is missing, unreadable or a list of entries.  The entries
    it had stay in place and the new ones, all for this host and for
    .cct files of the listing, follow them; afterwards every .cct file of
    the host is logged; a list without a repeated server and file pair
    stays so; and another pass over the same files, whatever the clock
    reads, leaves the file alone. *)
Theorem contracts_logged_once (host : string) (files : list string)
                              (now : nat -> Z) (typeOf : string -> string)
                              (before : Stored) :
  before <> NotAnArray ->
  (exists added,
     entries (stored (pass host files false now typeOf before))
     = entries before ++ added
     /\ forall e, In e added ->
          server e = host /\ In (file e) files
          /\ endsWith (file e) ".cct" = true)
  /\ (forall c, In c files -> endsWith c ".cct" = true ->
        In (host, c)
           (map key (entries (stored (pass host files false now typeOf before)))))
  /\ (NoDup (map key (entries before)) ->
      NoDup (map key (entries (stored (pass host files false now typeOf before)))))
  /\ forall now' typeOf',
       stored (pass host files false now' typeOf'
                 (stored (pass host files false now typeOf before)))
       = stored (pass host files false now typeOf before).
Proof.
  intros Hb. unfold pass. cbn [stored].
  destruct (loop_spec host now typeOf
              (filter (fun f => endsWith f ".cct") files) O before Hb)
    as (S1 & (added & S2 & S3) & S4 & S5).
  cbv zeta in *. split; [| split; [| split]].
  - exists added. split; [exact S2 |]. intros e He.
    destruct (S3 e He) as [A B]. apply filter_In in B.
    split; [exact A | exact B].
  - intros c Hc He. apply S4. apply filter_In. split; assumption.
  - exact S5.
  - intros now' typeOf'. apply loop_settled. exact S4.
Qed.

Lemma contracts_logged_once_witness :
  entries (stored (pass "foodnstuff"
                        ["contract-1.cct"; "notes.txt"; "contract-2.cct"]%string
                        false (fun i => Z.of_nat i) (fun _ => EmptyString)
                        Unparseable))
  = [mkEntry "foodnstuff" "contract-1.cct" 0 EmptyString;
     mkEntry "foodnstuff" "contract-2.cct" 1 EmptyString]
  /\ NoDup (map key
       (entries (stored (pass "foodnstuff"
                        ["contract-1.cct"; "notes.txt"; "contract-2.cct"]%string
                        false (fun i => Z.of_nat i) (fun _ => EmptyString)
                        Unparseable)))).
Proof.
  split; [reflexivity |].
  assert (Hb : Unparseable <> NotAnArray) by discriminate.
  destruct (contracts_logged_once "foodnstuff"
              ["contract-1.cct"; "notes.txt"; "contract-2.cct"]%string
              (fun i => Z.of_nat i) (fun _ => EmptyString) Unparseable Hb)
    as (_ & _ & H & _).
  apply H. constructor.
Defined.

End ContractRunnerFacts.
